(** * Chat-Bot back end (BackEnd/server.js): request queue, retry policy,
      route handler and persistence, as an event-driven transition system.

    The server is a single-threaded Node.js process.  Every [async] function
    of the source is cut at its [await]s: the code between two suspension
    points runs to completion inside one event-loop turn and is a total
    function on the server state; the environment (clients, the upstream
    Gemini API, timers, MongoDB) chooses which suspended activation is
    resumed next and with which result. *)

From stdpp Require Import gmap strings list pretty.
From Stdlib Require Import ZArith Lia.

Set Warnings "-register-all".

(** ** JavaScript values *)

(** The JSON-like values that flow through the server: request bodies,
    upstream replies, response bodies.  Numbers are restricted to integers;
    [JDate] is a [Date] object holding milliseconds since the epoch. *)
Inductive JsVal : Type :=
| JUndefined
| JNull
| JBool (b : bool)
| JNum (n : Z)
| JStr (s : string)
| JDate (ms : Z)
| JArr (items : list JsVal)
| JObj (fields : list (string * JsVal)).

(** [!!v] of JavaScript. *)
Definition truthy (v : JsVal) : bool :=
  match v with
  | JUndefined | JNull => false
  | JBool b => b
  | JNum n => negb (n =? 0)%Z
  | JStr s => negb (String.eqb s "")
  | JDate _ | JArr _ | JObj _ => true
  end.

Record HttpResponse : Type := mkHttpResponse {
  status : Z;
  data : JsVal
}.

(** An exception object: [error.name], [error.message] and, for errors
    raised by axios on a reply, [error.response]. *)
Record JsError : Type := mkJsError {
  name : string;
  message : string;
  response : option HttpResponse
}.

Definition Error (msg : string) : JsError :=
  {| name := "Error"; message := msg; response := None |}.

Definition TypeError (msg : string) : JsError :=
  {| name := "TypeError"; message := msg; response := None |}.

(** Result of evaluating an expression or a block that may throw. *)
Inductive Completion (A : Type) : Type :=
| Normal (a : A)
| Throw (e : JsError).
Arguments Normal {A} a.
Arguments Throw {A} e.

#[global] Instance completion_bind : MBind Completion :=
  fun A B (k : A -> Completion B) (c : Completion A) =>
    match c with
    | Normal a => k a
    | Throw e => Throw e
    end.

Fixpoint lookup_field (k : string) (fields : list (string * JsVal)) : JsVal :=
  match fields with
  | [] => JUndefined
  | (k', v) :: rest => if String.eqb k k' then v else lookup_field k rest
  end.

(** [v.k]: reading a property of [undefined] or [null] throws; a property
    that is absent reads as [undefined]. *)
Definition js_prop (v : JsVal) (k : string) : Completion JsVal :=
  match v with
  | JUndefined =>
      Throw (TypeError ("Cannot read properties of undefined (reading '" +:+ k +:+ "')"))
  | JNull =>
      Throw (TypeError ("Cannot read properties of null (reading '" +:+ k +:+ "')"))
  | JObj fields => Normal (lookup_field k fields)
  | _ => Normal JUndefined
  end.

(** [v[0]]. *)
Definition js_at0 (v : JsVal) : Completion JsVal :=
  match v with
  | JUndefined => Throw (TypeError "Cannot read properties of undefined (reading '0')")
  | JNull => Throw (TypeError "Cannot read properties of null (reading '0')")
  | JArr items => Normal (default JUndefined (head items))
  | JStr (String c _) => Normal (JStr (String c EmptyString))
  | JObj fields => Normal (lookup_field "0" fields)
  | _ => Normal JUndefined
  end.

(** ** Configuration (server.js, lines 12-15) *)

Definition RATE_LIMIT_DELAY : Z := 5000.
Definition MAX_RETRIES : Z := 3.
Definition INITIAL_RETRY_DELAY : Z := 1000.

(** ** generateTextFromGemini: the code between its suspension points *)

(** What the environment answers to [axios.post]: an HTTP reply of the
    upstream API, or no reply at all (network failure, 30 s timeout). *)
Inductive UpstreamResult : Type :=
| HttpReply (r : HttpResponse)
| NoReply (msg : string).

(** axios with its default [validateStatus]: the promise is fulfilled for a
    2xx status and rejected with an error carrying the reply otherwise. *)
Definition axios_post (u : UpstreamResult) : Completion HttpResponse :=
  match u with
  | HttpReply r =>
      if bool_decide (200 ≤ status r < 300)%Z then Normal r
      else Throw {| name := "AxiosError";
                    message := "Request failed with status code "
                               +:+ pretty (status r);
                    response := Some r |}
  | NoReply msg =>
      Throw {| name := "AxiosError"; message := msg; response := None |}
  end.

(** Lines 136-146: validation of the reply and the value returned. *)
Definition generateTextFromGemini_try (response : HttpResponse) : Completion JsVal :=
  candidates ← js_prop (data response) "candidates";
  if negb (truthy candidates) then
    Throw (Error "Invalid response format from Gemini API")
  else
    candidate ← js_at0 candidates;
    if negb (truthy candidate) then
      Throw (Error "Invalid response format from Gemini API")
    else
      content ← js_prop candidate "content";
      if negb (truthy content) then
        Throw (Error "Invalid response format from Gemini API")
      else
        parts ← js_prop content "parts";
        part ← js_at0 parts;
        text ← js_prop part "text";
        Normal (JObj [("choices",
                 JArr [JObj [("message", JObj [("content", text)])]])]).

(** [error.response?.status === n]. *)
Definition response_status_is (n : Z) (error : JsError) : bool :=
  match response error with
  | Some r => (status r =? n)%Z
  | None => false
  end.

(** Lines 155-166: what the [catch] block decides.  [2 ^ retryCount] is
    [Math.pow(2, retryCount)] for the retry counts that occur, which are
    not negative. *)
Inductive CatchDecision : Type :=
| RetryAfter (delay : Z)
| Rethrow (e : JsError).

Definition rate_limit_error : JsError :=
  Error "Rate limit exceeded. Please try again later.".

Definition generateTextFromGemini_catch (error : JsError) (retryCount : Z)
  : CatchDecision :=
  if response_status_is 429 error && (retryCount <? MAX_RETRIES)%Z then
    RetryAfter (INITIAL_RETRY_DELAY * 2 ^ retryCount)%Z
  else if response_status_is 429 error then
    Rethrow rate_limit_error
  else
    Rethrow error.

(** [response.choices[0].message.content] (lines 199 and 207). *)
Definition choice_content (response : JsVal) : Completion JsVal :=
  choices ← js_prop response "choices";
  choice ← js_at0 choices;
  msg ← js_prop choice "message";
  js_prop msg "content".

(** ** Persistence (lines 81-87) *)

(** A document of the [Ai] model.  The schema declares [role] and [content]
    as [String] without validators; [intime] defaults to [Date.now] when
    the document is constructed.  [content] holds what the schema's cast
    leaves in the document: a string, [null], or nothing ([undefined]). *)
Record Ai : Type := mkAi {
  role : string;
  content : JsVal;
  intime : Z
}.

(** [Date.prototype.toString].  Its text is left to the implementation and
    is not modelled; a [Date] does not occur in a parsed JSON body. *)
Definition date_toString (ms : Z) : string := "Date(" +:+ pretty ms +:+ ")".

(** The cast mongoose applies to a value given for a [String] path: [null]
    and [undefined] are kept, a string is itself, a number, a boolean or a
    [Date] becomes its [toString()], an object that carries a string [_id]
    becomes that string; an array or any other object cannot be cast
    ([None]). *)
Definition castString (v : JsVal) : option JsVal :=
  match v with
  | JUndefined | JNull => Some v
  | JStr s => Some (JStr s)
  | JNum n => Some (JStr (pretty n))
  | JBool b => Some (JStr (if b then "true" else "false"))
  | JDate ms => Some (JStr (date_toString ms))
  | JArr _ => None
  | JObj fields =>
      match lookup_field "_id" fields with
      | JStr id => if String.eqb id "" then None else Some (JStr id)
      | _ => None
      end
  end.

(** [new Ai({ role, content })] at time [t]: when the cast fails the path is
    left unset and the document is invalid. *)
Definition new_Ai (role : string) (content : JsVal) (t : Z) : Ai :=
  {| role := role; content := default JUndefined (castString content);
     intime := t |}.

(** What [save()] is rejected with for a document whose [content] could not
    be cast; the message goes on with the value as [util.inspect] prints
    it, which is not modelled. *)
Definition validation_error : JsError :=
  {| name := "ValidationError";
     message := "Ai validation failed: content: Cast to string failed";
     response := None |}.

(** What the database answers to [save()]. *)
Inductive SaveResult : Type :=
| SaveOk
| SaveFailed (error_name error_message : string).

(** ** Server state *)

(** An entry of [requestQueue]: [{ prompt, resolve, reject }].  The two
    callbacks settle the promise awaited by the route handler activation of
    request [owner]. *)
Record Job : Type := mkJob {
  prompt : JsVal;
  owner : nat
}.

(** A suspended activation of [processQueue], by the [await] it is parked
    at (through [generateTextFromGemini] for the last two). *)
Inductive Worker : Type :=
| AtRateLimitDelay (job : Job) (deadline : Z)              (* line 33 *)
| AtAxiosPost (job : Job) (retryCount : Z)                 (* line 132 *)
| AtRetryDelay (job : Job) (retryCount : Z) (deadline : Z) (* line 158 *).

(** A suspended activation of the route handler. *)
Inductive Handler : Type :=
| AtQueuePromise (prompt : JsVal)                              (* line 182 *)
| AtUserSave (prompt response : JsVal) (userMessage : Ai)      (* line 194 *)
| AtResponseSave (prompt response : JsVal)
                 (userMessage geminiResponseMessage : Ai)      (* line 201 *).

(** Calls to the upstream API, as seen on the wire. *)
Inductive UpstreamEvent : Type :=
| CallStart (job : Job) (retryCount : Z) (t : Z)
| CallEnd (job : Job) (retryCount : Z) (t : Z) (u : UpstreamResult).

(** The module-level variables of server.js ([lastRequestTime],
    [isProcessing], [requestQueue]), the suspended activations, the clock,
    the documents this process appended to the MongoDB collection and the
    history of what the server did.  Requests are numbered in order of
    arrival ([nextRequest] is the number of the next one); documents and
    responses are paired with the request they belong to; [pushed] and
    [shifted] record the order of [requestQueue.push] and
    [requestQueue.shift]. *)
Record Server : Type := mkServer {
  GEMINI_API_KEY : bool;
  now : Z;
  lastRequestTime : Z;
  isProcessing : bool;
  requestQueue : list Job;
  workers : list Worker;
  handlers : gmap nat Handler;
  nextRequest : nat;
  collection : list (nat * Ai);
  responses : list (nat * HttpResponse);
  upstream : list UpstreamEvent;
  pushed : list nat;
  shifted : list nat
}.

Definition set_now (t : Z) (s : Server) : Server :=
  mkServer (GEMINI_API_KEY s) t (lastRequestTime s) (isProcessing s)
    (requestQueue s) (workers s) (handlers s) (nextRequest s) (collection s)
    (responses s) (upstream s) (pushed s) (shifted s).

Definition set_lastRequestTime (t : Z) (s : Server) : Server :=
  mkServer (GEMINI_API_KEY s) (now s) t (isProcessing s)
    (requestQueue s) (workers s) (handlers s) (nextRequest s) (collection s)
    (responses s) (upstream s) (pushed s) (shifted s).

Definition set_isProcessing (b : bool) (s : Server) : Server :=
  mkServer (GEMINI_API_KEY s) (now s) (lastRequestTime s) b
    (requestQueue s) (workers s) (handlers s) (nextRequest s) (collection s)
    (responses s) (upstream s) (pushed s) (shifted s).

Definition set_workers (ws : list Worker) (s : Server) : Server :=
  mkServer (GEMINI_API_KEY s) (now s) (lastRequestTime s) (isProcessing s)
    (requestQueue s) ws (handlers s) (nextRequest s) (collection s)
    (responses s) (upstream s) (pushed s) (shifted s).

Definition set_handlers (hs : gmap nat Handler) (s : Server) : Server :=
  mkServer (GEMINI_API_KEY s) (now s) (lastRequestTime s) (isProcessing s)
    (requestQueue s) (workers s) hs (nextRequest s) (collection s)
    (responses s) (upstream s) (pushed s) (shifted s).

Definition set_nextRequest (n : nat) (s : Server) : Server :=
  mkServer (GEMINI_API_KEY s) (now s) (lastRequestTime s) (isProcessing s)
    (requestQueue s) (workers s) (handlers s) n (collection s)
    (responses s) (upstream s) (pushed s) (shifted s).

(** [requestQueue.push(job)]. *)
Definition push (job : Job) (s : Server) : Server :=
  mkServer (GEMINI_API_KEY s) (now s) (lastRequestTime s) (isProcessing s)
    (requestQueue s ++ [job]) (workers s) (handlers s) (nextRequest s)
    (collection s) (responses s) (upstream s)
    (pushed s ++ [owner job]) (shifted s).

(** [requestQueue.shift()] on a queue whose head is [job]. *)
Definition shift (job : Job) (rest : list Job) (s : Server) : Server :=
  mkServer (GEMINI_API_KEY s) (now s) (lastRequestTime s) (isProcessing s)
    rest (workers s) (handlers s) (nextRequest s)
    (collection s) (responses s) (upstream s)
    (pushed s) (shifted s ++ [owner job]).

(** A fulfilled [save()]: the document is in the collection. *)
Definition insert_doc (id : nat) (doc : Ai) (s : Server) : Server :=
  mkServer (GEMINI_API_KEY s) (now s) (lastRequestTime s) (isProcessing s)
    (requestQueue s) (workers s) (handlers s) (nextRequest s)
    (collection s ++ [(id, doc)]) (responses s) (upstream s)
    (pushed s) (shifted s).

Definition log_upstream (e : UpstreamEvent) (s : Server) : Server :=
  mkServer (GEMINI_API_KEY s) (now s) (lastRequestTime s) (isProcessing s)
    (requestQueue s) (workers s) (handlers s) (nextRequest s)
    (collection s) (responses s) (upstream s ++ [e])
    (pushed s) (shifted s).

(** [res.status(..).json(..)]: the response leaves and the activation of
    the route handler for request [id] is over. *)
Definition respond (id : nat) (r : HttpResponse) (s : Server) : Server :=
  mkServer (GEMINI_API_KEY s) (now s) (lastRequestTime s) (isProcessing s)
    (requestQueue s) (workers s) (delete id (handlers s)) (nextRequest s)
    (collection s) (responses s ++ [(id, r)]) (upstream s)
    (pushed s) (shifted s).

Definition park (w : Worker) (s : Server) : Server :=
  set_workers (workers s ++ [w]) s.

Definition unpark (i : nat) (s : Server) : Server :=
  set_workers (delete i (workers s)) s.

(** ** The route handler, POST /generate-text1 (lines 171-240) *)

(** Lines 209-239: the response built by the [catch] block. *)
Definition error_reply (error : JsError) : HttpResponse :=
  match response error with
  | Some r =>
      if (status r =? 429)%Z then
        {| status := 429;
           data := JObj [("error", JStr "Rate limit exceeded");
                         ("details", JStr "Please wait a moment and try again");
                         ("retryAfter", JNum (RATE_LIMIT_DELAY / 1000))] |}
      else
        {| status := status r;
           data := JObj [("error", JStr "Gemini API Error");
                         ("details", data r)] |}
  | None =>
      if String.eqb (name error) "MongoError" then
        {| status := 500;
           data := JObj [("error", JStr "Database Error");
                         ("details", JStr (message error))] |}
      else
        {| status := 500;
           data := JObj [("error", JStr "Error generating response");
                         ("details", JStr (message error))] |}
  end.

(** Lines 204-208: the object given to [res.json].  A field whose value is
    [undefined] is left out of the JSON text that is sent. *)
Definition success_reply (prompt : JsVal) (userMessage : Ai) (text : JsVal)
  : HttpResponse :=
  {| status := 200;
     data := JObj [("userInput", prompt);
                   ("time", JDate (intime userMessage));
                   ("gpt3Response", text)] |}.

(** [resolve(response)] on the promise of request [id]: the handler goes on
    with lines 187-194 and parks at [userMessage.save()]. *)
Definition handler_resolved (id : nat) (response : JsVal) (s : Server) : Server :=
  match handlers s !! id with
  | Some (AtQueuePromise prompt) =>
      let userMessage := new_Ai "user" prompt (now s) in
      set_handlers (<[id := AtUserSave prompt response userMessage]> (handlers s)) s
  | _ => s
  end.

(** [reject(error)] on the promise of request [id]: the handler goes to its
    [catch] block. *)
Definition handler_rejected (id : nat) (error : JsError) (s : Server) : Server :=
  match handlers s !! id with
  | Some (AtQueuePromise _) => respond id (error_reply error) s
  | _ => s
  end.

(** A [save()] of request [id] settles: lines 195-202 after the first one,
    lines 202-208 after the second one, the [catch] block on failure.  A
    document whose [content] could not be cast does not pass validation:
    its [save()] is rejected with a [ValidationError] whatever the database
    would answer. *)
Definition handler_saved (id : nat) (r : SaveResult) (s : Server) : option Server :=
  match handlers s !! id with
  | Some (AtUserSave prompt response userMessage) =>
      match r with
      | SaveOk =>
          match castString prompt with
          | None => Some (respond id (error_reply validation_error) s)
          | Some _ =>
              let s := insert_doc id userMessage s in
              match choice_content response with
              | Normal text =>
                  let geminiResponseMessage := new_Ai "Alan-Ai" text (now s) in
                  Some (set_handlers
                          (<[id := AtResponseSave prompt response userMessage
                                                  geminiResponseMessage]> (handlers s)) s)
              | Throw error => Some (respond id (error_reply error) s)
              end
          end
      | SaveFailed n m => Some (respond id (error_reply (mkJsError n m None)) s)
      end
  | Some (AtResponseSave prompt response userMessage geminiResponseMessage) =>
      match r with
      | SaveOk =>
          match choice_content response with
          | Normal text =>
              match castString text with
              | None => Some (respond id (error_reply validation_error) s)
              | Some _ =>
                  let s := insert_doc id geminiResponseMessage s in
                  Some (respond id (success_reply prompt userMessage text) s)
              end
          | Throw error =>
              Some (respond id (error_reply error)
                      (insert_doc id geminiResponseMessage s))
          end
      | SaveFailed n m => Some (respond id (error_reply (mkJsError n m None)) s)
      end
  | _ => None
  end.

(** ** generateTextFromGemini and processQueue on the server state *)

(** How far an activation got in this turn: parked at an [await], or done. *)
Inductive Progress : Type :=
| Suspended (w : Worker)
| Completed (c : Completion JsVal).

(** Lines 90-134: a call of [generateTextFromGemini] up to [axios.post]. *)
Definition key_error : JsError :=
  Error "GEMINI_API_KEY is not set in environment variables".

Definition generateTextFromGemini (job : Job) (retryCount : Z) (s : Server)
  : Progress * Server :=
  if negb (GEMINI_API_KEY s) then (Completed (Throw key_error), s)
  else
    (Suspended (AtAxiosPost job retryCount),
     log_upstream (CallStart job retryCount (now s)) s).

(** Lines 131-146: the [try] block, from the outcome of [axios.post]. *)
Definition attempt (u : UpstreamResult) : Completion JsVal :=
  response ← axios_post u; generateTextFromGemini_try response.

(** Lines 136-167: [generateTextFromGemini] resumed with the outcome of
    [axios.post]. *)
Definition generateTextFromGemini_resume (job : Job) (retryCount : Z)
    (u : UpstreamResult) (s : Server) : Progress :=
  match attempt u with
  | Normal v => Completed (Normal v)
  | Throw error =>
      match generateTextFromGemini_catch error retryCount with
      | RetryAfter delay => Suspended (AtRetryDelay job retryCount (now s + delay))
      | Rethrow e => Completed (Throw e)
      end
  end.

(** Lines 37-40: the promise of the job is settled. *)
Definition settle (job : Job) (c : Completion JsVal) (s : Server) : Server :=
  match c with
  | Normal response =>
      handler_resolved (owner job) response (set_lastRequestTime (now s) s)
  | Throw error => handler_rejected (owner job) error s
  end.

(** Lines 27-46 for a worker that found [queue] in [requestQueue] with
    [isProcessing] clear.  The recursion is the call of [processQueue] in
    the [finally] block, reached within the same turn only when
    [generateTextFromGemini] throws before its first [await]. *)
Fixpoint processQueue_from (queue : list Job) (s : Server) : Server :=
  match queue with
  | [] => s
  | job :: rest =>
      let s := shift job rest (set_isProcessing true s) in
      let timeSinceLastRequest := (now s - lastRequestTime s)%Z in
      if (timeSinceLastRequest <? RATE_LIMIT_DELAY)%Z then
        park (AtRateLimitDelay job
                (now s + (RATE_LIMIT_DELAY - timeSinceLastRequest))) s
      else
        match generateTextFromGemini job 0 s with
        | (Suspended w, s) => park w s
        | (Completed c, s) =>
            let s := set_isProcessing false (settle job c s) in
            processQueue_from rest s
        end
  end.

(** Lines 23-47, from the guard of line 24. *)
Definition processQueue (s : Server) : Server :=
  if isProcessing s || bool_decide (length (requestQueue s) = 0) then s
  else processQueue_from (requestQueue s) s.

(** Lines 36-46 for a worker that was resumed: the result of
    [generateTextFromGemini] is awaited, the promise settled, and the
    [finally] block restarts the queue. *)
Definition processQueue_resume (job : Job) (p : Progress * Server) : Server :=
  match p with
  | (Suspended w, s) => park w s
  | (Completed c, s) =>
      let s := set_isProcessing false (settle job c s) in
      if bool_decide (0 < length (requestQueue s)) then processQueue s else s
  end.

(** Lines 243-249: the error-handling middleware; [message] is
    [err.message]. *)
Definition error_middleware (message : string) : HttpResponse :=
  {| status := 500;
     data := JObj [("error", JStr "Internal Server Error");
                   ("details", JStr message)] |}.

(** Lines 171-185: a request reaches the route handler.  [body] is
    [req.body] as parsed by [bodyParser.json()], an object. *)
Definition post_generate_text1 (body : JsVal) (s : Server) : option Server :=
  match js_prop body "prompt" with
  | Throw _ => None
  | Normal prompt =>
      let id := nextRequest s in
      let s := set_nextRequest (S id) s in
      if negb (truthy prompt) then
        Some (respond id {| status := 400;
                            data := JObj [("error", JStr "Prompt is required")] |} s)
      else
        let s := set_handlers (<[id := AtQueuePromise prompt]> (handlers s)) s in
        Some (processQueue (push {| prompt := prompt; owner := id |} s))
  end.

(** ** The event loop *)

(** One turn of the event loop.  A request to POST /generate-text1 first
    goes through [bodyParser.json()] (line 51): [Request body] is a request
    whose body the parser accepted, [BodyRejected message] one on which the
    parser failed (malformed JSON, a body over its size limit) with an error
    of that message, which Express hands to the error-handling middleware
    instead of the route handler.  The index of [TimerFires] and
    [AxiosSettles] is the position of the resumed worker in [workers]. *)
Inductive Event : Type :=
| Tick (d : Z)
| Request (body : JsVal)
| BodyRejected (message : string)
| TimerFires (w : nat)
| AxiosSettles (w : nat) (u : UpstreamResult)
| SaveSettles (id : nat) (r : SaveResult).

(** [step s e] is [None] when [e] cannot happen in [s]: time does not run
    backwards, a timer does not fire before its deadline, only a pending
    operation settles. *)
Definition step (s : Server) (e : Event) : option Server :=
  match e with
  | Tick d =>
      if bool_decide (0 ≤ d)%Z then Some (set_now (now s + d) s) else None
  | Request body => post_generate_text1 body s
  | BodyRejected message =>
      let id := nextRequest s in
      Some (respond id (error_middleware message) (set_nextRequest (S id) s))
  | TimerFires w =>
      match workers s !! w with
      | Some (AtRateLimitDelay job deadline) =>
          if bool_decide (deadline ≤ now s)%Z then
            Some (processQueue_resume job
                    (generateTextFromGemini job 0 (unpark w s)))
          else None
      | Some (AtRetryDelay job retryCount deadline) =>
          if bool_decide (deadline ≤ now s)%Z then
            Some (processQueue_resume job
                    (generateTextFromGemini job (retryCount + 1) (unpark w s)))
          else None
      | _ => None
      end
  | AxiosSettles w u =>
      match workers s !! w with
      | Some (AtAxiosPost job retryCount) =>
          let s := log_upstream (CallEnd job retryCount (now s) u) (unpark w s) in
          Some (processQueue_resume job
                  (generateTextFromGemini_resume job retryCount u s, s))
      | _ => None
      end
  | SaveSettles id r => handler_saved id r s
  end.

Fixpoint run (s : Server) (events : list Event) : option Server :=
  match events with
  | [] => Some s
  | e :: rest =>
      match step s e with
      | Some s' => run s' rest
      | None => None
      end
  end.

(** The server right after start-up, at time [t0]. *)
Definition start (key : bool) (t0 : Z) : Server :=
  {| GEMINI_API_KEY := key; now := t0; lastRequestTime := 0;
     isProcessing := false; requestQueue := []; workers := [];
     handlers := ∅; nextRequest := 0; collection := []; responses := [];
     upstream := []; pushed := []; shifted := [] |}.

Definition reachable (s : Server) : Prop :=
  ∃ key t0 events, run (start key t0) events = Some s.

(** * Invariants of the reachable states *)

(** The worker flag: [isProcessing] is set exactly while one activation of
    [processQueue] is parked, and an idle server has an empty queue. *)
Definition flag_inv (s : Server) : Prop :=
  if isProcessing s then ∃ w, workers s = [w]
  else workers s = [] ∧ requestQueue s = [].

(** The retry counter of a parked worker stays within the attempt cap, and
    a worker gets past line 91 only when the API key is configured. *)
Definition retry_bounded (key : bool) (w : Worker) : Prop :=
  match w with
  | AtRateLimitDelay _ _ => True
  | AtAxiosPost _ retryCount =>
      key = true ∧ (0 ≤ retryCount ≤ MAX_RETRIES)%Z
  | AtRetryDelay _ retryCount _ =>
      key = true ∧ (0 ≤ retryCount < MAX_RETRIES)%Z
  end.

Definition retry_inv (s : Server) : Prop :=
  Forall (retry_bounded (GEMINI_API_KEY s)) (workers s).

(** Arrival order: what was pushed is what was shifted, followed by what is
    still queued. *)
Definition fifo_inv (s : Server) : Prop :=
  pushed s = shifted s ++ map owner (requestQueue s).

(** The job a parked worker is processing. *)
Definition worker_job (w : Worker) : Job :=
  match w with
  | AtRateLimitDelay job _ | AtAxiosPost job _ | AtRetryDelay job _ _ => job
  end.

(** The jobs whose promise is still pending: taken by a worker, or queued. *)
Definition jobs (s : Server) : list Job :=
  map worker_job (workers s) ++ requestQueue s.

(** Every pending job belongs to a distinct request whose handler is parked
    at the promise of line 182, and request numbers in use are below
    [nextRequest]. *)
Record ids_ok (js : list Job) (hs : gmap nat Handler) (n : nat) : Prop := {
  ids_nodup : NoDup (map owner js);
  ids_waiting : ∀ job, job ∈ js →
    hs !! owner job = Some (AtQueuePromise (prompt job));
  ids_fresh : ∀ id, is_Some (hs !! id) → id < n
}.

Definition ids_inv (s : Server) : Prop :=
  ids_ok (jobs s) (handlers s) (nextRequest s).

(** Upstream requests awaiting their reply. *)
Definition is_posting (w : Worker) : bool :=
  match w with
  | AtAxiosPost _ _ => true
  | _ => false
  end.

Definition in_flight (s : Server) : nat :=
  length (filter (λ w, is_posting w = true) (workers s)).

(** The documents saved for, and the responses sent to, request [id]. *)
Definition docs_of (id : nat) (c : list (nat * Ai)) : list Ai :=
  (filter (λ p, p.1 = id) c).*2.

Definition replies_of (id : nat) (rs : list (nat * HttpResponse))
  : list HttpResponse :=
  (filter (λ p, p.1 = id) rs).*2.

(** The upstream calls made for request [id]. *)
Definition event_job (e : UpstreamEvent) : Job :=
  match e with
  | CallStart job _ _ | CallEnd job _ _ _ => job
  end.

Definition calls_of (id : nat) (log : list UpstreamEvent) : list UpstreamEvent :=
  filter (λ e, owner (event_job e) = id) log.

(** Upstream calls are made for requests that have arrived. *)
Definition log_ids_inv (s : Server) : Prop :=
  ∀ e, e ∈ upstream s → owner (event_job e) < nextRequest s.

(** An upstream call that made [generateTextFromGemini] return. *)
Definition call_ok (u : UpstreamResult) : bool :=
  match attempt u with
  | Normal _ => true
  | Throw _ => false
  end.

(** Some upstream call of request [id] succeeded. *)
Definition succeeded (id : nat) (log : list UpstreamEvent) : Prop :=
  ∃ job retryCount t u,
    CallEnd job retryCount t u ∈ log ∧ owner job = id ∧ call_ok u = true.

(** The two documents of one exchange. *)
Definition exchange (u a : Ai) : Prop :=
  role u = "user" ∧ role a = "Alan-Ai" ∧ (intime u ≤ intime a)%Z.

(** What a request can have in the collection: nothing, its user message,
    or its user message followed by the reply of the model. *)
Inductive docs_shape : list Ai → Prop :=
| no_docs : docs_shape []
| user_only u : role u = "user" → docs_shape [u]
| user_then_reply u a : exchange u a → docs_shape [u; a].

(** [doc] holds [v] as its content: the cast of [v] succeeded and gave what
    the document has. *)
Definition holds (doc : Ai) (v : JsVal) : Prop :=
  castString v = Some (content doc).

(** The state of request [id] as its handler sees it, line by line. *)
Definition handler_ok (s : Server) (id : nat) : Prop :=
  let docs := docs_of id (collection s) in
  let replies := replies_of id (responses s) in
  match handlers s !! id with
  | Some (AtQueuePromise p) => docs = [] ∧ replies = []
  | Some (AtUserSave p r u) =>
      docs = [] ∧ replies = [] ∧ role u = "user" ∧
      content u = default JUndefined (castString p) ∧
      (intime u ≤ now s)%Z ∧ succeeded id (upstream s)
  | Some (AtResponseSave p r u a) =>
      docs = [u] ∧ replies = [] ∧ holds u p ∧ exchange u a ∧
      (∃ text, choice_content r = Normal text ∧
               content a = default JUndefined (castString text)) ∧
      succeeded id (upstream s)
  | None =>
      docs_shape docs ∧
      (docs ≠ [] → succeeded id (upstream s)) ∧
      (∀ r, r ∈ replies → status r = 200%Z →
         ∃ u a p text,
           docs = [u; a] ∧ r = success_reply p u text ∧
           holds u p ∧ holds a text) ∧
      (nextRequest s ≤ id → docs = [] ∧ replies = [])
  end.

Definition docs_inv (s : Server) : Prop := ∀ id, handler_ok s id.

(** Spacing of the upstream calls.  [spaced d log]: every call starts at
    least [d] after the completion of the call logged just before it. *)
Definition spaced (d : Z) (log : list UpstreamEvent) : Prop :=
  ∀ i job retryCount t u job' retryCount' t',
    log !! i = Some (CallEnd job retryCount t u) →
    log !! S i = Some (CallStart job' retryCount' t') →
    (t + d ≤ t')%Z.

(** [first_attempts_spaced log]: the first attempt of a request starts at
    least [RATE_LIMIT_DELAY] after the completion of every earlier call
    that succeeded. *)
Definition first_attempts_spaced (log : list UpstreamEvent) : Prop :=
  ∀ i j job retryCount t u job' t',
    i < j →
    log !! i = Some (CallEnd job retryCount t u) → call_ok u = true →
    log !! j = Some (CallStart job' 0 t') →
    (t + RATE_LIMIT_DELAY ≤ t')%Z.

(** [retries_backed_off log]: a retry comes right after the 429 that
    caused it, for the same job, with the next retry count, and no earlier
    than the back-off delay allows. *)
Definition retries_backed_off (log : list UpstreamEvent) : Prop :=
  ∀ j job retryCount t',
    log !! j = Some (CallStart job retryCount t') → retryCount ≠ 0%Z →
    ∃ i t u e,
      j = S i ∧
      log !! i = Some (CallEnd job (retryCount - 1) t u) ∧
      attempt u = Throw e ∧ response_status_is 429 e = true ∧
      (t + INITIAL_RETRY_DELAY * 2 ^ (retryCount - 1) ≤ t')%Z.

Record backoff_inv (s : Server) : Prop := {
  backoff_parked : ∀ job retryCount deadline,
    AtRetryDelay job retryCount deadline ∈ workers s →
    ∃ t u e,
      last (upstream s) = Some (CallEnd job retryCount t u) ∧
      attempt u = Throw e ∧ response_status_is 429 e = true ∧
      (t + INITIAL_RETRY_DELAY * 2 ^ retryCount ≤ deadline)%Z;
  backoff_log : retries_backed_off (upstream s)
}.

Record timing_inv (s : Server) : Prop := {
  log_past : ∀ job retryCount t u,
    CallEnd job retryCount t u ∈ upstream s → (t ≤ now s)%Z;
  ok_before_last : ∀ job retryCount t u,
    CallEnd job retryCount t u ∈ upstream s → call_ok u = true →
    (t ≤ lastRequestTime s)%Z;
  delay_deadline : ∀ job deadline,
    AtRateLimitDelay job deadline ∈ workers s →
    (lastRequestTime s + RATE_LIMIT_DELAY ≤ deadline)%Z;
  first_spaced : first_attempts_spaced (upstream s)
}.

(** All of the above. *)
Record wf (s : Server) : Prop := {
  wf_flag : flag_inv s;
  wf_retry : retry_inv s;
  wf_fifo : fifo_inv s;
  wf_ids : ids_inv s;
  wf_docs : docs_inv s;
  wf_timing : timing_inv s;
  wf_backoff : backoff_inv s;
  wf_log_ids : log_ids_inv s
}.

(** ** What the documents hold *)









(** ** The order in which requests are served *)

(** The requests whose first upstream call has started, in the order of
    these calls, and the request a worker holds at the wait of line 33. *)
Definition first_attempts (log : list UpstreamEvent) : list nat :=
  omap (λ e, match e with
             | CallStart job 0 _ => Some (owner job)
             | _ => None
             end) log.

Definition waiting (ws : list Worker) : list nat :=
  omap (λ w, match w with
             | AtRateLimitDelay job _ => Some (owner job)
             | _ => None
             end) ws.

(** With the API key set, what was shifted from the queue is what went on to
    the upstream API, in that order, followed by the job that waits for the
    rate limit. *)
Definition served_inv (s : Server) : Prop :=
  GEMINI_API_KEY s = true →
  shifted s = first_attempts (upstream s) ++ waiting (workers s).

(** Request numbers are pushed in increasing order. *)
Definition increasing (ids : list nat) : Prop :=
  ∀ i j a b, i < j → ids !! i = Some a → ids !! j = Some b → a < b.

Definition arrival_inv (s : Server) : Prop :=
  increasing (pushed s) ∧ Forall (λ id, id < nextRequest s) (pushed s).

(** * Concrete runs *)

(** A server started with its API key at [t0], a request, and some answers
    of the upstream API. *)
Definition t0 : Z := 1700000000000.

Definition hello : JsVal := JObj [("prompt", JStr "hello")].

Definition gemini_says (part : JsVal) : UpstreamResult :=
  HttpReply
    {| status := 200;
       data := JObj [("candidates",
                 JArr [JObj [("content", JObj [("parts", JArr [part])])]])] |}.

Definition too_many_requests : UpstreamResult :=
  HttpReply
    {| status := 429;
       data := JObj [("error", JObj [("code", JNum 429);
                                     ("status", JStr "RESOURCE_EXHAUSTED")])] |}.

Definition unavailable : UpstreamResult :=
  HttpReply {| status := 503; data := JStr "overloaded" |}.

(** The state the server is in after [events], from start-up. *)
Definition after (events : list Event) : Server :=
  default (start true t0) (run (start true t0) events).

(** Four answers 429 in a row, the retries fired as soon as they are due. *)
Definition exhausted : list Event :=
  [Request hello;
   AxiosSettles 0 too_many_requests; Tick 1000; TimerFires 0;
   AxiosSettles 0 too_many_requests; Tick 2000; TimerFires 0;
   AxiosSettles 0 too_many_requests; Tick 4000; TimerFires 0;
   AxiosSettles 0 too_many_requests].

(** A reply whose first part carries no [text]. *)
Definition image_part : JsVal :=
  JObj [("inlineData", JObj [("mimeType", JStr "image/png");
                             ("data", JStr "iVBORw0KGgo=")])].

Definition textless : list Event :=
  [Request hello; AxiosSettles 0 (gemini_says image_part);
   SaveSettles 0 SaveOk; SaveSettles 0 SaveOk].

(** A complete exchange. *)
Definition exchanged : list Event :=
  [Request hello; AxiosSettles 0 (gemini_says (JObj [("text", JStr "Hi!")]));
   Tick 12; SaveSettles 0 SaveOk; Tick 9; SaveSettles 0 SaveOk].

(** A complete exchange for a prompt that is a number. *)
Definition numeric : list Event :=
  [Request (JObj [("prompt", JNum 42)]);
   AxiosSettles 0 (gemini_says (JObj [("text", JStr "Hi!")]));
   Tick 12; SaveSettles 0 SaveOk; Tick 9; SaveSettles 0 SaveOk].

(** [step s e] leaves request [id] alone. *)
Definition untouched (id : nat) (s s' : Server) : Prop :=
  handlers s' !! id = handlers s !! id ∧
  docs_of id (collection s') = docs_of id (collection s) ∧
  replies_of id (responses s') = replies_of id (responses s) ∧
  calls_of id (upstream s') = calls_of id (upstream s).

(** One 429, and the retry fired as soon as it is due. *)
Definition retried_once : list Event :=
  [Request hello; AxiosSettles 0 too_many_requests; Tick 1000; TimerFires 0].

(** Two requests queued; the upstream call of the first one fails. *)
Definition failed_then_next : list Event :=
  [Request hello; Request hello; AxiosSettles 0 unavailable].

(** Two requests queued; the first one succeeds and the rate-limit timer of
    the second one fires as soon as it is due. *)
Definition served_then_next : list Event :=
  [Request hello; Request hello;
   AxiosSettles 0 (gemini_says (JObj [("text", JStr "Hi!")]));
   Tick 5000; TimerFires 0].

(** * Further properties: definitions *)

(** [response.data.candidates[0].content.parts[0].text] (line 143). *)
Definition reply_text (response : HttpResponse) : Completion JsVal :=
  candidates ← js_prop (data response) "candidates";
  candidate ← js_at0 candidates;
  content ← js_prop candidate "content";
  parts ← js_prop content "parts";
  part ← js_at0 parts;
  js_prop part "text".

(** Line 177. *)
Definition bad_request : HttpResponse :=
  {| status := 400; data := JObj [("error", JStr "Prompt is required")] |}.

(** The errors that can reach the [catch] block of the route handler: they
    carry no reply, or a reply that is neither 2xx nor 429. *)
Definition handler_error (e : JsError) : Prop :=
  match response e with
  | None => True
  | Some r => ¬ (200 ≤ status r < 300)%Z ∧ status r ≠ 429%Z
  end.

(** The responses to a request of POST /generate-text1: those the route
    handler sends and, when the body parser fails, that of the error
    middleware. *)
Inductive reply_kind : HttpResponse → Prop :=
| reply_bad_request : reply_kind bad_request
| reply_error e : handler_error e → reply_kind (error_reply e)
| reply_success p u text : reply_kind (success_reply p u text)
| reply_internal message : reply_kind (error_middleware message).

Definition replies_inv (s : Server) : Prop :=
  Forall (λ p, reply_kind p.2) (responses s).

(** The five shapes of a response to a request of POST /generate-text1:
    four from the route handler, and the 500 of the error middleware for a
    body the parser rejected. *)
Definition reply_shape (r : HttpResponse) : Prop :=
  r = bad_request ∨
  (∃ p u text, r = success_reply p u text) ∨
  (∃ label msg,
     (label = "Database Error" ∨ label = "Error generating response") ∧
     r = {| status := 500;
            data := JObj [("error", JStr label); ("details", JStr msg)] |}) ∨
  (∃ st body,
     ¬ (200 ≤ st < 300)%Z ∧ st ≠ 429%Z ∧
     r = {| status := st;
            data := JObj [("error", JStr "Gemini API Error");
                          ("details", body)] |}) ∨
  (∃ msg,
     r = {| status := 500;
            data := JObj [("error", JStr "Internal Server Error");
                          ("details", JStr msg)] |}).

(** No request number occurs twice among the responses. *)
Definition once_inv (s : Server) : Prop := NoDup (responses s).*1.

(** What the server answers when [GEMINI_API_KEY] is not set: the 400 for a
    missing prompt, the 500 that names the missing variable, or the 500 of
    the error middleware for a body the parser rejected. *)
Definition keyless_reply (r : HttpResponse) : Prop :=
  r = bad_request ∨
  r = {| status := 500;
         data := JObj [("error", JStr "Error generating response");
                       ("details",
                        JStr "GEMINI_API_KEY is not set in environment variables")] |} ∨
  (∃ msg,
     r = {| status := 500;
            data := JObj [("error", JStr "Internal Server Error");
                          ("details", JStr msg)] |}).

Definition rate_limited (w : Worker) : Prop :=
  match w with
  | AtRateLimitDelay _ _ => True
  | _ => False
  end.

Definition queued (h : Handler) : Prop :=
  match h with
  | AtQueuePromise _ => True
  | _ => False
  end.

Definition keyless_inv (s : Server) : Prop :=
  GEMINI_API_KEY s = false ∧ upstream s = [] ∧ collection s = [] ∧
  Forall rate_limited (workers s) ∧
  map_Forall (λ _ h, queued h) (handlers s) ∧
  Forall (λ p, keyless_reply p.2) (responses s).

(** Without a key and with a clock past the first five seconds of the epoch
    nothing is ever left pending. *)
Definition idle_inv (s : Server) : Prop :=
  GEMINI_API_KEY s = false ∧ lastRequestTime s = 0%Z ∧
  (RATE_LIMIT_DELAY ≤ now s)%Z ∧
  isProcessing s = false ∧ requestQueue s = [] ∧ workers s = [] ∧
  handlers s = ∅ ∧ length (responses s) = nextRequest s.

(** A server started without a key on which three requests arrive, one
    of them without a prompt and one with a body that is not JSON. *)
Definition keyless_events : list Event :=
  [Request hello; Tick 3; Request (JObj []);
   BodyRejected "Unexpected end of JSON input"].

Definition keyless_run : Server :=
  default (start false t0) (run (start false t0) keyless_events).

(** Every handler parked at the promise of line 182 has its job in [js]. *)
Definition pending_ok (js : list Job) (hs : gmap nat Handler) : Prop :=
  ∀ id p, hs !! id = Some (AtQueuePromise p) →
    {| prompt := p; owner := id |} ∈ js.

Definition pending_inv (s : Server) : Prop := pending_ok (jobs s) (handlers s).

(** The response to a request one of whose saves was rejected with an error
    named [error_name] (lines 228-238). *)
Definition save_error_reply (error_name error_message : string) : HttpResponse :=
  {| status := 500;
     data := JObj [("error",
                    JStr (if String.eqb error_name "MongoError"
                          then "Database Error"
                          else "Error generating response"));
                   ("details", JStr error_message)] |}.

(** An exchange whose first save has succeeded. *)
Definition half_saved : list Event :=
  [Request hello; AxiosSettles 0 (gemini_says (JObj [("text", JStr "Hi!")]));
   SaveSettles 0 SaveOk].

(** [generateTextFromGemini] returned [v] for the job of request [id] with
    prompt [p]: one of the calls made for that job was answered, and the
    [try] block turned the answer into [v]. *)
Definition returned_for (id : nat) (p v : JsVal) (log : list UpstreamEvent) : Prop :=
  ∃ retryCount t u,
    CallEnd {| prompt := p; owner := id |} retryCount t u ∈ log ∧
    attempt u = Normal v.

(** A handler that is past line 182 holds its own prompt and what was
    returned for it. *)
Definition handler_origin (log : list UpstreamEvent) (id : nat) (h : Handler) : Prop :=
  match h with
  | AtQueuePromise _ => True
  | AtUserSave p v _ | AtResponseSave p v _ _ => returned_for id p v log
  end.

Definition reply_origin (log : list UpstreamEvent) (x : nat * HttpResponse) : Prop :=
  status x.2 = 200%Z →
  ∃ p v u text,
    x.2 = success_reply p u text ∧ returned_for x.1 p v log ∧
    choice_content v = Normal text.

Definition origin_ok (log : list UpstreamEvent) (hs : gmap nat Handler)
    (rs : list (nat * HttpResponse)) : Prop :=
  map_Forall (handler_origin log) hs ∧ Forall (reply_origin log) rs.

Definition origin_inv (s : Server) : Prop :=
  origin_ok (upstream s) (handlers s) (responses s).

(** The number of calls of [axios.post] made for request [id]. *)
Definition is_start_of (id : nat) (e : UpstreamEvent) : bool :=
  match e with
  | CallStart job _ _ => bool_decide (owner job = id)
  | CallEnd _ _ _ _ => false
  end.

Definition attempts (id : nat) (log : list UpstreamEvent) : Z :=
  Z.of_nat (length (filter (λ e, is_start_of id e = true) log)).

(** The number of calls a parked worker has made for its job. *)
Definition started (w : Worker) : Z :=
  match w with
  | AtRateLimitDelay _ _ => 0
  | AtAxiosPost _ retryCount | AtRetryDelay _ retryCount _ => retryCount + 1
  end.

Definition budget_ok (log : list UpstreamEvent) (ws : list Worker)
    (queue : list Job) (n : nat) : Prop :=
  ∀ id,
    (attempts id log ≤ MAX_RETRIES + 1)%Z ∧
    (∀ w, w ∈ ws → owner (worker_job w) = id → attempts id log = started w) ∧
    (∀ job, job ∈ queue → owner job = id → attempts id log = 0%Z) ∧
    (n ≤ id → attempts id log = 0%Z).

Definition budget_inv (s : Server) : Prop :=
  budget_ok (upstream s) (workers s) (requestQueue s) (nextRequest s).

(** ** Letting the pending operations settle *)

(** What is still to be done for a request, by the [await] its handler is
    parked at, and for the job a worker holds, by the [await] the worker is
    parked at: every resumption lowers the total. *)
Definition handler_weight (h : Handler) : nat :=
  match h with
  | AtQueuePromise _ => 12
  | AtUserSave _ _ _ => 2
  | AtResponseSave _ _ _ _ => 1
  end.

Definition owed (hs : gmap nat Handler) : nat :=
  map_fold (λ _ h acc, handler_weight h + acc) 0 hs.

Definition worker_rank (w : Worker) : nat :=
  match w with
  | AtRateLimitDelay _ _ => 9
  | AtAxiosPost _ retryCount => Z.to_nat (8 - 2 * retryCount)
  | AtRetryDelay _ retryCount _ => Z.to_nat (7 - 2 * retryCount)
  end.

Definition work (s : Server) : nat :=
  owed (handlers s) +
  match workers s with
  | [] => 0
  | w :: _ => worker_rank w
  end.

Section Outcomes.
(** What the upstream API answers to the call made for a job with a given
    retry count, and what the database answers to the save of a
    document. *)
Variable answer : Job → Z → UpstreamResult.
Variable saved : nat → Ai → SaveResult.

(** [e] is no new request, and the outcome it carries is the one the
    environment has chosen. *)
Definition obeys_at (s : Server) (e : Event) : Prop :=
  match e with
  | Request _ | BodyRejected _ => False
  | Tick _ | TimerFires _ => True
  | AxiosSettles i u =>
      match workers s !! i with
      | Some (AtAxiosPost job retryCount) => u = answer job retryCount
      | _ => False
      end
  | SaveSettles id r =>
      match handlers s !! id with
      | Some (AtUserSave _ _ userMessage) => r = saved id userMessage
      | Some (AtResponseSave _ _ _ geminiResponseMessage) =>
          r = saved id geminiResponseMessage
      | _ => False
      end
  end.

Fixpoint obeys (s : Server) (events : list Event) : Prop :=
  match events with
  | [] => True
  | e :: rest =>
      obeys_at s e ∧
      match step s e with
      | Some s' => obeys s' rest
      | None => False
      end
  end.
End Outcomes.

(** A server with two requests queued, an upstream API that answers every
    call 429 and a database that accepts every save. *)
Definition two_queued : list Event := [Request hello; Request hello].

(** Every request that has arrived is being handled or has been answered. *)
Definition answered_ok (hs : gmap nat Handler) (rs : list (nat * HttpResponse))
    (n : nat) : Prop :=
  ∀ id, id < n → is_Some (hs !! id) ∨ id ∈ rs.*1.

Definition answered_inv (s : Server) : Prop :=
  answered_ok (handlers s) (responses s) (nextRequest s).

(** The timer of line 33 is due [RATE_LIMIT_DELAY] after [lastRequestTime]. *)
Definition due_inv (s : Server) : Prop :=
  ∀ job deadline,
    AtRateLimitDelay job deadline ∈ workers s →
    deadline = (lastRequestTime s + RATE_LIMIT_DELAY)%Z.

(** * The chat client

    The component that posts the prompt to /generate-text1 and shows the
    answer: [handleSubmit], cut at its [await].  What it does to the state
    of the component is given as the outcome it reaches. *)
Module Client.
Section Browser.

(** [String.prototype.trim] and [Date.prototype.toISOString]. *)
Variable trim : string → string.
Variable toISOString : Z → string.



(** The guard and the request body: nothing is sent for a prompt that is
    empty once trimmed. *)
Definition handleSubmit_body (prompt : string) : option JsVal :=
  if String.eqb (trim prompt) "" then None
  else Some (JObj [("prompt", JStr prompt)]).







End Browser.
End Client.
(** * The code on small inputs *)

Example try_extracts_text :
  generateTextFromGemini_try
    {| status := 200;
       data := JObj [("candidates",
                 JArr [JObj [("content",
                   JObj [("parts", JArr [JObj [("text", JStr "Hi!")]])])]])] |}
  = Normal (JObj [("choices",
              JArr [JObj [("message", JObj [("content", JStr "Hi!")])]])]).
Proof. reflexivity. Qed.

Example try_rejects_empty_candidates :
  generateTextFromGemini_try
    {| status := 200; data := JObj [("candidates", JArr [])] |}
  = Throw (Error "Invalid response format from Gemini API").
Proof. reflexivity. Qed.

Example try_throws_without_parts :
  generateTextFromGemini_try
    {| status := 200;
       data := JObj [("candidates",
                 JArr [JObj [("content", JObj [("role", JStr "model")])]])] |}
  = Throw (TypeError "Cannot read properties of undefined (reading '0')").
Proof. reflexivity. Qed.

Example catch_retries_429 :
  generateTextFromGemini_catch
    {| name := "AxiosError"; message := "Request failed with status code 429";
       response := Some {| status := 429; data := JNull |} |} 2
  = RetryAfter 4000.
Proof. reflexivity. Qed.

Example catch_gives_up :
  generateTextFromGemini_catch
    {| name := "AxiosError"; message := "Request failed with status code 429";
       response := Some {| status := 429; data := JNull |} |} 3
  = Rethrow rate_limit_error.
Proof. reflexivity. Qed.

Example retry_after_hint :
  error_reply
    {| name := "AxiosError"; message := "Request failed with status code 429";
       response := Some {| status := 429; data := JNull |} |}
  = {| status := 429;
       data := JObj [("error", JStr "Rate limit exceeded");
                     ("details", JStr "Please wait a moment and try again");
                     ("retryAfter", JNum 5)] |}.
Proof. reflexivity. Qed.

Example three_requests_queue :
  let s := after [Request hello; Request hello; Request hello] in
  isProcessing s = true ∧
  workers s = [AtAxiosPost {| prompt := JStr "hello"; owner := 0 |} 0] ∧
  requestQueue s = [{| prompt := JStr "hello"; owner := 1 |};
                    {| prompt := JStr "hello"; owner := 2 |}].
Proof. vm_compute. auto. Qed.

Example second_request_waits :
  workers (after [Request hello; Request hello;
                  AxiosSettles 0 (gemini_says (JObj [("text", JStr "Hi!")]))])
  = [AtRateLimitDelay {| prompt := JStr "hello"; owner := 1 |}
       (t0 + RATE_LIMIT_DELAY)].
Proof. vm_compute. reflexivity. Qed.

Example timer_not_before_deadline :
  run (start true t0)
      [Request hello; Request hello;
       AxiosSettles 0 (gemini_says (JObj [("text", JStr "Hi!")]));
       Tick 4999; TimerFires 0] = None.
Proof. vm_compute. reflexivity. Qed.

(** * Basic facts about the operations *)


Lemma generateTextFromGemini_cases job retryCount s :
  (GEMINI_API_KEY s = false ∧
   generateTextFromGemini job retryCount s = (Completed (Throw key_error), s)) ∨
  (GEMINI_API_KEY s = true ∧
   generateTextFromGemini job retryCount s =
     (Suspended (AtAxiosPost job retryCount),
      log_upstream (CallStart job retryCount (now s)) s)).
Proof. unfold generateTextFromGemini. destruct (GEMINI_API_KEY s); auto. Qed.

(** The three ways a worker leaves line 27 within its turn. *)
Lemma processQueue_from_cons job rest s :
  let s1 := shift job rest (set_isProcessing true s) in
  processQueue_from (job :: rest) s =
    if (now s - lastRequestTime s <? RATE_LIMIT_DELAY)%Z then
      park (AtRateLimitDelay job
              (now s + (RATE_LIMIT_DELAY - (now s - lastRequestTime s)))) s1
    else if GEMINI_API_KEY s then
      park (AtAxiosPost job 0) (log_upstream (CallStart job 0 (now s)) s1)
    else
      processQueue_from rest
        (set_isProcessing false (handler_rejected (owner job) key_error s1)).
Proof.
  simpl. unfold generateTextFromGemini. simpl.
  destruct (GEMINI_API_KEY s); reflexivity.
Qed.

Lemma processQueue_idle s :
  isProcessing s = false →
  (if bool_decide (0 < length (requestQueue s)) then processQueue s else s) =
  processQueue_from (requestQueue s) s.
Proof.
  intros Hidle. unfold processQueue. rewrite Hidle. simpl.
  destruct (requestQueue s) as [|job rest] eqn:Hq; reflexivity.
Qed.

Lemma processQueue_resume_completed job c s :
  processQueue_resume job (Completed c, s) =
  processQueue_from (requestQueue (settle job c s))
    (set_isProcessing false (settle job c s)).
Proof.
  unfold processQueue_resume.
  rewrite (processQueue_idle (set_isProcessing false (settle job c s))); reflexivity.
Qed.
Lemma handler_rejected_cases id error s :
  handler_rejected id error s = s ∨
  handler_rejected id error s = respond id (error_reply error) s.
Proof. unfold handler_rejected. repeat case_match; auto. Qed.

Lemma handler_resolved_cases id response s :
  handler_resolved id response s = s ∨
  ∃ prompt,
    handlers s !! id = Some (AtQueuePromise prompt) ∧
    handler_resolved id response s =
      set_handlers
        (<[id := AtUserSave prompt response (new_Ai "user" prompt (now s))]>
           (handlers s)) s.
Proof. unfold handler_resolved. repeat case_match; eauto. Qed.

(** ** Case analysis of a turn *)

(** Every turn of the event loop is one of the following: this is [step],
    read as a relation between the state before and the state after. *)
Lemma step_cases (P : Server → Server → Prop) :
  (∀ s d, (0 ≤ d)%Z → P s (set_now (now s + d) s)) →
  (∀ s body prompt,
     js_prop body "prompt" = Normal prompt → truthy prompt = false →
     P s (respond (nextRequest s)
            {| status := 400; data := JObj [("error", JStr "Prompt is required")] |}
            (set_nextRequest (S (nextRequest s)) s))) →
  (∀ s message,
     P s (respond (nextRequest s) (error_middleware message)
            (set_nextRequest (S (nextRequest s)) s))) →
  (∀ s body prompt,
     js_prop body "prompt" = Normal prompt → truthy prompt = true →
     P s (processQueue
            (push {| prompt := prompt; owner := nextRequest s |}
               (set_handlers (<[nextRequest s := AtQueuePromise prompt]> (handlers s))
                  (set_nextRequest (S (nextRequest s)) s))))) →
  (∀ s i job deadline,
     workers s !! i = Some (AtRateLimitDelay job deadline) →
     (deadline ≤ now s)%Z →
     P s (processQueue_resume job (generateTextFromGemini job 0 (unpark i s)))) →
  (∀ s i job retryCount deadline,
     workers s !! i = Some (AtRetryDelay job retryCount deadline) →
     (deadline ≤ now s)%Z →
     P s (processQueue_resume job
            (generateTextFromGemini job (retryCount + 1) (unpark i s)))) →
  (∀ s i job retryCount u,
     workers s !! i = Some (AtAxiosPost job retryCount) →
     let s1 := log_upstream (CallEnd job retryCount (now s) u) (unpark i s) in
     P s (processQueue_resume job
            (generateTextFromGemini_resume job retryCount u s1, s1))) →
  (∀ s id r s', handler_saved id r s = Some s' → P s s') →
  ∀ s e s', step s e = Some s' → P s s'.
Proof.
  intros Htick Hbad Hparser Hreq Hrate Hretry Haxios Hsave s e s' Hstep.
  destruct e as [d|body|message|i|i u|id r]; unfold step in Hstep.
  - case_bool_decide; [|discriminate]. injection Hstep as <-. auto.
  - unfold post_generate_text1 in Hstep.
    destruct (js_prop body "prompt") as [prompt|] eqn:Hbody; [|discriminate].
    destruct (truthy prompt) eqn:Ht; simpl in Hstep; injection Hstep as <-; eauto.
  - injection Hstep as <-. auto.
  - destruct (workers s !! i) as [[job deadline|job rc|job rc deadline]|] eqn:Hi;
      try discriminate;
      (case_bool_decide; [|discriminate]); injection Hstep as <-; eauto.
  - destruct (workers s !! i) as [[job deadline|job rc|job rc deadline]|] eqn:Hi;
      try discriminate.
    injection Hstep as <-. eauto.
  - eauto.
Qed.

(** ** How [generateTextFromGemini] leaves its [catch] block *)

Lemma generateTextFromGemini_resume_cases job retryCount u s :
  (∃ v, attempt u = Normal v ∧
        generateTextFromGemini_resume job retryCount u s = Completed (Normal v)) ∨
  (∃ e, attempt u = Throw e ∧ response_status_is 429 e = true ∧
        (retryCount < MAX_RETRIES)%Z ∧
        generateTextFromGemini_resume job retryCount u s =
          Suspended (AtRetryDelay job retryCount
                       (now s + INITIAL_RETRY_DELAY * 2 ^ retryCount))) ∨
  (∃ e, attempt u = Throw e ∧ response_status_is 429 e = true ∧
        (MAX_RETRIES ≤ retryCount)%Z ∧
        generateTextFromGemini_resume job retryCount u s =
          Completed (Throw rate_limit_error)) ∨
  (∃ e, attempt u = Throw e ∧ response_status_is 429 e = false ∧
        generateTextFromGemini_resume job retryCount u s = Completed (Throw e)).
Proof.
  unfold generateTextFromGemini_resume, generateTextFromGemini_catch.
  destruct (attempt u) as [v|e]; [eauto|].
  destruct (response_status_is 429 e) eqn:H429; simpl; [|eauto 10].
  destruct (Z.ltb_spec retryCount MAX_RETRIES); eauto 10.
Qed.

(** ** The worker flag *)

Lemma processQueue_from_flag queue s :
  workers s = [] → isProcessing s = false → requestQueue s = queue →
  flag_inv (processQueue_from queue s).
Proof.
  revert s. induction queue as [|job rest IH]; intros s Hw Hp Hq.
  - simpl. unfold flag_inv. rewrite Hp. auto.
  - rewrite processQueue_from_cons. simpl.
    repeat case_match.
    + unfold flag_inv; simpl. rewrite Hw. eauto.
    + unfold flag_inv; simpl. rewrite Hw. eauto.
    + apply IH; destruct (handler_rejected_cases (owner job) key_error
        (shift job rest (set_isProcessing true s))) as [-> | ->]; simpl; auto.
Qed.

Lemma processQueue_flag s :
  (if isProcessing s then ∃ w, workers s = [w] else workers s = []) →
  flag_inv (processQueue s).
Proof.
  intros H. unfold processQueue. destruct (isProcessing s) eqn:Hp; simpl.
  - unfold flag_inv. rewrite Hp. exact H.
  - case_bool_decide as Hlen.
    + unfold flag_inv. rewrite Hp. split; [exact H|].
      destruct (requestQueue s); [reflexivity | discriminate].
    + apply processQueue_from_flag; auto.
Qed.

Lemma settle_workers job c s :
  workers (settle job c s) = workers s ∧
  requestQueue (settle job c s) = requestQueue s.
Proof.
  destruct c as [response|error]; simpl.
  - destruct (handler_resolved_cases (owner job) response
                (set_lastRequestTime (now s) s)) as [-> | (p & _ & ->)]; auto.
  - destruct (handler_rejected_cases (owner job) error s) as [-> | ->]; auto.
Qed.

(** Line 36 on: what [processQueue_from] does after [generateTextFromGemini]
    is what a resumed worker does. *)
Lemma processQueue_from_line36 job rest s :
  (RATE_LIMIT_DELAY ≤ now s - lastRequestTime s)%Z →
  processQueue_from (job :: rest) s =
  processQueue_resume job
    (generateTextFromGemini job 0 (shift job rest (set_isProcessing true s))).
Proof.
  intros Hready. rewrite processQueue_from_cons. cbv zeta.
  rewrite (proj2 (Z.ltb_ge _ _) Hready).
  destruct (generateTextFromGemini_cases job 0
              (shift job rest (set_isProcessing true s)))
    as [[Hkey ->] | [Hkey ->]]; simpl in Hkey; rewrite Hkey; [|reflexivity].
  rewrite processQueue_resume_completed.
  by rewrite (proj2 (settle_workers job (Throw key_error) _)).
Qed.

Lemma processQueue_resume_flag job p s :
  workers s = [] → isProcessing s = true →
  flag_inv (processQueue_resume job (p, s)).
Proof.
  intros Hw Hp. destruct p as [w|c].
  - unfold flag_inv; simpl. rewrite Hp, Hw. eauto.
  - rewrite processQueue_resume_completed.
    destruct (settle_workers job c s) as [Hw' Hq'].
    apply processQueue_from_flag; simpl; congruence.
Qed.

Lemma flag_inv_worker s i w :
  flag_inv s → workers s !! i = Some w →
  isProcessing s = true ∧ workers s = [w] ∧ i = 0.
Proof.
  unfold flag_inv. intros H Hi. destruct (isProcessing s).
  - destruct H as [w' Hw]. rewrite Hw in Hi |- *.
    destruct i as [|i]; simpl in Hi; [|destruct i; discriminate].
    injection Hi as ->. auto.
  - destruct H as [Hw _]. rewrite Hw in Hi. discriminate.
Qed.

Lemma handler_saved_frame id r s s' :
  handler_saved id r s = Some s' →
  GEMINI_API_KEY s' = GEMINI_API_KEY s ∧ now s' = now s ∧
  lastRequestTime s' = lastRequestTime s ∧ isProcessing s' = isProcessing s ∧
  requestQueue s' = requestQueue s ∧ workers s' = workers s ∧
  nextRequest s' = nextRequest s ∧ upstream s' = upstream s ∧
  pushed s' = pushed s ∧ shifted s' = shifted s.
Proof.
  unfold handler_saved. intros H.
  repeat case_match; try discriminate; injection H as <-; simpl; tauto.
Qed.

Ltac split_gemini :=
  match goal with
  | |- context [generateTextFromGemini ?j ?n ?t] =>
      let Hkey := fresh "Hkey" in
      destruct (generateTextFromGemini_cases j n t) as [[Hkey ->] | [Hkey ->]]
  end.

Lemma flag_inv_step s e s' : flag_inv s → step s e = Some s' → flag_inv s'.
Proof.
  intros Hinv Hstep. revert Hinv. pattern s, s'.
  eapply step_cases; [..|exact Hstep]; clear; intros.
  - exact Hinv.
  - exact Hinv.
  - exact Hinv.
  - apply processQueue_flag. simpl. unfold flag_inv in Hinv.
    destruct (isProcessing s); tauto.
  - destruct (flag_inv_worker _ _ _ Hinv H) as (Hp & Hw & ->).
    split_gemini; apply processQueue_resume_flag; simpl; rewrite ?Hw; auto.
  - destruct (flag_inv_worker _ _ _ Hinv H) as (Hp & Hw & ->).
    split_gemini; apply processQueue_resume_flag; simpl; rewrite ?Hw; auto.
  - destruct (flag_inv_worker _ _ _ Hinv H) as (Hp & Hw & ->).
    apply processQueue_resume_flag; subst s1; simpl; rewrite ?Hw; auto.
  - destruct (handler_saved_frame _ _ _ _ H) as (_&_&_&Hp&Hq&Hw&_).
    unfold flag_inv in *. rewrite Hp, Hq, Hw. exact Hinv.
Qed.
(** ** The retry counter *)

Lemma processQueue_from_key queue s :
  GEMINI_API_KEY (processQueue_from queue s) = GEMINI_API_KEY s.
Proof.
  revert s. induction queue as [|job rest IH]; intros s; [done|].
  rewrite processQueue_from_cons. simpl. repeat case_match; try done.
  rewrite IH.
  by destruct (handler_rejected_cases (owner job) key_error
                 (shift job rest (set_isProcessing true s))) as [-> | ->].
Qed.

Lemma processQueue_from_retry queue s :
  retry_inv s → retry_inv (processQueue_from queue s).
Proof.
  unfold retry_inv. rewrite processQueue_from_key.
  revert s. induction queue as [|job rest IH]; intros s Hinv; [exact Hinv|].
  rewrite processQueue_from_cons. simpl.
  destruct (GEMINI_API_KEY s) eqn:Hkey; repeat case_match.
  - simpl. apply Forall_app. split; [exact Hinv|]. repeat constructor.
  - simpl. apply Forall_app. split; [exact Hinv|].
    repeat constructor; unfold MAX_RETRIES; simpl; lia.
  - simpl. apply Forall_app. split; [exact Hinv|]. repeat constructor.
  - specialize (IH (set_isProcessing false
                      (handler_rejected (owner job) key_error
                         (shift job rest (set_isProcessing true s))))).
    destruct (handler_rejected_cases (owner job) key_error
                (shift job rest (set_isProcessing true s))) as [Heq | Heq];
      rewrite Heq in IH |- *; simpl in IH; rewrite Hkey in IH; by apply IH.
Qed.

Lemma processQueue_retry s : retry_inv s → retry_inv (processQueue s).
Proof.
  intros H. unfold processQueue. case_match; [exact H|].
  by apply processQueue_from_retry.
Qed.

Lemma settle_key job c s :
  GEMINI_API_KEY (settle job c s) = GEMINI_API_KEY s.
Proof.
  destruct c as [response|error]; simpl.
  - by destruct (handler_resolved_cases (owner job) response
                   (set_lastRequestTime (now s) s)) as [-> | (p & _ & ->)].
  - by destruct (handler_rejected_cases (owner job) error s) as [-> | ->].
Qed.

Lemma processQueue_resume_retry job p s :
  retry_inv s →
  match p with
  | Suspended w => retry_bounded (GEMINI_API_KEY s) w
  | Completed _ => True
  end →
  retry_inv (processQueue_resume job (p, s)).
Proof.
  intros Hinv Hp. destruct p as [w|c].
  - unfold retry_inv in *. simpl. apply Forall_app. split; [exact Hinv|].
    by constructor.
  - rewrite processQueue_resume_completed. apply processQueue_from_retry.
    unfold retry_inv in *. simpl.
    by rewrite settle_key, (proj1 (settle_workers job c s)).
Qed.

Lemma retry_inv_unpark i s : retry_inv s → retry_inv (unpark i s).
Proof. unfold retry_inv. simpl. apply Forall_delete. Qed.

Lemma retry_inv_log e s : retry_inv s → retry_inv (log_upstream e s).
Proof. exact id. Qed.

Lemma retry_inv_lookup s i w :
  retry_inv s → workers s !! i = Some w →
  retry_bounded (GEMINI_API_KEY s) w.
Proof. unfold retry_inv. intros H Hi. by eapply Forall_lookup_1 in H. Qed.

Lemma retry_inv_step s e s' : retry_inv s → step s e = Some s' → retry_inv s'.
Proof.
  intros Hinv Hstep. revert Hinv. pattern s, s'.
  eapply step_cases; [..|exact Hstep]; clear; intros.
  - exact Hinv.
  - exact Hinv.
  - exact Hinv.
  - apply processQueue_retry. exact Hinv.
  - split_gemini; apply processQueue_resume_retry;
      auto using retry_inv_unpark, retry_inv_log;
      simpl; unfold MAX_RETRIES; split; [done|lia].
  - pose proof (retry_inv_lookup _ _ _ Hinv H) as Hb. simpl in Hb.
    split_gemini; apply processQueue_resume_retry;
      auto using retry_inv_unpark, retry_inv_log;
      simpl; unfold MAX_RETRIES in *; split; [done|lia].
  - pose proof (retry_inv_lookup _ _ _ Hinv H) as Hb. simpl in Hb.
    apply processQueue_resume_retry;
      [by apply retry_inv_log, retry_inv_unpark|].
    destruct (generateTextFromGemini_resume_cases job retryCount u s1)
      as [(v & _ & ->) | [(e & _ & _ & Hlt & ->) | [(e & _ & _ & _ & ->)
         | (e & _ & _ & ->)]]]; simpl; auto.
    split; [tauto|lia].
  - destruct (handler_saved_frame _ _ _ _ H) as (Hk&_&_&_&_&Hw&_).
    unfold retry_inv in *. by rewrite Hk, Hw.
Qed.

(** ** Arrival order *)

Lemma processQueue_from_fifo queue s :
  requestQueue s = queue → fifo_inv s → fifo_inv (processQueue_from queue s).
Proof.
  revert s. induction queue as [|job rest IH]; intros s Hq Hinv; [exact Hinv|].
  assert (pushed s = (shifted s ++ [owner job]) ++ map owner rest) as Hshift.
  { unfold fifo_inv in Hinv. rewrite Hinv, Hq. simpl. by rewrite <- app_assoc. }
  rewrite processQueue_from_cons. simpl. unfold fifo_inv.
  repeat case_match; try exact Hshift.
  apply IH;
    destruct (handler_rejected_cases (owner job) key_error
                (shift job rest (set_isProcessing true s))) as [-> | ->];
    try reflexivity; exact Hshift.
Qed.

Lemma processQueue_fifo s : fifo_inv s → fifo_inv (processQueue s).
Proof.
  intros H. unfold processQueue. case_match; [exact H|].
  by apply processQueue_from_fifo.
Qed.

Lemma settle_fifo job c s :
  pushed (settle job c s) = pushed s ∧ shifted (settle job c s) = shifted s.
Proof.
  destruct c as [response|error]; simpl.
  - destruct (handler_resolved_cases (owner job) response
                (set_lastRequestTime (now s) s)) as [-> | (p & _ & ->)]; auto.
  - destruct (handler_rejected_cases (owner job) error s) as [-> | ->]; auto.
Qed.

Lemma processQueue_resume_fifo job p s :
  fifo_inv s → fifo_inv (processQueue_resume job (p, s)).
Proof.
  intros Hinv. destruct p as [w|c]; [exact Hinv|].
  rewrite processQueue_resume_completed.
  apply processQueue_from_fifo; [reflexivity|].
  unfold fifo_inv in *. simpl.
  destruct (settle_fifo job c s) as [-> ->].
  by rewrite (proj2 (settle_workers job c s)).
Qed.

Lemma fifo_inv_step s e s' : fifo_inv s → step s e = Some s' → fifo_inv s'.
Proof.
  intros Hinv Hstep. revert Hinv. pattern s, s'.
  eapply step_cases; [..|exact Hstep]; clear; intros.
  - exact Hinv.
  - exact Hinv.
  - exact Hinv.
  - apply processQueue_fifo. unfold fifo_inv in *. simpl.
    rewrite Hinv, map_app. by rewrite app_assoc.
  - split_gemini; apply processQueue_resume_fifo; exact Hinv.
  - split_gemini; apply processQueue_resume_fifo; exact Hinv.
  - apply processQueue_resume_fifo. exact Hinv.
  - destruct (handler_saved_frame _ _ _ _ H) as (_&_&_&_&Hq&_&_&_&Hpu&Hsh).
    unfold fifo_inv in *. by rewrite Hq, Hpu, Hsh.
Qed.
(** ** Pending jobs and their handlers *)

Lemma ids_ok_perm js js' hs n : js ≡ₚ js' → ids_ok js hs n → ids_ok js' hs n.
Proof.
  intros Hperm [Hnd Hw Hf]. split; [| |exact Hf].
  - by rewrite <- Hperm.
  - intros job Hin. apply Hw. by rewrite Hperm.
Qed.

Lemma ids_ok_owner_ne job js hs n job' :
  ids_ok (job :: js) hs n → job' ∈ js → owner job' ≠ owner job.
Proof.
  intros [Hnd _ _] Hin Heq. simpl in Hnd. apply NoDup_cons in Hnd as [Hnot _].
  apply Hnot. rewrite <- Heq. by apply list_elem_of_fmap_2.
Qed.

Lemma ids_ok_remove job js hs n :
  ids_ok (job :: js) hs n → ids_ok js (delete (owner job) hs) n.
Proof.
  intros Hok. pose proof Hok as [Hnd Hw Hf]. split.
  - simpl in Hnd. by apply NoDup_cons in Hnd as [_ ?].
  - intros job' Hin. rewrite lookup_delete_ne.
    + apply Hw. by right.
    + intros Heq. by eapply ids_ok_owner_ne.
  - intros id [h Hh]. apply Hf. apply lookup_delete_Some in Hh as [_ Hh]. eauto.
Qed.

Lemma ids_ok_update job js hs n h :
  ids_ok (job :: js) hs n → ids_ok js (<[owner job := h]> hs) n.
Proof.
  intros Hok. pose proof Hok as [Hnd Hw Hf]. split.
  - simpl in Hnd. by apply NoDup_cons in Hnd as [_ ?].
  - intros job' Hin. rewrite lookup_insert_ne.
    + apply Hw. by right.
    + intros Heq. by eapply ids_ok_owner_ne.
  - intros id [h' Hh]. apply Hf.
    destruct (decide (owner job = id)) as [<-|Hne].
    + rewrite (Hw job); [eauto | by left].
    + rewrite lookup_insert_ne in Hh by done. eauto.
Qed.

Lemma ids_ok_owner_lt job js hs n : ids_ok js hs n → job ∈ js → owner job < n.
Proof. intros [_ Hw Hf] Hin. apply Hf. rewrite (Hw job Hin). eauto. Qed.

Lemma ids_ok_add js hs n p :
  ids_ok js hs n →
  ids_ok (js ++ [{| prompt := p; owner := n |}]) (<[n := AtQueuePromise p]> hs) (S n).
Proof.
  intros Hok. pose proof Hok as [Hnd Hw Hf]. split.
  - rewrite map_app. simpl. apply NoDup_app. split; [exact Hnd|]. split.
    + intros id Hin Hn. apply list_elem_of_singleton in Hn as ->.
      apply list_elem_of_fmap in Hin as (job & -> & Hin).
      pose proof (ids_ok_owner_lt _ _ _ _ Hok Hin). lia.
    + apply NoDup_singleton.
  - intros job Hin. apply elem_of_app in Hin as [Hin|Hin].
    + pose proof (ids_ok_owner_lt _ _ _ _ Hok Hin).
      rewrite lookup_insert_ne by lia. by apply Hw.
    + apply list_elem_of_singleton in Hin as ->. simpl. by rewrite lookup_insert_eq.
  - intros id [h Hh]. destruct (decide (n = id)) as [<-|Hne]; [lia|].
    rewrite lookup_insert_ne in Hh by done.
    assert (id < n) by (apply Hf; eauto). lia.
Qed.

(** A handler that is past the promise belongs to no pending job. *)
Lemma ids_ok_skip_delete js hs n id :
  ids_ok js hs n → (∀ p, hs !! id ≠ Some (AtQueuePromise p)) →
  ids_ok js (delete id hs) n.
Proof.
  intros [Hnd Hw Hf] Hid. split; [exact Hnd| |].
  - intros job Hin. rewrite lookup_delete_ne; [by apply Hw|].
    intros ->. by eapply Hid, Hw.
  - intros id' [h Hh]. apply Hf. apply lookup_delete_Some in Hh as [_ Hh]. eauto.
Qed.

Lemma ids_ok_skip_insert js hs n id h :
  ids_ok js hs n → is_Some (hs !! id) →
  (∀ p, hs !! id ≠ Some (AtQueuePromise p)) →
  ids_ok js (<[id := h]> hs) n.
Proof.
  intros [Hnd Hw Hf] Hsome Hid. split; [exact Hnd| |].
  - intros job Hin. rewrite lookup_insert_ne; [by apply Hw|].
    intros ->. by eapply Hid, Hw.
  - intros id' [h' Hh]. destruct (decide (id = id')) as [<-|Hne]; [by apply Hf|].
    rewrite lookup_insert_ne in Hh by done. eauto.
Qed.

Lemma ids_ok_succ js hs n : ids_ok js hs n → ids_ok js hs (S n).
Proof. intros [Hnd Hw Hf]. split; auto. intros id Hid. specialize (Hf id Hid). lia. Qed.

Lemma handler_rejected_waiting id p error s :
  handlers s !! id = Some (AtQueuePromise p) →
  handler_rejected id error s = respond id (error_reply error) s.
Proof. unfold handler_rejected. by intros ->. Qed.

Lemma handler_resolved_waiting id p response s :
  handlers s !! id = Some (AtQueuePromise p) →
  handler_resolved id response s =
    set_handlers
      (<[id := AtUserSave p response (new_Ai "user" p (now s))]>
         (handlers s)) s.
Proof. unfold handler_resolved. by intros ->. Qed.

Lemma jobs_split s job rest :
  requestQueue s = job :: rest →
  jobs s ≡ₚ job :: (map worker_job (workers s) ++ rest).
Proof. unfold jobs. intros ->. by rewrite Permutation_middle. Qed.

Lemma jobs_park w s : jobs (park w s) ≡ₚ worker_job w :: jobs s.
Proof.
  unfold jobs. simpl. rewrite map_app. simpl.
  rewrite <- app_assoc. simpl. by rewrite Permutation_middle.
Qed.

Lemma jobs_unpark i w s :
  workers s !! i = Some w → jobs s ≡ₚ worker_job w :: jobs (unpark i s).
Proof.
  intros Hi. unfold jobs. simpl.
  rewrite (delete_Permutation _ _ _ Hi) at 1. reflexivity.
Qed.

Lemma settle_ids job c s :
  ids_ok (job :: jobs s) (handlers s) (nextRequest s) → ids_inv (settle job c s).
Proof.
  intros Hok.
  assert (handlers s !! owner job = Some (AtQueuePromise (prompt job))) as Hh
    by (apply (ids_waiting _ _ _ Hok); by left).
  destruct c as [response|error]; simpl.
  - rewrite (handler_resolved_waiting _ (prompt job)) by exact Hh.
    by apply ids_ok_update.
  - rewrite (handler_rejected_waiting _ (prompt job)) by exact Hh.
    by apply ids_ok_remove.
Qed.

Lemma processQueue_from_ids queue s :
  requestQueue s = queue → ids_inv s → ids_inv (processQueue_from queue s).
Proof.
  revert s. induction queue as [|job rest IH]; intros s Hq Hinv; [exact Hinv|].
  pose proof (ids_ok_perm _ _ _ _ (jobs_split _ _ _ Hq) Hinv) as Hok.
  rewrite processQueue_from_cons. simpl.
  set (s1 := shift job rest (set_isProcessing true s)).
  assert (∀ w s2, worker_job w = job → jobs s2 = jobs s1 →
            handlers s2 = handlers s1 → nextRequest s2 = nextRequest s1 →
            ids_inv (park w s2)) as Hpark.
  { intros w s2 Hw Hj Hh Hn. unfold ids_inv.
    eapply ids_ok_perm; [symmetry; apply jobs_park|].
    rewrite Hw, Hj. simpl. rewrite Hh, Hn. exact Hok. }
  repeat case_match; try by apply Hpark.
  apply IH; [by destruct (handler_rejected_cases (owner job) key_error s1)
                   as [-> | ->]|].
  apply (settle_ids job (Throw key_error) s1). exact Hok.
Qed.

Lemma processQueue_ids s : ids_inv s → ids_inv (processQueue s).
Proof.
  intros H. unfold processQueue. case_match; [exact H|].
  by apply processQueue_from_ids.
Qed.

Lemma processQueue_resume_ids job p s :
  ids_ok (job :: jobs s) (handlers s) (nextRequest s) →
  match p with Suspended w => worker_job w = job | Completed _ => True end →
  ids_inv (processQueue_resume job (p, s)).
Proof.
  intros Hok Hp. destruct p as [w|c].
  - unfold ids_inv. simpl. eapply ids_ok_perm; [symmetry; apply jobs_park|].
    by rewrite Hp.
  - rewrite processQueue_resume_completed.
    apply processQueue_from_ids; [reflexivity|].
    by apply (settle_ids job c s).
Qed.

Lemma ids_inv_resumed i w s :
  ids_inv s → workers s !! i = Some w →
  ids_ok (worker_job w :: jobs (unpark i s)) (handlers s) (nextRequest s).
Proof. intros Hinv Hi. eapply ids_ok_perm; [by apply jobs_unpark|exact Hinv]. Qed.

Lemma ids_inv_step s e s' : ids_inv s → step s e = Some s' → ids_inv s'.
Proof.
  intros Hinv Hstep. revert Hinv. pattern s, s'.
  eapply step_cases; [..|exact Hstep]; clear; intros.
  - exact Hinv.
  - unfold ids_inv. simpl. apply ids_ok_succ, ids_ok_skip_delete; [exact Hinv|].
    intros p Hp. pose proof (ids_fresh _ _ _ Hinv (nextRequest s)) as Hlt.
    rewrite Hp in Hlt. specialize (Hlt ltac:(eauto)). lia.
  - unfold ids_inv. simpl. apply ids_ok_succ, ids_ok_skip_delete; [exact Hinv|].
    intros p Hp. pose proof (ids_fresh _ _ _ Hinv (nextRequest s)) as Hlt.
    rewrite Hp in Hlt. specialize (Hlt ltac:(eauto)). lia.
  - apply processQueue_ids. unfold ids_inv, jobs. simpl.
    rewrite app_assoc. by apply ids_ok_add.
  - pose proof (ids_inv_resumed _ _ _ Hinv H) as Hok.
    split_gemini; by apply processQueue_resume_ids.
  - pose proof (ids_inv_resumed _ _ _ Hinv H) as Hok.
    split_gemini; by apply processQueue_resume_ids.
  - pose proof (ids_inv_resumed _ _ _ Hinv H) as Hok.
    apply processQueue_resume_ids; [exact Hok|].
    destruct (generateTextFromGemini_resume_cases job retryCount u s1)
      as [(v & _ & ->) | [(e & _ & _ & Hlt & ->) | [(e & _ & _ & _ & ->)
         | (e & _ & _ & ->)]]]; done.
  - unfold handler_saved in H. unfold ids_inv.
    repeat case_match; try discriminate; injection H as <-; simpl;
      first [ apply ids_ok_skip_insert | apply ids_ok_skip_delete ];
      first [ exact Hinv | by eauto | congruence ].
Qed.
(** ** Documents and responses of a request *)

Lemma docs_of_snoc id id' d c :
  docs_of id (c ++ [(id', d)]) =
  if decide (id' = id) then docs_of id c ++ [d] else docs_of id c.
Proof.
  unfold docs_of. rewrite filter_app, fmap_app.
  rewrite filter_cons, filter_nil. simpl.
  destruct (decide (id' = id)); simpl; [done|]. by rewrite app_nil_r.
Qed.

Lemma replies_of_snoc id id' r rs :
  replies_of id (rs ++ [(id', r)]) =
  if decide (id' = id) then replies_of id rs ++ [r] else replies_of id rs.
Proof.
  unfold replies_of. rewrite filter_app, fmap_app.
  rewrite filter_cons, filter_nil. simpl.
  destruct (decide (id' = id)); simpl; [done|]. by rewrite app_nil_r.
Qed.

Lemma succeeded_mono id log log' :
  (∀ x, x ∈ log → x ∈ log') → succeeded id log → succeeded id log'.
Proof. intros Hsub (job & rc & t & u & Hin & Hid & Hok). red. eauto 10. Qed.

(** [handler_ok] only looks at the request's own handler, documents and
    responses; time, the log and the request counter may grow. *)
Lemma handler_ok_frame s s' id :
  handlers s' !! id = handlers s !! id →
  docs_of id (collection s') = docs_of id (collection s) →
  replies_of id (responses s') = replies_of id (responses s) →
  (now s ≤ now s')%Z →
  (∀ x, x ∈ upstream s → x ∈ upstream s') →
  nextRequest s ≤ nextRequest s' →
  handler_ok s id → handler_ok s' id.
Proof.
  unfold handler_ok. intros -> -> -> Hnow Hlog Hnext.
  pose proof (succeeded_mono id _ _ Hlog) as Hmono.
  destruct (handlers s !! id) as [[p|p r u|p r u a]|]; [tauto| | |].
  - intros (?&?&?&?&?&?). repeat split; auto; lia.
  - tauto.
  - intros (?&?&?&Hfresh). repeat split; auto; apply Hfresh; lia.
Qed.

Lemma error_reply_plain error :
  response error = None → status (error_reply error) = 500%Z.
Proof. unfold error_reply. intros ->. by case_match. Qed.

Lemma js_prop_throw v k e : js_prop v k = Throw e → response e = None.
Proof. destruct v; simpl; intros H; by inversion H. Qed.

Lemma js_at0_throw v e : js_at0 v = Throw e → response e = None.
Proof. destruct v as [| | | |[]| | |]; simpl; intros H; by inversion H. Qed.

Lemma bind_throw {A B} (c : Completion A) (k : A → Completion B) e :
  c ≫= k = Throw e → c = Throw e ∨ ∃ a, c = Normal a ∧ k a = Throw e.
Proof.
  destruct c as [a|e']; unfold mbind, completion_bind; intros H.
  - right. exists a. split; [reflexivity | exact H].
  - left. by injection H as ->.
Qed.

Lemma choice_content_throw r e : choice_content r = Throw e → response e = None.
Proof.
  unfold choice_content. intros H.
  repeat (apply bind_throw in H as [H | (? & _ & H)];
          [solve [eauto using js_prop_throw, js_at0_throw]|]).
  eauto using js_prop_throw.
Qed.

Lemma generateTextFromGemini_try_throw r e :
  generateTextFromGemini_try r = Throw e → response e = None.
Proof.
  unfold generateTextFromGemini_try. intros H.
  repeat first
    [ apply bind_throw in H as [H | (? & _ & H)];
      [solve [eauto using js_prop_throw, js_at0_throw]|]
    | match type of H with
      | (if ?b then _ else _) = _ => destruct b; [by inversion H|]
      end ].
  discriminate.
Qed.

(** An error that leaves the [try] block carries no reply, or a reply whose
    status is not 2xx. *)
Lemma attempt_throw u e :
  attempt u = Throw e →
  match response e with
  | Some r => ¬ (200 ≤ status r < 300)%Z
  | None => True
  end.
Proof.
  unfold attempt. intros H. apply bind_throw in H as [H | (r & _ & H)].
  - destruct u as [r|msg]; simpl in H.
    + case_bool_decide; [discriminate|]. by inversion H.
    + by inversion H.
  - by rewrite (generateTextFromGemini_try_throw _ _ H).
Qed.

Lemma error_reply_not_ok error :
  match response error with
  | Some r => ¬ (200 ≤ status r < 300)%Z
  | None => True
  end →
  status (error_reply error) ≠ 200%Z.
Proof.
  unfold error_reply. destruct (response error) as [r|].
  - destruct (Z.eqb_spec (status r) 429); simpl; lia.
  - by case_match.
Qed.

Lemma generateTextFromGemini_resume_throw job retryCount u s e :
  generateTextFromGemini_resume job retryCount u s = Completed (Throw e) →
  status (error_reply e) ≠ 200%Z.
Proof.
  intros H.
  destruct (generateTextFromGemini_resume_cases job retryCount u s)
    as [(v & _ & Hr) | [(e' & _ & _ & _ & Hr) | [(e' & _ & _ & _ & Hr)
       | (e' & Ha & _ & Hr)]]]; rewrite Hr in H; inversion H; subst.
  - done.
  - apply error_reply_not_ok. by apply attempt_throw in Ha.
Qed.

(** A turn that touches the handler, documents and responses of one
    request only. *)
Lemma docs_inv_change s s' id0 :
  docs_inv s →
  (∀ id, id ≠ id0 →
     handlers s' !! id = handlers s !! id ∧
     docs_of id (collection s') = docs_of id (collection s) ∧
     replies_of id (responses s') = replies_of id (responses s)) →
  (now s ≤ now s')%Z →
  (∀ x, x ∈ upstream s → x ∈ upstream s') →
  nextRequest s ≤ nextRequest s' →
  handler_ok s' id0 → docs_inv s'.
Proof.
  intros Hinv Hother Hnow Hlog Hnext Hid0 id.
  destruct (decide (id = id0)) as [->|Hne]; [exact Hid0|].
  destruct (Hother id Hne) as (Hh & Hd & Hr).
  by apply (handler_ok_frame s).
Qed.

Ltac other_ids :=
  let id := fresh "id" in
  let Hne := fresh "Hne" in
  intros id Hne; simpl;
  rewrite ?docs_of_snoc, ?replies_of_snoc;
  repeat case_decide; try congruence;
  rewrite ?lookup_insert_ne, ?lookup_delete_ne by congruence;
  auto.

Lemma docs_inv_frame s s' :
  docs_inv s →
  handlers s' = handlers s → collection s' = collection s →
  responses s' = responses s →
  (now s ≤ now s')%Z →
  (∀ x, x ∈ upstream s → x ∈ upstream s') →
  nextRequest s ≤ nextRequest s' →
  docs_inv s'.
Proof.
  intros Hinv Hh Hc Hr Hnow Hlog Hnext id.
  apply (handler_ok_frame s); auto; congruence.
Qed.

(** The handler of a pending request answers with an error. *)
Lemma docs_inv_respond_error s id0 r :
  docs_inv s → is_Some (handlers s !! id0) → id0 < nextRequest s →
  status r ≠ 200%Z →
  docs_inv (respond id0 r s).
Proof.
  intros Hinv [h Hh] Hlt Hr.
  apply (docs_inv_change s _ id0); [exact Hinv|other_ids|simpl; lia|auto|auto|].
  pose proof (Hinv id0) as Hok. unfold handler_ok in *. rewrite Hh in Hok.
  simpl. rewrite lookup_delete_eq, replies_of_snoc.
  rewrite decide_True by done.
  assert (docs_shape (docs_of id0 (collection s)) ∧
          (docs_of id0 (collection s) ≠ [] → succeeded id0 (upstream s)) ∧
          replies_of id0 (responses s) = []) as (Hshape & Hsucc & ->).
  { destruct h as [p|p rsp u|p rsp u a].
    - destruct Hok as [-> ->]. repeat split; [constructor|done].
    - destruct Hok as (-> & -> & _). repeat split; [constructor|done].
    - destruct Hok as (-> & -> & _ & Hex & _ & Hs).
      repeat split; [constructor; apply Hex|done]. }
  split; [exact Hshape|]. split; [exact Hsucc|]. split; [|lia].
  intros r' Hin. apply list_elem_of_singleton in Hin as ->. done.
Qed.

Lemma docs_inv_park w s : docs_inv s → docs_inv (park w s).
Proof. intros H. by apply (docs_inv_frame s). Qed.

Lemma docs_inv_log e s : docs_inv s → docs_inv (log_upstream e s).
Proof.
  intros H. apply (docs_inv_frame s); auto; [done|].
  intros x Hx. simpl. apply elem_of_app. by left.
Qed.

Lemma settle_docs job c s :
  ids_ok (job :: jobs s) (handlers s) (nextRequest s) → docs_inv s →
  match c with
  | Normal _ => succeeded (owner job) (upstream s)
  | Throw e => status (error_reply e) ≠ 200%Z
  end →
  docs_inv (settle job c s).
Proof.
  intros Hok Hinv Hc.
  assert (handlers s !! owner job = Some (AtQueuePromise (prompt job))) as Hh
    by (apply (ids_waiting _ _ _ Hok); by left).
  assert (owner job < nextRequest s) as Hlt
    by (apply (ids_fresh _ _ _ Hok); rewrite Hh; eauto).
  destruct c as [response|error]; simpl.
  - rewrite (handler_resolved_waiting _ (prompt job)) by exact Hh.
    apply (docs_inv_change s _ (owner job));
      [exact Hinv|other_ids|done|auto|auto|].
    pose proof (Hinv (owner job)) as Hj. unfold handler_ok in *.
    rewrite Hh in Hj. simpl. rewrite lookup_insert_eq. simpl.
    destruct Hj as [-> ->]. repeat split; auto; lia.
  - rewrite (handler_rejected_waiting _ (prompt job)) by exact Hh.
    apply docs_inv_respond_error; auto; rewrite Hh; eauto.
Qed.

Lemma processQueue_from_docs queue s :
  requestQueue s = queue → ids_inv s → docs_inv s →
  docs_inv (processQueue_from queue s).
Proof.
  revert s. induction queue as [|job rest IH]; intros s Hq Hids Hinv;
    [exact Hinv|].
  pose proof (ids_ok_perm _ _ _ _ (jobs_split _ _ _ Hq) Hids) as Hok.
  rewrite processQueue_from_cons. simpl.
  set (s1 := shift job rest (set_isProcessing true s)).
  assert (docs_inv s1) as Hinv1 by (by apply (docs_inv_frame s)).
  repeat case_match.
  - by apply docs_inv_park.
  - by apply docs_inv_park, docs_inv_log.
  - apply IH.
    + by destruct (handler_rejected_cases (owner job) key_error s1)
        as [-> | ->].
    + apply (settle_ids job (Throw key_error) s1). exact Hok.
    + apply (settle_docs job (Throw key_error) s1); done.
Qed.

Lemma processQueue_docs s : ids_inv s → docs_inv s → docs_inv (processQueue s).
Proof.
  intros Hids H. unfold processQueue. case_match; [exact H|].
  by apply processQueue_from_docs.
Qed.

Lemma processQueue_resume_docs job p s :
  ids_ok (job :: jobs s) (handlers s) (nextRequest s) → docs_inv s →
  match p with
  | Suspended _ => True
  | Completed (Normal _) => succeeded (owner job) (upstream s)
  | Completed (Throw e) => status (error_reply e) ≠ 200%Z
  end →
  docs_inv (processQueue_resume job (p, s)).
Proof.
  intros Hok Hinv Hp. destruct p as [w|c].
  - by apply docs_inv_park.
  - rewrite processQueue_resume_completed.
    apply processQueue_from_docs; [reflexivity| |].
    + by apply (settle_ids job c s).
    + by apply (settle_docs job c s).
Qed.

Lemma handler_saved_docs id r s s' :
  ids_inv s → docs_inv s → handler_saved id r s = Some s' → docs_inv s'.
Proof.
  intros Hids Hinv H. unfold handler_saved in H.
  pose proof (Hinv id) as Hid. unfold handler_ok in Hid.
  pose proof (ids_fresh _ _ _ Hids id) as Hlt.
  destruct (handlers s !! id) as [[p|p rsp u|p rsp u a]|] eqn:Hh;
    try discriminate; specialize (Hlt ltac:(eauto)).
  - destruct Hid as (Hd & Hr & Hrole & Hcontent & Htime & Hsucc).
    destruct r as [|n m].
    + destruct (castString p) as [c|] eqn:Hcast.
      * destruct (choice_content rsp) as [text|error] eqn:Hcc;
          injection H as <-;
          (apply (docs_inv_change s _ id); [exact Hinv|other_ids|done|auto|auto|]);
          unfold handler_ok; simpl;
          rewrite ?lookup_insert_eq, ?lookup_delete_eq, ?replies_of_snoc, docs_of_snoc;
          rewrite !decide_True by done; rewrite Hd, Hr; simpl.
        -- split; [done|]. split; [done|]. split; [by unfold holds; rewrite Hcontent|].
           split; [by repeat split|]. split; [by exists text|done].
        -- split; [by constructor|]. split; [done|]. split; [|lia].
           intros r' Hin. apply list_elem_of_singleton in Hin as ->.
           rewrite error_reply_plain; [done|by eapply choice_content_throw].
      * injection H as <-.
        apply docs_inv_respond_error;
          [exact Hinv|rewrite Hh; eauto|exact Hlt|by rewrite error_reply_plain].
    + injection H as <-.
      apply docs_inv_respond_error;
        [exact Hinv|rewrite Hh; eauto|exact Hlt|by rewrite error_reply_plain].
  - destruct Hid as (Hd & Hr & Hholds & Hex & (text & Hcc & Hca) & Hsucc).
    destruct r as [|n m].
    + rewrite Hcc in H. destruct (castString text) as [c|] eqn:Hcast.
      * injection H as <-.
        apply (docs_inv_change s _ id); [exact Hinv|other_ids|done|auto|auto|].
        unfold handler_ok; simpl.
        rewrite lookup_delete_eq, replies_of_snoc, docs_of_snoc.
        rewrite !decide_True by done. rewrite Hd, Hr. simpl.
        split; [by constructor|]. split; [done|]. split; [|lia].
        intros r' Hin. apply list_elem_of_singleton in Hin as ->.
        intros _. exists u, a, p, text. split; [done|]. split; [done|].
        split; [exact Hholds|]. unfold holds. by rewrite Hca, Hcast.
      * injection H as <-.
        apply docs_inv_respond_error;
          [exact Hinv|rewrite Hh; eauto|exact Hlt|by rewrite error_reply_plain].
    + injection H as <-.
      apply docs_inv_respond_error;
        [exact Hinv|rewrite Hh; eauto|exact Hlt|by rewrite error_reply_plain].
Qed.

Lemma docs_inv_step s e s' :
  ids_inv s → docs_inv s → step s e = Some s' → docs_inv s'.
Proof.
  intros Hids Hinv Hstep. revert Hids Hinv. pattern s, s'.
  eapply step_cases; [..|exact Hstep]; clear; intros.
  - apply (docs_inv_frame s); auto. simpl. lia.
  - assert (handlers s !! nextRequest s = None) as Hnone.
    { destruct (handlers s !! nextRequest s) eqn:Hh; [|done].
      pose proof (ids_fresh _ _ _ Hids (nextRequest s)) as Hlt.
      rewrite Hh in Hlt. specialize (Hlt ltac:(eauto)). lia. }
    apply (docs_inv_change s _ (nextRequest s));
      [exact Hinv|other_ids|done|auto|simpl; lia|].
    pose proof (Hinv (nextRequest s)) as Hok. unfold handler_ok in *.
    rewrite Hnone in Hok. simpl.
    rewrite lookup_delete_eq, replies_of_snoc, decide_True by done.
    destruct Hok as (_ & _ & _ & Hfresh).
    destruct (Hfresh ltac:(lia)) as [-> ->]. simpl.
    split; [constructor|]. split; [done|]. split; [|lia].
    intros r' Hin. apply list_elem_of_singleton in Hin as ->. done.
  - assert (handlers s !! nextRequest s = None) as Hnone.
    { destruct (handlers s !! nextRequest s) eqn:Hh; [|done].
      pose proof (ids_fresh _ _ _ Hids (nextRequest s)) as Hlt.
      rewrite Hh in Hlt. specialize (Hlt ltac:(eauto)). lia. }
    apply (docs_inv_change s _ (nextRequest s));
      [exact Hinv|other_ids|done|auto|simpl; lia|].
    pose proof (Hinv (nextRequest s)) as Hok. unfold handler_ok in *.
    rewrite Hnone in Hok. simpl.
    rewrite lookup_delete_eq, replies_of_snoc, decide_True by done.
    destruct Hok as (_ & _ & _ & Hfresh).
    destruct (Hfresh ltac:(lia)) as [-> ->]. simpl.
    split; [constructor|]. split; [done|]. split; [|lia].
    intros r' Hin. apply list_elem_of_singleton in Hin as ->. done.
  - assert (handlers s !! nextRequest s = None) as Hnone.
    { destruct (handlers s !! nextRequest s) eqn:Hh; [|done].
      pose proof (ids_fresh _ _ _ Hids (nextRequest s)) as Hlt.
      rewrite Hh in Hlt. specialize (Hlt ltac:(eauto)). lia. }
    apply processQueue_docs.
    { unfold ids_inv, jobs. simpl. rewrite app_assoc. by apply ids_ok_add. }
    apply (docs_inv_change s _ (nextRequest s));
      [exact Hinv|other_ids|done|auto|simpl; lia|].
    pose proof (Hinv (nextRequest s)) as Hok. unfold handler_ok in *.
    rewrite Hnone in Hok. simpl. rewrite lookup_insert_eq.
    destruct Hok as (_ & _ & _ & Hfresh). apply Hfresh. lia.
  - pose proof (ids_inv_resumed _ _ _ Hids H) as Hok.
    split_gemini; apply processQueue_resume_docs; auto;
      by apply docs_inv_log, (docs_inv_frame s).
  - pose proof (ids_inv_resumed _ _ _ Hids H) as Hok.
    split_gemini; apply processQueue_resume_docs; auto;
      by apply docs_inv_log, (docs_inv_frame s).
  - pose proof (ids_inv_resumed _ _ _ Hids H) as Hok.
    apply processQueue_resume_docs; [exact Hok| |].
    + by apply docs_inv_log, (docs_inv_frame s).
    + destruct (generateTextFromGemini_resume job retryCount u s1)
        as [w|[v|e]] eqn:Hres; [done| |].
      * exists job, retryCount, (now s), u. split; [|split; [done|]].
        { subst s1. simpl. apply elem_of_app. right. by left. }
        unfold call_ok.
        destruct (generateTextFromGemini_resume_cases job retryCount u s1)
          as [(v' & -> & _) | [(e & _ & _ & _ & Hr) | [(e & _ & _ & _ & Hr)
             | (e & _ & _ & Hr)]]]; [done|rewrite Hr in Hres; discriminate..].
      * by eapply generateTextFromGemini_resume_throw.
  - by eapply handler_saved_docs.
Qed.
(** ** Spacing of the upstream calls *)

Lemma first_attempts_spaced_end log job retryCount t u :
  first_attempts_spaced log →
  first_attempts_spaced (log ++ [CallEnd job retryCount t u]).
Proof.
  intros Hsp i j job1 rc1 t1 u1 job2 t2 Hij Hi Hok Hj.
  apply lookup_snoc_Some in Hj as [[Hlt Hj] | [_ Hj]]; [|discriminate].
  rewrite lookup_app_l in Hi by lia.
  exact (Hsp _ _ _ _ _ _ _ _ Hij Hi Hok Hj).
Qed.

Lemma first_attempts_spaced_start log job retryCount t' :
  first_attempts_spaced log →
  (retryCount = 0%Z →
   ∀ job1 rc1 t u, CallEnd job1 rc1 t u ∈ log → call_ok u = true →
                   (t + RATE_LIMIT_DELAY ≤ t')%Z) →
  first_attempts_spaced (log ++ [CallStart job retryCount t']).
Proof.
  intros Hsp Hnew i j job1 rc1 t1 u1 job2 t2 Hij Hi Hok Hj.
  apply lookup_snoc_Some in Hj as [[Hlt Hj] | [Hlen Hj]].
  - rewrite lookup_app_l in Hi by lia.
    exact (Hsp _ _ _ _ _ _ _ _ Hij Hi Hok Hj).
  - injection Hj as -> -> ->. rewrite lookup_app_l in Hi by lia.
    eapply Hnew; [done| |done]. by eapply list_elem_of_lookup_2.
Qed.

Lemma timing_inv_ext s s' :
  timing_inv s →
  upstream s' = upstream s → now s' = now s →
  lastRequestTime s' = lastRequestTime s → workers s' = workers s →
  timing_inv s'.
Proof.
  intros [Hpast Hlast Hdl Hsp] Hu Hn Hl Hw.
  split; rewrite ?Hu, ?Hn, ?Hl, ?Hw; assumption.
Qed.

Lemma timing_inv_park_delay job s :
  timing_inv s →
  timing_inv
    (park (AtRateLimitDelay job
             (now s + (RATE_LIMIT_DELAY - (now s - lastRequestTime s)))) s).
Proof.
  intros [Hpast Hlast Hdl Hsp]. split; simpl; auto.
  intros job' deadline Hin. apply elem_of_app in Hin as [Hin|Hin]; [eauto|].
  apply list_elem_of_singleton in Hin. injection Hin as -> ->. lia.
Qed.

Lemma timing_inv_park w s :
  timing_inv s → (∀ job deadline, w ≠ AtRateLimitDelay job deadline) →
  timing_inv (park w s).
Proof.
  intros [Hpast Hlast Hdl Hsp] Hw. split; simpl; auto.
  intros job' deadline Hin. apply elem_of_app in Hin as [Hin|Hin]; [eauto|].
  apply list_elem_of_singleton in Hin. by destruct (Hw job' deadline).
Qed.

Lemma timing_inv_unpark i s : timing_inv s → timing_inv (unpark i s).
Proof.
  intros [Hpast Hlast Hdl Hsp]. split; simpl; auto.
  intros job deadline Hin. eapply Hdl, list_elem_of_delete_inv, Hin.
Qed.

Lemma timing_inv_start job retryCount s :
  timing_inv s →
  (retryCount = 0%Z → (lastRequestTime s + RATE_LIMIT_DELAY ≤ now s)%Z) →
  timing_inv (log_upstream (CallStart job retryCount (now s)) s).
Proof.
  intros [Hpast Hlast Hdl Hsp] Hready. split; simpl; auto.
  - intros job1 rc1 t u Hin. apply elem_of_app in Hin as [Hin|Hin]; [eauto|].
    apply list_elem_of_singleton in Hin. discriminate.
  - intros job1 rc1 t u Hin. apply elem_of_app in Hin as [Hin|Hin]; [eauto|].
    apply list_elem_of_singleton in Hin. discriminate.
  - apply first_attempts_spaced_start; [exact Hsp|].
    intros Hrc job1 rc1 t u Hin Hok.
    specialize (Hlast _ _ _ _ Hin Hok). specialize (Hready Hrc). lia.
Qed.

Lemma timing_inv_rejected id error s :
  timing_inv s → timing_inv (handler_rejected id error s).
Proof.
  intros Hinv.
  by destruct (handler_rejected_cases id error s) as [-> | ->];
    [|apply (timing_inv_ext s)].
Qed.

Lemma timing_inv_idle s : timing_inv s → timing_inv (set_isProcessing false s).
Proof. intros Hinv. by apply (timing_inv_ext s). Qed.

Lemma processQueue_from_timing queue s :
  timing_inv s → timing_inv (processQueue_from queue s).
Proof.
  revert s. induction queue as [|job rest IH]; intros s Hinv; [exact Hinv|].
  rewrite processQueue_from_cons. simpl.
  set (s1 := shift job rest (set_isProcessing true s)).
  assert (timing_inv s1) as Hinv1 by (by apply (timing_inv_ext s)).
  destruct (Z.ltb_spec (now s - lastRequestTime s) RATE_LIMIT_DELAY).
  - apply (timing_inv_park_delay job s1 Hinv1).
  - case_match.
    + apply timing_inv_park; [|done].
      apply (timing_inv_start job 0 s1 Hinv1). simpl. lia.
    + by apply IH, timing_inv_idle, timing_inv_rejected.
Qed.

Lemma processQueue_timing s : timing_inv s → timing_inv (processQueue s).
Proof.
  intros H. unfold processQueue. case_match; [exact H|].
  by apply processQueue_from_timing.
Qed.

(** After a success line 37 moves [lastRequestTime] to the present, past
    every completion in the log. *)
Lemma settle_timing_ok job response s :
  (∀ job1 rc t u, CallEnd job1 rc t u ∈ upstream s → (t ≤ now s)%Z) →
  workers s = [] → first_attempts_spaced (upstream s) →
  timing_inv (settle job (Normal response) s).
Proof.
  intros Hpast Hw Hsp. simpl.
  assert (timing_inv (set_lastRequestTime (now s) s)) as Hinv'.
  { split; simpl; [exact Hpast| | |exact Hsp].
    - intros job' rc t u Hin _. by eapply Hpast.
    - rewrite Hw. intros job' deadline Hin. by apply elem_of_nil in Hin. }
  by destruct (handler_resolved_cases (owner job) response
                 (set_lastRequestTime (now s) s)) as [-> | (p & _ & ->)];
    [|apply (timing_inv_ext (set_lastRequestTime (now s) s))].
Qed.

Lemma timing_inv_end job retryCount u s :
  timing_inv s → call_ok u = false →
  timing_inv (log_upstream (CallEnd job retryCount (now s) u) s).
Proof.
  intros [Hpast Hlast Hdl Hsp] Hu. split; simpl; auto.
  - intros job1 rc1 t u1 Hin.
    apply elem_of_app in Hin as [Hin|Hin]; [eauto|].
    apply list_elem_of_singleton in Hin. injection Hin as -> -> -> ->. lia.
  - intros job1 rc1 t u1 Hin Hok.
    apply elem_of_app in Hin as [Hin|Hin]; [eauto|].
    apply list_elem_of_singleton in Hin. injection Hin as -> -> -> ->.
    congruence.
  - by apply first_attempts_spaced_end.
Qed.

Lemma processQueue_resume_timing job p s :
  timing_inv s →
  match p with
  | Suspended w => ∀ job deadline, w ≠ AtRateLimitDelay job deadline
  | Completed (Normal _) => False
  | Completed (Throw _) => True
  end →
  timing_inv (processQueue_resume job (p, s)).
Proof.
  intros Hinv Hp. destruct p as [w|[v|e]]; [|done|].
  - by apply timing_inv_park.
  - rewrite processQueue_resume_completed.
    by apply processQueue_from_timing, timing_inv_idle, timing_inv_rejected.
Qed.

Lemma timing_inv_step s e s' :
  flag_inv s → retry_inv s → timing_inv s → step s e = Some s' → timing_inv s'.
Proof.
  intros Hflag Hretry Hinv Hstep. revert Hflag Hretry Hinv. pattern s, s'.
  eapply step_cases; [..|exact Hstep]; clear; intros.
  - destruct Hinv as [Hpast Hlast Hdl Hsp]. split; simpl; auto.
    intros job rc t u Hin. specialize (Hpast _ _ _ _ Hin). lia.
  - by apply (timing_inv_ext s).
  - by apply (timing_inv_ext s).
  - apply processQueue_timing. by apply (timing_inv_ext s).
  - pose proof (delay_deadline _ Hinv job deadline
                  (list_elem_of_lookup_2 _ _ _ H)) as Hdl.
    split_gemini; apply processQueue_resume_timing;
      auto using timing_inv_unpark.
    apply timing_inv_start; [by apply timing_inv_unpark|]. simpl. lia.
  - pose proof (retry_inv_lookup _ _ _ Hretry H) as [_ Hrc]. simpl in Hrc.
    split_gemini; apply processQueue_resume_timing;
      auto using timing_inv_unpark.
    apply timing_inv_start; [by apply timing_inv_unpark|]. lia.
  - destruct (flag_inv_worker _ _ _ Hflag H) as (Hp & Hw & ->).
    destruct (generateTextFromGemini_resume_cases job retryCount u s1)
      as [(v & Ha & ->) | [(e & Ha & _ & _ & ->) | [(e & Ha & _ & _ & ->)
         | (e & Ha & _ & ->)]]].
    + rewrite processQueue_resume_completed.
      apply processQueue_from_timing, timing_inv_idle, settle_timing_ok.
      * subst s1. simpl. intros job1 rc1 t u1 Hin.
        apply elem_of_app in Hin as [Hin|Hin];
          [by eapply (log_past _ Hinv)|].
        apply list_elem_of_singleton in Hin. injection Hin as -> -> -> ->. lia.
      * subst s1. simpl. by rewrite Hw.
      * subst s1. simpl. apply first_attempts_spaced_end, Hinv.
    + apply processQueue_resume_timing; [|done].
      apply (timing_inv_end job retryCount u (unpark 0 s));
        [by apply timing_inv_unpark|]. unfold call_ok. by rewrite Ha.
    + apply processQueue_resume_timing; [|done].
      apply (timing_inv_end job retryCount u (unpark 0 s));
        [by apply timing_inv_unpark|]. unfold call_ok. by rewrite Ha.
    + apply processQueue_resume_timing; [|done].
      apply (timing_inv_end job retryCount u (unpark 0 s));
        [by apply timing_inv_unpark|]. unfold call_ok. by rewrite Ha.
  - destruct (handler_saved_frame _ _ _ _ H) as (_&Hn&Hl&_&_&Hw&_&Hu&_).
    destruct Hinv as [Hpast Hlast Hdl Hsp].
    split; rewrite ?Hn, ?Hl, ?Hw, ?Hu; auto.
Qed.
(** ** Retries in the log *)

Lemma retries_backed_off_end log job retryCount t u :
  retries_backed_off log →
  retries_backed_off (log ++ [CallEnd job retryCount t u]).
Proof.
  intros Hlog j job' rc' t' Hj Hrc.
  apply lookup_snoc_Some in Hj as [[Hlt Hj] | [_ Hj]]; [|discriminate].
  destruct (Hlog j job' rc' t' Hj Hrc) as (i & t1 & u1 & e & -> & Hi & He).
  exists i, t1, u1, e. split; [done|]. split; [|done].
  apply lookup_app_l_Some. exact Hi.
Qed.

Lemma retries_backed_off_first log job t' :
  retries_backed_off log →
  retries_backed_off (log ++ [CallStart job 0 t']).
Proof.
  intros Hlog j job' rc' t1 Hj Hrc.
  apply lookup_snoc_Some in Hj as [[Hlt Hj] | [_ Hj]].
  - destruct (Hlog j job' rc' t1 Hj Hrc) as (i & t2 & u2 & e & -> & Hi & He).
    exists i, t2, u2, e. split; [done|]. split; [|done].
    apply lookup_app_l_Some. exact Hi.
  - injection Hj as <- <- <-. done.
Qed.

Lemma retries_backed_off_retry log job retryCount t u e t' :
  retries_backed_off log →
  last log = Some (CallEnd job retryCount t u) →
  attempt u = Throw e → response_status_is 429 e = true →
  (t + INITIAL_RETRY_DELAY * 2 ^ retryCount ≤ t')%Z →
  retries_backed_off (log ++ [CallStart job (retryCount + 1) t']).
Proof.
  intros Hlog Hlast Ha H429 Hdelay j job' rc' t1 Hj Hrc.
  apply lookup_snoc_Some in Hj as [[Hlt Hj] | [Hlen Hj]].
  - destruct (Hlog j job' rc' t1 Hj Hrc) as (i & t2 & u2 & e2 & -> & Hi & He).
    exists i, t2, u2, e2. split; [done|]. split; [|done].
    apply lookup_app_l_Some. exact Hi.
  - injection Hj as <- <- <-.
    rewrite last_lookup in Hlast.
    destruct log as [|x log']; [discriminate|]. simpl in Hlast, Hlen.
    exists (length log'), t, u, e. split; [done|].
    replace (retryCount + 1 - 1)%Z with retryCount by lia.
    split; [|done]. apply lookup_app_l_Some. exact Hlast.
Qed.

Lemma backoff_inv_fresh s :
  (∀ job retryCount deadline, AtRetryDelay job retryCount deadline ∉ workers s) →
  retries_backed_off (upstream s) → backoff_inv s.
Proof.
  intros Hnone Hlog. split; [|exact Hlog].
  intros job rc deadline Hin. by destruct (Hnone job rc deadline).
Qed.

Lemma processQueue_from_backoff queue s :
  workers s = [] → retries_backed_off (upstream s) →
  backoff_inv (processQueue_from queue s).
Proof.
  revert s. induction queue as [|job rest IH]; intros s Hw Hlog.
  - apply backoff_inv_fresh; [|exact Hlog]. simpl. rewrite Hw.
    intros ? ? ?. apply not_elem_of_nil.
  - rewrite processQueue_from_cons. simpl. repeat case_match.
    + apply backoff_inv_fresh; simpl; [|exact Hlog]. rewrite Hw.
      intros ? ? ? Hin. apply list_elem_of_singleton in Hin. discriminate.
    + apply backoff_inv_fresh; simpl;
        [|by apply retries_backed_off_first]. rewrite Hw.
      intros ? ? ? Hin. apply list_elem_of_singleton in Hin. discriminate.
    + apply IH;
        by destruct (handler_rejected_cases (owner job) key_error
                       (shift job rest (set_isProcessing true s)))
          as [-> | ->].
Qed.

Lemma settle_upstream job c s : upstream (settle job c s) = upstream s.
Proof.
  destruct c as [response|error]; simpl.
  - by destruct (handler_resolved_cases (owner job) response
                   (set_lastRequestTime (now s) s)) as [-> | (p & _ & ->)].
  - by destruct (handler_rejected_cases (owner job) error s) as [-> | ->].
Qed.

Lemma processQueue_resume_backoff job c s :
  workers s = [] → retries_backed_off (upstream s) →
  backoff_inv (processQueue_resume job (Completed c, s)).
Proof.
  intros Hw Hlog. rewrite processQueue_resume_completed.
  apply processQueue_from_backoff; simpl.
  - by rewrite (proj1 (settle_workers job c s)).
  - by rewrite settle_upstream.
Qed.

Lemma backoff_inv_step s e s' :
  flag_inv s → backoff_inv s → step s e = Some s' → backoff_inv s'.
Proof.
  intros Hflag Hinv Hstep. revert Hflag Hinv. pattern s, s'.
  eapply step_cases; [..|exact Hstep]; clear; intros.
  - by destruct Hinv.
  - by destruct Hinv.
  - by destruct Hinv.
  - unfold processQueue. simpl. unfold flag_inv in Hflag.
    destruct (isProcessing s); simpl; [by destruct Hinv|].
    destruct Hflag as [Hw _]. case_bool_decide; [by destruct Hinv|].
    apply processQueue_from_backoff; [exact Hw|apply Hinv].
  - destruct (flag_inv_worker _ _ _ Hflag H) as (Hp & Hw & ->).
    split_gemini.
    + apply processQueue_resume_backoff; simpl; [by rewrite Hw|apply Hinv].
    + apply backoff_inv_fresh; simpl.
      * rewrite Hw. simpl. intros ? ? ? Hin.
        apply list_elem_of_singleton in Hin. discriminate.
      * apply retries_backed_off_first, Hinv.
  - destruct (flag_inv_worker _ _ _ Hflag H) as (Hp & Hw & ->).
    destruct (backoff_parked _ Hinv job retryCount deadline)
      as (t & u & e & Hlast & Ha & H429 & Hdelay);
      [rewrite Hw; by left|].
    split_gemini.
    + apply processQueue_resume_backoff; simpl; [by rewrite Hw|apply Hinv].
    + apply backoff_inv_fresh; simpl.
      * rewrite Hw. simpl. intros ? ? ? Hin.
        apply list_elem_of_singleton in Hin. discriminate.
      * eapply retries_backed_off_retry; [apply Hinv|done..|lia].
  - destruct (flag_inv_worker _ _ _ Hflag H) as (Hp & Hw & ->).
    assert (retries_backed_off (upstream s1)) as Hlog1
      by (subst s1; simpl; apply retries_backed_off_end, Hinv).
    destruct (generateTextFromGemini_resume_cases job retryCount u s1)
      as [(v & Ha & ->) | [(e & Ha & H429 & _ & ->) | [(e & Ha & _ & _ & ->)
         | (e & Ha & _ & ->)]]];
      try (apply processQueue_resume_backoff; [subst s1; simpl; by rewrite Hw|done]).
    split; [|exact Hlog1]. subst s1. simpl. rewrite Hw. simpl.
    intros job' rc' deadline' Hin.
    apply list_elem_of_singleton in Hin. injection Hin as -> -> ->.
    exists (now s), u, e. rewrite last_snoc. repeat split; auto. lia.
  - destruct (handler_saved_frame _ _ _ _ H) as (_&_&_&_&_&Hw&_&Hu&_).
    destruct Hinv as [Hparked Hlog]. split; rewrite ?Hw, ?Hu; assumption.
Qed.

(** ** The request counter *)

Lemma settle_nextRequest job c s :
  nextRequest (settle job c s) = nextRequest s.
Proof.
  destruct c as [response|error]; simpl.
  - by destruct (handler_resolved_cases (owner job) response
                   (set_lastRequestTime (now s) s)) as [-> | (p & _ & ->)].
  - by destruct (handler_rejected_cases (owner job) error s) as [-> | ->].
Qed.

Lemma processQueue_from_nextRequest queue s :
  nextRequest (processQueue_from queue s) = nextRequest s.
Proof.
  revert s. induction queue as [|job rest IH]; intros s; [done|].
  rewrite processQueue_from_cons. simpl. repeat case_match; try done.
  rewrite IH. simpl.
  apply (settle_nextRequest job (Throw key_error)
           (shift job rest (set_isProcessing true s))).
Qed.

Lemma processQueue_resume_nextRequest job p s :
  nextRequest (processQueue_resume job (p, s)) = nextRequest s.
Proof.
  destruct p as [w|c]; [done|].
  rewrite processQueue_resume_completed, processQueue_from_nextRequest.
  apply settle_nextRequest.
Qed.

Lemma step_nextRequest s e s' :
  step s e = Some s' → nextRequest s ≤ nextRequest s'.
Proof.
  intros Hstep. pattern s, s'.
  eapply step_cases; [..|exact Hstep]; clear; intros.
  - done.
  - simpl. lia.
  - simpl. lia.
  - unfold processQueue. case_match; simpl; [lia|].
    rewrite processQueue_from_nextRequest. simpl. lia.
  - split_gemini; by rewrite processQueue_resume_nextRequest.
  - split_gemini; by rewrite processQueue_resume_nextRequest.
  - by rewrite processQueue_resume_nextRequest.
  - destruct (handler_saved_frame _ _ _ _ H) as (_&_&_&_&_&_&->&_). done.
Qed.

(** ** Request numbers in the log *)

Lemma log_ids_inv_snoc e s :
  log_ids_inv s → owner (event_job e) < nextRequest s →
  log_ids_inv (log_upstream e s).
Proof.
  intros Hinv He e' Hin. simpl in *.
  apply elem_of_app in Hin as [Hin|Hin]; [by apply Hinv|].
  by apply list_elem_of_singleton in Hin as ->.
Qed.

Lemma log_ids_inv_ext s s' :
  log_ids_inv s → upstream s' = upstream s → nextRequest s ≤ nextRequest s' →
  log_ids_inv s'.
Proof.
  intros Hinv Hu Hn e Hin. rewrite Hu in Hin. specialize (Hinv e Hin). lia.
Qed.

Lemma processQueue_from_log_ids queue s :
  requestQueue s = queue → ids_inv s → log_ids_inv s →
  log_ids_inv (processQueue_from queue s).
Proof.
  revert s. induction queue as [|job rest IH]; intros s Hq Hids Hinv;
    [exact Hinv|].
  pose proof (ids_ok_perm _ _ _ _ (jobs_split _ _ _ Hq) Hids) as Hok.
  assert (owner job < nextRequest s) as Hlt
    by (apply (ids_ok_owner_lt _ _ _ _ Hok); by left).
  rewrite processQueue_from_cons. simpl.
  set (s1 := shift job rest (set_isProcessing true s)).
  repeat case_match.
  - by apply (log_ids_inv_ext s).
  - apply (log_ids_inv_ext (log_upstream (CallStart job 0 (now s)) s));
      [by apply log_ids_inv_snoc|done..].
  - apply IH.
    + by destruct (handler_rejected_cases (owner job) key_error s1)
        as [-> | ->].
    + apply (settle_ids job (Throw key_error) s1). exact Hok.
    + apply (log_ids_inv_ext s); [exact Hinv| |].
      * apply (settle_upstream job (Throw key_error) s1).
      * pose proof (settle_nextRequest job (Throw key_error) s1) as Hn.
        simpl in Hn |- *. lia.
Qed.

Lemma processQueue_resume_log_ids job p s :
  ids_ok (job :: jobs s) (handlers s) (nextRequest s) → log_ids_inv s →
  log_ids_inv (processQueue_resume job (p, s)).
Proof.
  intros Hok Hinv. destruct p as [w|c]; [by apply (log_ids_inv_ext s)|].
  rewrite processQueue_resume_completed.
  apply processQueue_from_log_ids; [done|by apply (settle_ids job c s)|].
  apply (log_ids_inv_ext s); [exact Hinv|apply settle_upstream|].
  pose proof (settle_nextRequest job c s) as Hn. simpl in Hn |- *. lia.
Qed.

Lemma log_ids_inv_step s e s' :
  ids_inv s → log_ids_inv s → step s e = Some s' → log_ids_inv s'.
Proof.
  intros Hids Hinv Hstep. revert Hids Hinv. pattern s, s'.
  eapply step_cases; [..|exact Hstep]; clear; intros.
  - by apply (log_ids_inv_ext s).
  - apply (log_ids_inv_ext s); simpl; auto.
  - apply (log_ids_inv_ext s); simpl; auto.
  - unfold processQueue. case_match.
    + apply (log_ids_inv_ext s); simpl; auto.
    + apply processQueue_from_log_ids; [done| |].
      * unfold ids_inv, jobs. simpl. rewrite app_assoc. by apply ids_ok_add.
      * apply (log_ids_inv_ext s); simpl; auto.
  - pose proof (ids_inv_resumed _ _ _ Hids H) as Hok.
    assert (owner job < nextRequest s) as Hlt
      by (apply (ids_ok_owner_lt _ _ _ _ Hok); by left).
    split_gemini; apply processQueue_resume_log_ids; try exact Hok.
    + by apply (log_ids_inv_ext s).
    + apply log_ids_inv_snoc; [by apply (log_ids_inv_ext s)|done].
  - pose proof (ids_inv_resumed _ _ _ Hids H) as Hok.
    assert (owner job < nextRequest s) as Hlt
      by (apply (ids_ok_owner_lt _ _ _ _ Hok); by left).
    split_gemini; apply processQueue_resume_log_ids; try exact Hok.
    + by apply (log_ids_inv_ext s).
    + apply log_ids_inv_snoc; [by apply (log_ids_inv_ext s)|done].
  - pose proof (ids_inv_resumed _ _ _ Hids H) as Hok.
    assert (owner job < nextRequest s) as Hlt
      by (apply (ids_ok_owner_lt _ _ _ _ Hok); by left).
    apply processQueue_resume_log_ids; [exact Hok|].
    apply log_ids_inv_snoc; [by apply (log_ids_inv_ext s)|done].
  - destruct (handler_saved_frame _ _ _ _ H) as (_&_&_&_&_&_&Hn&Hu&_).
    apply (log_ids_inv_ext s); [done|done|lia].
Qed.

(** ** The invariants hold in every reachable state *)

Lemma wf_start key t0 : wf (start key t0).
Proof.
  split.
  - by split.
  - constructor.
  - reflexivity.
  - split; simpl.
    + constructor.
    + intros job Hin. by apply elem_of_nil in Hin.
    + intros id [h Hh]. by rewrite lookup_empty in Hh.
  - intros id. unfold handler_ok. simpl. rewrite lookup_empty.
    split; [constructor|]. split; [done|]. split; [|done].
    intros r Hin. by apply elem_of_nil in Hin.
  - split; simpl.
    + intros job rc t u Hin. by apply elem_of_nil in Hin.
    + intros job rc t u Hin. by apply elem_of_nil in Hin.
    + intros job deadline Hin. by apply elem_of_nil in Hin.
    + intros i j job rc t u job' t' _ Hi. by rewrite lookup_nil in Hi.
  - split; simpl.
    + intros job rc deadline Hin. by apply elem_of_nil in Hin.
    + intros j job rc t' Hj. by rewrite lookup_nil in Hj.
  - intros e Hin. by apply elem_of_nil in Hin.
Qed.

Lemma wf_step s e s' : wf s → step s e = Some s' → wf s'.
Proof.
  intros [Hflag Hretry Hfifo Hids Hdocs Htiming Hbackoff Hlog] Hstep. split.
  - by eapply flag_inv_step.
  - by eapply retry_inv_step.
  - by eapply fifo_inv_step.
  - by eapply ids_inv_step.
  - by eapply docs_inv_step.
  - by eapply timing_inv_step.
  - by eapply backoff_inv_step.
  - by eapply log_ids_inv_step.
Qed.

Lemma wf_run s events s' : wf s → run s events = Some s' → wf s'.
Proof.
  revert s. induction events as [|e rest IH]; intros s Hwf Hrun; simpl in Hrun.
  - by injection Hrun as <-.
  - destruct (step s e) as [s1|] eqn:Hstep; [|discriminate].
    eapply IH; [|exact Hrun]. by eapply wf_step.
Qed.

Lemma wf_reachable s : reachable s → wf s.
Proof. intros (key & t0 & events & Hrun). eapply wf_run, Hrun. apply wf_start. Qed.

Lemma run_app s events1 events2 :
  run s (events1 ++ events2) =
  match run s events1 with
  | Some s1 => run s1 events2
  | None => None
  end.
Proof.
  revert s. induction events1 as [|e rest IH]; intros s; simpl; [done|].
  destruct (step s e); [apply IH|done].
Qed.

Lemma reachable_run s events s' :
  reachable s → run s events = Some s' → reachable s'.
Proof.
  intros (key & t0 & events0 & Hrun0) Hrun.
  exists key, t0, (events0 ++ events). by rewrite run_app, Hrun0.
Qed.

Lemma reachable_step s e s' : reachable s → step s e = Some s' → reachable s'.
Proof.
  intros Hr Hstep. apply (reachable_run s [e]); [done|].
  simpl. by rewrite Hstep.
Qed.

(** ** With the API key configured a worker rejects its own job only *)

Lemma processQueue_from_keyed queue s :
  GEMINI_API_KEY s = true →
  handlers (processQueue_from queue s) = handlers s ∧
  collection (processQueue_from queue s) = collection s ∧
  responses (processQueue_from queue s) = responses s ∧
  now (processQueue_from queue s) = now s.
Proof.
  intros Hkey. destruct queue as [|job rest]; [done|].
  rewrite processQueue_from_cons. simpl. rewrite Hkey. by case_match.
Qed.

Lemma processQueue_resume_rejected job error s :
  GEMINI_API_KEY s = true →
  handlers s !! owner job = Some (AtQueuePromise (prompt job)) →
  let s' := processQueue_resume job (Completed (Throw error), s) in
  responses s' = responses s ++ [(owner job, error_reply error)] ∧
  collection s' = collection s ∧
  handlers s' = delete (owner job) (handlers s) ∧
  now s' = now s.
Proof.
  intros Hkey Hh. cbv zeta. rewrite processQueue_resume_completed.
  unfold settle.
  rewrite (handler_rejected_waiting _ _ _ _ Hh).
  by destruct (processQueue_from_keyed
              (requestQueue (respond (owner job) (error_reply error) s))
              (set_isProcessing false (respond (owner job) (error_reply error) s))
              Hkey) as (-> & -> & -> & ->).
Qed.

Lemma wf_posting s i job retryCount :
  wf s → workers s !! i = Some (AtAxiosPost job retryCount) →
  GEMINI_API_KEY s = true ∧ (0 ≤ retryCount ≤ MAX_RETRIES)%Z ∧
  workers s = [AtAxiosPost job retryCount] ∧ i = 0 ∧
  handlers s !! owner job = Some (AtQueuePromise (prompt job)).
Proof.
  intros Hwf Hi.
  destruct (retry_inv_lookup _ _ _ (wf_retry _ Hwf) Hi) as [Hkey Hrc].
  destruct (flag_inv_worker _ _ _ (wf_flag _ Hwf) Hi) as (_ & Hw & ->).
  repeat split; auto; try lia.
  apply (ids_waiting _ _ _ (wf_ids _ Hwf)). unfold jobs. rewrite Hw. by left.
Qed.

Lemma attempt_http_error st body :
  ¬ (200 ≤ st < 300)%Z →
  attempt (HttpReply {| status := st; data := body |}) =
  Throw {| name := "AxiosError";
           message := "Request failed with status code " +:+ pretty st;
           response := Some {| status := st; data := body |} |}.
Proof. intros H. unfold attempt. simpl. by rewrite bool_decide_false. Qed.

Lemma generateTextFromGemini_resume_rethrow job retryCount u s e :
  attempt u = Throw e → response_status_is 429 e = false →
  generateTextFromGemini_resume job retryCount u s = Completed (Throw e).
Proof.
  intros Ha H429.
  unfold generateTextFromGemini_resume, generateTextFromGemini_catch.
  by rewrite Ha, H429.
Qed.

Lemma generateTextFromGemini_resume_429 job retryCount body s :
  generateTextFromGemini_resume job retryCount
    (HttpReply {| status := 429; data := body |}) s =
  if (retryCount <? MAX_RETRIES)%Z then
    Suspended (AtRetryDelay job retryCount
                 (now s + INITIAL_RETRY_DELAY * 2 ^ retryCount))
  else Completed (Throw rate_limit_error).
Proof.
  unfold generateTextFromGemini_resume, generateTextFromGemini_catch.
  rewrite attempt_http_error by lia.
  unfold response_status_is. simpl.
  by destruct (retryCount <? MAX_RETRIES)%Z.
Qed.

(** ** A request that was answered is not touched again *)

Lemma calls_of_snoc id e log :
  calls_of id (log ++ [e]) =
  if decide (owner (event_job e) = id) then calls_of id log ++ [e]
  else calls_of id log.
Proof.
  unfold calls_of. rewrite filter_app, filter_cons, filter_nil.
  destruct (decide (owner (event_job e) = id)); [done|]. by rewrite app_nil_r.
Qed.

Lemma untouched_refl id s : untouched id s s.
Proof. by split. Qed.

Lemma untouched_trans id s1 s2 s3 :
  untouched id s1 s2 → untouched id s2 s3 → untouched id s1 s3.
Proof. intros (?&?&?&?) (?&?&?&?). split; [|split; [|split]]; congruence. Qed.

(** The same, from a state that differs in the parts [untouched] does not
    look at. *)
Lemma untouched_from id s0 s s' :
  handlers s = handlers s0 → collection s = collection s0 →
  responses s = responses s0 →
  calls_of id (upstream s) = calls_of id (upstream s0) →
  untouched id s s' → untouched id s0 s'.
Proof. unfold untouched. by intros -> -> -> ->. Qed.

Lemma respond_untouched id id0 r s :
  id0 ≠ id → untouched id s (respond id0 r s).
Proof.
  intros Hne. split; [|split; [|split]]; simpl.
  - by apply lookup_delete_ne.
  - done.
  - rewrite replies_of_snoc. by rewrite decide_False.
  - done.
Qed.

Lemma log_untouched id e s :
  owner (event_job e) ≠ id → untouched id s (log_upstream e s).
Proof.
  intros Hne. split; [|split; [|split]]; simpl; try done.
  rewrite calls_of_snoc. by rewrite decide_False.
Qed.

Lemma settle_untouched id job c s :
  ids_ok (job :: jobs s) (handlers s) (nextRequest s) →
  handlers s !! id = None →
  untouched id s (settle job c s).
Proof.
  intros Hok Hid.
  assert (handlers s !! owner job = Some (AtQueuePromise (prompt job))) as Hh
    by (apply (ids_waiting _ _ _ Hok); by left).
  assert (owner job ≠ id) as Hne by congruence.
  destruct c as [response|error]; simpl.
  - rewrite (handler_resolved_waiting _ (prompt job)) by exact Hh.
    split; [|done]. simpl. by apply lookup_insert_ne.
  - rewrite (handler_rejected_waiting _ (prompt job)) by exact Hh.
    by apply respond_untouched.
Qed.

Lemma processQueue_from_untouched id queue s :
  requestQueue s = queue → ids_inv s → handlers s !! id = None →
  untouched id s (processQueue_from queue s).
Proof.
  revert s. induction queue as [|job rest IH]; intros s Hq Hids Hid;
    [apply untouched_refl|].
  pose proof (ids_ok_perm _ _ _ _ (jobs_split _ _ _ Hq) Hids) as Hok.
  assert (owner job ≠ id) as Hne.
  { intros <-. rewrite (ids_waiting _ _ _ Hok job) in Hid; [done|by left]. }
  rewrite processQueue_from_cons. simpl.
  set (s1 := shift job rest (set_isProcessing true s)).
  repeat case_match.
  - by split.
  - apply (log_untouched id (CallStart job 0 (now s)) s Hne).
  - pose proof (settle_untouched id job (Throw key_error) s1 Hok Hid) as Hs.
    apply (untouched_trans _ _ (set_isProcessing false
                                  (settle job (Throw key_error) s1)));
      [exact Hs|].
    apply (IH (set_isProcessing false (settle job (Throw key_error) s1))).
    + by destruct (handler_rejected_cases (owner job) key_error s1)
        as [Heq | Heq]; simpl; rewrite Heq.
    + apply (settle_ids job (Throw key_error) s1). exact Hok.
    + destruct Hs as (Hs & _). simpl in *. by rewrite Hs.
Qed.

Lemma processQueue_untouched id s :
  ids_inv s → handlers s !! id = None → untouched id s (processQueue s).
Proof.
  intros Hids Hid. unfold processQueue. case_match; [apply untouched_refl|].
  by apply processQueue_from_untouched.
Qed.

Lemma processQueue_resume_untouched id job p s :
  ids_ok (job :: jobs s) (handlers s) (nextRequest s) →
  handlers s !! id = None →
  untouched id s (processQueue_resume job (p, s)).
Proof.
  intros Hok Hid. destruct p as [w|c]; [by split|].
  rewrite processQueue_resume_completed.
  pose proof (settle_untouched id job c s Hok Hid) as Hs.
  apply (untouched_trans _ _ (set_isProcessing false (settle job c s)));
    [exact Hs|].
  apply (processQueue_from_untouched id _
           (set_isProcessing false (settle job c s))); [done| |].
  - by apply (settle_ids job c s).
  - destruct Hs as (Hs & _). simpl. by rewrite Hs.
Qed.

Lemma step_untouched id s e s' :
  ids_inv s → step s e = Some s' →
  handlers s !! id = None → id < nextRequest s →
  untouched id s s'.
Proof.
  intros Hids Hstep Hid Hlt. revert Hids Hid Hlt. pattern s, s'.
  eapply step_cases; [..|exact Hstep]; clear s s' e Hstep; intros.
  - by split.
  - apply (respond_untouched id (nextRequest s) _
             (set_nextRequest (S (nextRequest s)) s)). lia.
  - apply (respond_untouched id (nextRequest s) _
             (set_nextRequest (S (nextRequest s)) s)). lia.
  - set (s1 := push _ _).
    assert (untouched id s s1) as H1.
    { split; [|done]. simpl. apply lookup_insert_ne. lia. }
    apply (untouched_trans _ _ s1); [exact H1|].
    apply processQueue_untouched.
    + unfold ids_inv, jobs. simpl. rewrite app_assoc. by apply ids_ok_add.
    + destruct H1 as (-> & _). done.
  - pose proof (ids_inv_resumed _ _ _ Hids H) as Hok.
    assert (owner job ≠ id) as Hne.
    { intros <-. rewrite (ids_waiting _ _ _ Hok job) in Hid; [done|by left]. }
    split_gemini;
      (eapply untouched_from;
       [..|apply processQueue_resume_untouched; [exact Hok|exact Hid]];
       try done).
    simpl. rewrite calls_of_snoc. by rewrite decide_False.
  - pose proof (ids_inv_resumed _ _ _ Hids H) as Hok.
    assert (owner job ≠ id) as Hne.
    { intros <-. rewrite (ids_waiting _ _ _ Hok job) in Hid; [done|by left]. }
    split_gemini;
      (eapply untouched_from;
       [..|apply processQueue_resume_untouched; [exact Hok|exact Hid]];
       try done).
    simpl. rewrite calls_of_snoc. by rewrite decide_False.
  - pose proof (ids_inv_resumed _ _ _ Hids H) as Hok.
    assert (owner job ≠ id) as Hne.
    { intros <-. rewrite (ids_waiting _ _ _ Hok job) in Hid; [done|by left]. }
    eapply untouched_from;
      [..|apply processQueue_resume_untouched; [exact Hok|exact Hid]];
      try done.
    subst s1. simpl. rewrite calls_of_snoc. by rewrite decide_False.
  - unfold handler_saved in H.
    destruct (handlers s !! id0) as [h|] eqn:Hh; [|discriminate].
    assert (id0 ≠ id) as Hne by congruence.
    repeat case_match; try discriminate; injection H as <-;
      (split; [|split; [|split]]); simpl;
      rewrite ?docs_of_snoc, ?replies_of_snoc, ?decide_False by done;
      rewrite ?lookup_insert_ne, ?lookup_delete_ne by done; done.
Qed.

Lemma run_untouched id s events s' :
  wf s → run s events = Some s' →
  handlers s !! id = None → id < nextRequest s →
  untouched id s s'.
Proof.
  revert s. induction events as [|e rest IH]; intros s Hwf Hrun Hid Hlt;
    simpl in Hrun.
  - injection Hrun as <-. apply untouched_refl.
  - destruct (step s e) as [s1|] eqn:Hstep; [|discriminate].
    pose proof (step_untouched id s e s1 (wf_ids _ Hwf) Hstep Hid Hlt) as H1.
    apply (untouched_trans _ _ s1); [exact H1|].
    apply IH; [by eapply wf_step|done| |].
    + destruct H1 as (-> & _). done.
    + pose proof (step_nextRequest _ _ _ Hstep). lia.
Qed.

(** ** What the invariants give at a parked worker or a finished request *)

Lemma wf_retrying s i job retryCount deadline :
  wf s → workers s !! i = Some (AtRetryDelay job retryCount deadline) →
  GEMINI_API_KEY s = true ∧ (0 ≤ retryCount < MAX_RETRIES)%Z ∧
  workers s = [AtRetryDelay job retryCount deadline] ∧ i = 0.
Proof.
  intros Hwf Hi.
  destruct (retry_inv_lookup _ _ _ (wf_retry _ Hwf) Hi) as [Hkey Hrc].
  destruct (flag_inv_worker _ _ _ (wf_flag _ Hwf) Hi) as (_ & Hw & ->).
  auto.
Qed.


Lemma step_axios s i job retryCount u :
  workers s !! i = Some (AtAxiosPost job retryCount) →
  step s (AxiosSettles i u) =
  Some (processQueue_resume job
          (generateTextFromGemini_resume job retryCount u
             (log_upstream (CallEnd job retryCount (now s) u) (unpark i s)),
           log_upstream (CallEnd job retryCount (now s) u) (unpark i s))).
Proof. intros Hi. unfold step. by rewrite Hi. Qed.


Lemma replies_of_elem id r rs : (id, r) ∈ rs → r ∈ replies_of id rs.
Proof.
  intros Hin. unfold replies_of.
  apply (list_elem_of_fmap_2 snd _ (id, r)).
  by apply list_elem_of_filter.
Qed.



Lemma generateTextFromGemini_resume_completed job retryCount u s s' c :
  generateTextFromGemini_resume job retryCount u s = Completed c →
  generateTextFromGemini_resume job retryCount u s' = Completed c.
Proof.
  unfold generateTextFromGemini_resume.
  destruct (attempt u) as [v|e]; [done|].
  by destruct (generateTextFromGemini_catch e retryCount).
Qed.

Lemma docs_inv_succeeded s id :
  docs_inv s → docs_of id (collection s) ≠ [] → succeeded id (upstream s).
Proof.
  intros Hinv Hdocs. specialize (Hinv id). unfold handler_ok in Hinv.
  destruct (handlers s !! id) as [[p|p r u|p r u a]|].
  - by destruct Hinv as [? _].
  - by destruct Hinv as (? & _).
  - apply Hinv.
  - by apply Hinv.
Qed.

Lemma calls_of_fresh s id :
  log_ids_inv s → nextRequest s ≤ id → calls_of id (upstream s) = [].
Proof.
  intros Hinv Hid. destruct (calls_of id (upstream s)) as [|e l] eqn:Hc; [done|].
  assert (e ∈ calls_of id (upstream s)) as Hin by (rewrite Hc; by left).
  apply list_elem_of_filter in Hin as [Howner Hin].
  specialize (Hinv e Hin). lia.
Qed.

Lemma wf_fresh s :
  wf s →
  handlers s !! nextRequest s = None ∧
  docs_of (nextRequest s) (collection s) = [] ∧
  replies_of (nextRequest s) (responses s) = [] ∧
  calls_of (nextRequest s) (upstream s) = [].
Proof.
  intros Hwf.
  assert (handlers s !! nextRequest s = None) as Hnone.
  { destruct (handlers s !! nextRequest s) eqn:Hh; [|done].
    pose proof (ids_fresh _ _ _ (wf_ids _ Hwf) (nextRequest s)) as Hlt.
    rewrite Hh in Hlt. specialize (Hlt ltac:(eauto)). lia. }
  pose proof (wf_docs _ Hwf (nextRequest s)) as Hok.
  unfold handler_ok in Hok. rewrite Hnone in Hok.
  destruct Hok as (_ & _ & _ & Hfresh). destruct (Hfresh ltac:(lia)) as [Hd Hr].
  repeat split; try done. apply calls_of_fresh; [apply Hwf|lia].
Qed.

(** ** Induction over the reachable states *)

Lemma reachable_start key t0 : reachable (start key t0).
Proof. by exists key, t0, []. Qed.

Lemma reachable_ind (P : Server → Prop) :
  (∀ key t0, P (start key t0)) →
  (∀ s e s', reachable s → P s → step s e = Some s' → P s') →
  ∀ s, reachable s → P s.
Proof.
  intros Hstart Hstep s (key & t0 & events & Hrun).
  assert (reachable (start key t0) ∧ P (start key t0)) as Hinit
    by (split; [apply reachable_start|apply Hstart]).
  revert Hrun Hinit. generalize (start key t0).
  induction events as [|e rest IH]; intros s0 Hrun [Hreach HP]; simpl in Hrun.
  - by injection Hrun as <-.
  - destruct (step s0 e) as [s1|] eqn:Hs; [|discriminate].
    apply (IH s1 Hrun). split; [by eapply reachable_step|by eapply Hstep].
Qed.

(** ** What the documents hold *)


















(** ** The order in which requests are served *)

Lemma first_attempts_snoc log e :
  first_attempts (log ++ [e]) =
  first_attempts log ++
  match e with
  | CallStart job 0 _ => [owner job]
  | _ => []
  end.
Proof.
  unfold first_attempts. rewrite omap_app. f_equal.
  destruct e as [job [| |] t|job rc t u]; reflexivity.
Qed.

Lemma processQueue_from_served queue s :
  workers s = [] → served_inv s → served_inv (processQueue_from queue s).
Proof.
  intros Hws Hinv Hkey. rewrite processQueue_from_key in Hkey.
  specialize (Hinv Hkey). rewrite Hws, app_nil_r in Hinv.
  destruct queue as [|job rest]; [simpl; by rewrite Hws, app_nil_r|].
  rewrite processQueue_from_cons. simpl. rewrite Hkey.
  case_match; simpl; rewrite Hws, Hinv; simpl.
  - done.
  - by rewrite first_attempts_snoc, app_nil_r.
Qed.

Lemma step_key s e s' :
  step s e = Some s' → GEMINI_API_KEY s' = GEMINI_API_KEY s.
Proof.
  intros Hstep. pattern s, s'.
  eapply step_cases; [..|exact Hstep]; clear; intros; try done.
  - unfold processQueue. case_match; [done|]. by rewrite processQueue_from_key.
  - split_gemini; [|done].
    rewrite processQueue_resume_completed, processQueue_from_key.
    apply (settle_key job (Throw key_error) (unpark i s)).
  - split_gemini; [|done].
    rewrite processQueue_resume_completed, processQueue_from_key.
    apply (settle_key job (Throw key_error) (unpark i s)).
  - destruct (generateTextFromGemini_resume job retryCount u s1) as [w|c];
      [done|].
    rewrite processQueue_resume_completed, processQueue_from_key.
    apply (settle_key job c s1).
  - by destruct (handler_saved_frame _ _ _ _ H) as (Hk & _).
Qed.

Lemma settle_served job c s : served_inv s → served_inv (settle job c s).
Proof.
  unfold served_inv. rewrite settle_key, settle_upstream.
  destruct (settle_fifo job c s) as [_ ->].
  by destruct (settle_workers job c s) as [-> _].
Qed.

Lemma processQueue_resume_served job c s :
  workers s = [] → served_inv s →
  served_inv (processQueue_resume job (Completed c, s)).
Proof.
  intros Hws Hinv. rewrite processQueue_resume_completed.
  apply processQueue_from_served.
  - simpl. by rewrite (proj1 (settle_workers job c s)).
  - apply (settle_served job c s). exact Hinv.
Qed.

Lemma served_inv_step s e s' :
  flag_inv s → retry_inv s → served_inv s → step s e = Some s' → served_inv s'.
Proof.
  intros Hflag Hretry Hinv Hstep. revert Hflag Hretry Hinv. pattern s, s'.
  eapply step_cases; [..|exact Hstep]; clear; intros.
  - exact Hinv.
  - exact Hinv.
  - exact Hinv.
  - unfold processQueue. simpl. unfold flag_inv in Hflag.
    destruct (isProcessing s); [exact Hinv|]. simpl.
    case_match; [exact Hinv|]. apply processQueue_from_served; [apply Hflag|].
    exact Hinv.
  - destruct (flag_inv_worker _ _ _ Hflag H) as (_ & Hws & ->).
    split_gemini.
    + apply processQueue_resume_served; [simpl; by rewrite Hws|].
      intros Hk. simpl in Hk, Hkey. congruence.
    + intros _. specialize (Hinv Hkey). rewrite Hws in Hinv. simpl in Hinv |- *.
      rewrite Hws, Hinv, first_attempts_snoc. simpl. by rewrite app_nil_r.
  - destruct (flag_inv_worker _ _ _ Hflag H) as (_ & Hws & ->).
    pose proof (retry_inv_lookup _ _ _ Hretry H) as [_ Hrc]. 
    split_gemini.
    + apply processQueue_resume_served; [simpl; by rewrite Hws|].
      intros Hk. simpl in Hk, Hkey. congruence.
    + intros _. specialize (Hinv Hkey). rewrite Hws in Hinv. simpl in Hinv |- *.
      rewrite Hws, Hinv, first_attempts_snoc. simpl.
      destruct (retryCount + 1)%Z eqn:Hn; [lia|by rewrite !app_nil_r..].
  - destruct (flag_inv_worker _ _ _ Hflag H) as (_ & Hws & ->).
    assert (served_inv s1) as Hinv1.
    { intros Hk. specialize (Hinv Hk). rewrite Hws in Hinv. simpl in Hinv.
      subst s1. simpl. rewrite Hws, first_attempts_snoc. simpl.
      by rewrite !app_nil_r in *. }
    assert (workers s1 = []) as Hws1 by (subst s1; simpl; by rewrite Hws).
    destruct (generateTextFromGemini_resume_cases job retryCount u s1)
      as [(v & _ & ->) | [(e & _ & _ & Hlt & ->) | [(e & _ & _ & _ & ->)
         | (e & _ & _ & ->)]]]; try by apply processQueue_resume_served.
    intros Hk. specialize (Hinv1 Hk). rewrite Hws1 in Hinv1.
    subst s1. simpl in *. rewrite Hws. simpl. exact Hinv1.
  - destruct (handler_saved_frame _ _ _ _ H) as (Hk&_&_&_&_&Hw&_&Hu&_&Hsh).
    unfold served_inv. by rewrite Hk, Hw, Hu, Hsh.
Qed.

Lemma served_inv_reachable s : reachable s → served_inv s.
Proof.
  apply reachable_ind.
  - by intros key t0 _.
  - intros s0 e s1 Hreach Hinv Hstep. apply wf_reachable in Hreach as Hwf.
    eapply served_inv_step; [apply Hwf|apply Hwf|done..].
Qed.

Lemma processQueue_from_pushed queue s :
  pushed (processQueue_from queue s) = pushed s.
Proof.
  revert s. induction queue as [|job rest IH]; intros s; [done|].
  rewrite processQueue_from_cons. simpl. repeat case_match; try done.
  rewrite IH. simpl.
  by destruct (handler_rejected_cases (owner job) key_error
                 (shift job rest (set_isProcessing true s))) as [-> | ->].
Qed.

Lemma processQueue_resume_pushed job p s :
  pushed (processQueue_resume job (p, s)) = pushed s.
Proof.
  destruct p as [w|c]; [done|].
  rewrite processQueue_resume_completed, processQueue_from_pushed. simpl.
  apply settle_fifo.
Qed.

Lemma increasing_snoc ids n :
  increasing ids → Forall (λ id, id < n) ids → increasing (ids ++ [n]).
Proof.
  intros Hinc Hlt i j a b Hij Hi Hj.
  assert (i < length ids) as Hil.
  { apply lookup_lt_Some in Hj. rewrite length_app in Hj. simpl in Hj. lia. }
  rewrite lookup_app_l in Hi by done.
  destruct (decide (j < length ids)) as [Hjl|Hjl].
  - rewrite lookup_app_l in Hj by done. exact (Hinc i j a b Hij Hi Hj).
  - rewrite lookup_app_r in Hj by lia.
    destruct (j - length ids) as [|k]; simpl in Hj;
      [|by rewrite lookup_nil in Hj].
    injection Hj as <-. by apply (proj1 (Forall_lookup _ _) Hlt i).
Qed.

Lemma arrival_inv_frame s s' :
  pushed s' = pushed s → nextRequest s ≤ nextRequest s' →
  arrival_inv s → arrival_inv s'.
Proof.
  intros Hp Hn [Hinc Hlt]. unfold arrival_inv. rewrite Hp. split; [done|].
  eapply Forall_impl; [exact Hlt|]. simpl. lia.
Qed.

Lemma arrival_inv_step s e s' :
  arrival_inv s → step s e = Some s' → arrival_inv s'.
Proof.
  intros Hinv Hstep. pose proof (step_nextRequest _ _ _ Hstep) as Hnext.
  revert Hinv Hnext. pattern s, s'.
  eapply step_cases; [..|exact Hstep]; clear; intros;
    try (by apply (arrival_inv_frame s)).
  - destruct Hinv as [Hinc Hlt].
    match goal with |- arrival_inv ?t => set (s1 := t) in * end.
    assert (pushed s1 = pushed s ++ [nextRequest s]) as Hp.
    { subst s1. unfold processQueue. case_match; [done|].
      by rewrite processQueue_from_pushed. }
    assert (nextRequest s1 = S (nextRequest s)) as Hn.
    { subst s1. unfold processQueue. case_match; [done|].
      by rewrite processQueue_from_nextRequest. }
    unfold arrival_inv. rewrite Hp, Hn. split; [by apply increasing_snoc|].
    apply Forall_app. split.
    + eapply Forall_impl; [exact Hlt|]. simpl. lia.
    + apply Forall_singleton. lia.
  - apply (arrival_inv_frame s); [|done|done].
    split_gemini; by rewrite processQueue_resume_pushed.
  - apply (arrival_inv_frame s); [|done|done].
    split_gemini; by rewrite processQueue_resume_pushed.
  - apply (arrival_inv_frame s); [|done|done].
    by rewrite processQueue_resume_pushed.
  - apply (arrival_inv_frame s); [|done|done].
    by destruct (handler_saved_frame _ _ _ _ H) as (_&_&_&_&_&_&_&_&Hpu&_).
Qed.

Lemma arrival_inv_reachable s : reachable s → arrival_inv s.
Proof.
  apply reachable_ind.
  - intros key t0. split; [|constructor]. intros i j a b _ Hi. discriminate.
  - intros s0 e s1 _ Hinv Hstep. by eapply arrival_inv_step.
Qed.

(** * The specification, claim by claim *)

(** C1.  What the caller of POST /generate-text1 receives when the upstream
    API answers 429 to the initial attempt and to each of the three retries:
    a 500 with the generic error ["Error generating response"].  The error
    thrown at line 163 carries no [response], so the 429 branch of the
    route handler (lines 217-222, with its [retryAfter] hint) is not the
    one that answers. *)
Theorem rate_limit_answered_500 :
  run (start true t0) exhausted = Some (after exhausted) ∧
  responses (after exhausted) =
    [(0, {| status := 500;
            data := JObj [("error", JStr "Error generating response");
                          ("details",
                           JStr "Rate limit exceeded. Please try again later.")] |})] ∧
  upstream (after exhausted) =
    let job := {| prompt := JStr "hello"; owner := 0 |} in
    [CallStart job 0 t0; CallEnd job 0 t0 too_many_requests;
     CallStart job 1 (t0 + 1000); CallEnd job 1 (t0 + 1000) too_many_requests;
     CallStart job 2 (t0 + 3000); CallEnd job 2 (t0 + 3000) too_many_requests;
     CallStart job 3 (t0 + 7000); CallEnd job 3 (t0 + 7000) too_many_requests].
Proof. split; [|split]; vm_compute; reflexivity. Qed.

(** C2.  The retry policy of [generateTextFromGemini].  Whenever the reply
    to an attempt is a 429: if fewer than [MAX_RETRIES] = 3 retries were
    made, nothing is answered and the worker sleeps
    [INITIAL_RETRY_DELAY * 2 ^ retryCount] ms, that is 1000, 2000 and
    4000 ms before retries 1, 2 and 3; its timer cannot fire before that
    delay has passed, and when it fires the same job (the same prompt) is
    posted again with [retryCount + 1].  The counter never exceeds
    [MAX_RETRIES]; once it has reached it there is no further retry and
    the promise of the job is rejected with the error ["Rate limit
    exceeded. Please try again later."].  In the log of upstream calls
    every retry follows the 429 it answers by at least its delay. *)
Theorem retry_backoff s i job retryCount :
  reachable s →
  (∀ body,
     workers s !! i = Some (AtAxiosPost job retryCount) →
     (0 ≤ retryCount ≤ MAX_RETRIES)%Z ∧
     ∃ s', step s (AxiosSettles i
                     (HttpReply {| status := 429; data := body |})) = Some s' ∧
       if (retryCount <? MAX_RETRIES)%Z then
         workers s' =
           [AtRetryDelay job retryCount
              (now s + INITIAL_RETRY_DELAY * 2 ^ retryCount)] ∧
         responses s' = responses s
       else
         responses s' =
           responses s ++ [(owner job, error_reply rate_limit_error)] ∧
         message rate_limit_error =
           "Rate limit exceeded. Please try again later." ∧
         ∀ w, w ∈ workers s' → owner (worker_job w) ≠ owner job) ∧
  (∀ deadline,
     workers s !! i = Some (AtRetryDelay job retryCount deadline) →
     (0 ≤ retryCount < MAX_RETRIES)%Z ∧
     ((now s < deadline)%Z → step s (TimerFires i) = None) ∧
     ((deadline ≤ now s)%Z →
      ∃ s', step s (TimerFires i) = Some s' ∧
            workers s' = [AtAxiosPost job (retryCount + 1)] ∧
            upstream s' =
              upstream s ++ [CallStart job (retryCount + 1) (now s)])) ∧
  retries_backed_off (upstream s) ∧
  map (λ n, INITIAL_RETRY_DELAY * 2 ^ n)%Z [0; 1; 2]%Z = [1000; 2000; 4000]%Z.
Proof.
  intros Hreach. apply wf_reachable in Hreach as Hwf.
  split; [|split; [|split; [apply wf_backoff, Hwf|reflexivity]]].
  - intros body Hi.
    destruct (wf_posting _ _ _ _ Hwf Hi) as (Hkey & Hrc & Hw & -> & Hh).
    split; [exact Hrc|].
    pose proof (step_axios s 0 job retryCount
                  (HttpReply {| status := 429; data := body |}) Hi) as Hstep.
    rewrite generateTextFromGemini_resume_429 in Hstep.
    eexists. split; [exact Hstep|].
    pose proof (wf_step _ _ _ Hwf Hstep) as Hwf'.
    destruct (retryCount <? MAX_RETRIES)%Z eqn:Hlt.
    + simpl. by rewrite Hw.
    + match goal with
      | |- context [processQueue_resume job (Completed (Throw ?e), ?t)] =>
          destruct (processQueue_resume_rejected job e t Hkey Hh)
            as (Hr & _ & Hd & _)
      end.
      split; [exact Hr|]. split; [reflexivity|].
      intros w Hin Howner.
      pose proof (ids_waiting _ _ _ (wf_ids _ Hwf') (worker_job w)) as Hwait.
      rewrite Hd, Howner in Hwait. simpl in Hwait.
      rewrite lookup_delete_eq in Hwait. discriminate Hwait.
      unfold jobs. apply elem_of_app. left. by apply list_elem_of_fmap_2.
  - intros deadline Hi.
    destruct (wf_retrying _ _ _ _ _ Hwf Hi) as (Hkey & Hrc & Hw & ->).
    split; [exact Hrc|]. split.
    + intros Hearly. unfold step. rewrite Hi.
      by rewrite bool_decide_false by lia.
    + intros Hdue. eexists. split.
      { unfold step. rewrite Hi. by rewrite bool_decide_true by done. }
      unfold generateTextFromGemini. simpl. rewrite Hkey. simpl.
      by rewrite Hw.
Qed.

Lemma retry_backoff_witness :
  reachable (after [Request hello]) ∧
  workers (after [Request hello]) !! 0 =
    Some (AtAxiosPost {| prompt := JStr "hello"; owner := 0 |} 0) ∧
  ∃ s', step (after [Request hello]) (AxiosSettles 0 too_many_requests)
          = Some s' ∧
        workers s' =
          [AtRetryDelay {| prompt := JStr "hello"; owner := 0 |} 0 (t0 + 1000)].
Proof.
  assert (reachable (after [Request hello])) as Hreach
    by (exists true, t0, [Request hello]; vm_compute; reflexivity).
  split; [exact Hreach|]. split; [reflexivity|].
  destruct (retry_backoff (after [Request hello]) 0
              {| prompt := JStr "hello"; owner := 0 |} 0 Hreach)
    as (Hpost & _).
  destruct (Hpost (JObj [("error", JObj [("code", JNum 429);
                                         ("status", JStr "RESOURCE_EXHAUSTED")])])
              eq_refl) as (_ & s' & Hstep & Hw & _).
  exists s'. split; [exact Hstep|exact Hw].
Defined.

(** C3, as stated, fails.  A retry is posted 1000 ms after the 429 that
    caused it, and the next queued request is posted right after a call
    that failed: in both runs two consecutive upstream calls are closer
    than [RATE_LIMIT_DELAY]. *)
Lemma spacing_counterexample :
  let first := {| prompt := JStr "hello"; owner := 0 |} in
  let second := {| prompt := JStr "hello"; owner := 1 |} in
  (run (start true t0) retried_once = Some (after retried_once) ∧
   upstream (after retried_once) =
     [CallStart first 0 t0; CallEnd first 0 t0 too_many_requests;
      CallStart first 1 (t0 + 1000)] ∧
   ¬ spaced RATE_LIMIT_DELAY (upstream (after retried_once))) ∧
  (run (start true t0) failed_then_next = Some (after failed_then_next) ∧
   upstream (after failed_then_next) =
     [CallStart first 0 t0; CallEnd first 0 t0 unavailable;
      CallStart second 0 t0] ∧
   ¬ spaced RATE_LIMIT_DELAY (upstream (after failed_then_next))).
Proof.
  intros first second. split.
  - split; [vm_compute; reflexivity|]. split; [vm_compute; reflexivity|].
    intros Hsp.
    specialize (Hsp 1 first 0%Z t0 too_many_requests first 1%Z (t0 + 1000)%Z).
    assert (t0 + RATE_LIMIT_DELAY ≤ t0 + 1000)%Z as Hle
      by (apply Hsp; vm_compute; reflexivity).
    unfold RATE_LIMIT_DELAY in Hle. lia.
  - split; [vm_compute; reflexivity|]. split; [vm_compute; reflexivity|].
    intros Hsp.
    specialize (Hsp 1 first 0%Z t0 unavailable second 0%Z t0).
    assert (t0 + RATE_LIMIT_DELAY ≤ t0)%Z as Hle
      by (apply Hsp; vm_compute; reflexivity).
    unfold RATE_LIMIT_DELAY in Hle. lia.
Qed.

(** C3, as the code has it.  The first upstream call made for a request
    starts at least [RATE_LIMIT_DELAY] = 5000 ms after the completion of
    every earlier upstream call that succeeded.  A retry is the call that
    comes right after the 429 it answers, and it starts no earlier than
    [INITIAL_RETRY_DELAY * 2 ^ k] ms after it, [k] being the number of
    retries made before. *)
Theorem upstream_calls_spaced s :
  reachable s →
  first_attempts_spaced (upstream s) ∧ retries_backed_off (upstream s).
Proof.
  intros Hreach. apply wf_reachable in Hreach as Hwf.
  split; [apply wf_timing, Hwf|apply wf_backoff, Hwf].
Qed.

Lemma upstream_calls_spaced_witness :
  reachable (after served_then_next) ∧
  (t0 + RATE_LIMIT_DELAY ≤ t0 + 5000)%Z.
Proof.
  assert (reachable (after served_then_next)) as Hreach
    by (exists true, t0, served_then_next; vm_compute; reflexivity).
  split; [exact Hreach|].
  destruct (upstream_calls_spaced (after served_then_next) Hreach)
    as [Hfirst _].
  apply (Hfirst 1 2
           {| prompt := JStr "hello"; owner := 0 |} 0%Z t0
           (gemini_says (JObj [("text", JStr "Hi!")]))
           {| prompt := JStr "hello"; owner := 1 |} (t0 + 5000)%Z);
    [lia|vm_compute; reflexivity..].
Defined.




(** C5.  A request of POST /generate-text1 that was answered 200 has
    exactly two documents in the collection, in this order: the user
    message, then the message of the model; the timestamp of the second is
    not earlier than that of the first.  The response echoes the prompt and
    the generated text as the handler has them, and carries the timestamp of
    the user message; the documents hold what the schema's [String] cast
    makes of the prompt and of the text. *)
Theorem two_documents_per_exchange s id r :
  reachable s →
  (id, r) ∈ responses s → status r = 200%Z →
  ∃ u a p text,
    docs_of id (collection s) = [u; a] ∧
    role u = "user" ∧ role a = "Alan-Ai" ∧
    (intime u ≤ intime a)%Z ∧
    r = success_reply p u text ∧
    castString p = Some (content u) ∧ castString text = Some (content a).
Proof.
  intros Hreach Hin Hstatus. apply wf_reachable in Hreach as Hwf.
  pose proof (wf_docs _ Hwf id) as Hok. unfold handler_ok in Hok.
  apply replies_of_elem in Hin.
  destruct (handlers s !! id) as [[p|p rsp u|p rsp u a]|].
  - destruct Hok as [_ Hr]. rewrite Hr in Hin. by apply elem_of_nil in Hin.
  - destruct Hok as (_ & Hr & _). rewrite Hr in Hin. by apply elem_of_nil in Hin.
  - destruct Hok as (_ & Hr & _). rewrite Hr in Hin. by apply elem_of_nil in Hin.
  - destruct Hok as (Hshape & _ & Hreply & _).
    destruct (Hreply r Hin Hstatus) as (u & a & p & text & Hdocs & -> & Hu & Ha).
    exists u, a, p, text. rewrite Hdocs in Hshape |- *.
    inversion Hshape as [| |u' a' (Hru & Hra & Htime)]; subst.
    split; [done|]. split; [done|]. split; [done|]. split; [done|].
    split; [done|]. split; [exact Hu|exact Ha].
Qed.

Lemma two_documents_per_exchange_witness :
  reachable (after numeric) ∧
  ∃ u a p text,
    docs_of 0 (collection (after numeric)) = [u; a] ∧
    role u = "user" ∧ role a = "Alan-Ai" ∧ (intime u ≤ intime a)%Z ∧
    p = JNum 42 ∧ text = JStr "Hi!" ∧
    content u = JStr "42" ∧ content a = JStr "Hi!" ∧
    intime u = t0 ∧ intime a = (t0 + 12)%Z.
Proof.
  assert (reachable (after numeric)) as Hreach
    by (exists true, t0, numeric; vm_compute; reflexivity).
  split; [exact Hreach|].
  destruct (two_documents_per_exchange (after numeric) 0
              {| status := 200;
                 data := JObj [("userInput", JNum 42);
                               ("time", JDate t0);
                               ("gpt3Response", JStr "Hi!")] |} Hreach)
    as (u & a & p & text & Hdocs & Hu & Ha & Htime & Hr & Hcu & Hca);
    [vm_compute; left|reflexivity|].
  exists u, a, p, text. split; [exact Hdocs|].
  vm_compute in Hdocs. injection Hdocs as <- <-.
  injection Hr as <- <-.
  vm_compute. repeat split; discriminate.
Defined.

(** C6. A request whose body has no [prompt] field, or an empty one, is
    answered 400 with an error body in the turn it arrives in; no call to
    the upstream API is made, no document is saved, and nothing is left
    pending for it: it is not queued and no handler or worker waits on its
    behalf.  On a running server this stays so whatever happens next: no
    upstream call is ever made and no document ever saved for it, and the
    400 is its only response. *)
Theorem prompt_required s fields :
  lookup_field "prompt" fields = JUndefined ∨
  lookup_field "prompt" fields = JStr "" →
  let id := nextRequest s in
  let bad_request :=
    {| status := 400; data := JObj [("error", JStr "Prompt is required")] |} in
  ∃ s', step s (Request (JObj fields)) = Some s' ∧
        responses s' = responses s ++ [(id, bad_request)] ∧
        upstream s' = upstream s ∧
        collection s' = collection s ∧
        requestQueue s' = requestQueue s ∧
        workers s' = workers s ∧
        handlers s' !! id = None ∧
        (reachable s →
         ∀ events s'', run s' events = Some s'' →
           calls_of id (upstream s'') = [] ∧
           docs_of id (collection s'') = [] ∧
           replies_of id (responses s'') = [bad_request]).
Proof.
  intros Hprompt id bad_request.
  assert (step s (Request (JObj fields)) =
          Some (respond id bad_request (set_nextRequest (S id) s))) as Hstep.
  { unfold step, post_generate_text1. simpl. by destruct Hprompt as [-> | ->]. }
  eexists. split; [exact Hstep|]. simpl.
  do 5 (split; [reflexivity|]). split; [apply lookup_delete_eq|].
  intros Hreach events s'' Hrun.
  apply wf_reachable in Hreach as Hwf.
  destruct (wf_fresh s Hwf) as (_ & Hd & Hr & Hc).
  destruct (run_untouched id _ events s'' (wf_step _ _ _ Hwf Hstep) Hrun)
    as (_ & -> & -> & ->).
  - simpl. apply lookup_delete_eq.
  - simpl. unfold id. lia.
  - simpl. rewrite replies_of_snoc, decide_True by done.
    fold id in Hd, Hr, Hc. by rewrite Hd, Hr, Hc.
Qed.

Lemma prompt_required_witness :
  lookup_field "prompt" [("promt", JStr "typo")] = JUndefined ∧
  ∃ s', step (after [Request hello]) (Request (JObj [("promt", JStr "typo")]))
          = Some s' ∧
        responses s' =
          [(1, {| status := 400;
                  data := JObj [("error", JStr "Prompt is required")] |})] ∧
        upstream s' = upstream (after [Request hello]) ∧
        collection s' = [].
Proof.
  split; [reflexivity|].
  destruct (prompt_required (after [Request hello]) [("promt", JStr "typo")])
    as (s' & Hstep & Hr & Hu & Hc & _); [by left|].
  exists s'. split; [exact Hstep|]. split; [exact Hr|]. split; [exact Hu|exact Hc].
Defined.

(** C7. An upstream failure that carries an HTTP status other than 429 (a
    reply that axios rejects: a status from 100 to 599 outside 2xx) is
    passed through: the response of POST /generate-text1 has that same
    status and the upstream body as its [details]; a failure without any
    upstream status (no reply at all) becomes a generic 500. *)
Theorem upstream_failure_passthrough s i job retryCount :
  reachable s →
  workers s !! i = Some (AtAxiosPost job retryCount) →
  (∀ st body, (100 ≤ st ≤ 599)%Z → ¬ (200 ≤ st < 300)%Z → st ≠ 429%Z →
     ∃ s', step s (AxiosSettles i (HttpReply {| status := st; data := body |}))
             = Some s' ∧
           responses s' = responses s ++
             [(owner job,
               {| status := st;
                  data := JObj [("error", JStr "Gemini API Error");
                                ("details", body)] |})]) ∧
  (∀ msg,
     ∃ s', step s (AxiosSettles i (NoReply msg)) = Some s' ∧
           responses s' = responses s ++
             [(owner job,
               {| status := 500;
                  data := JObj [("error", JStr "Error generating response");
                                ("details", JStr msg)] |})]).
Proof.
  intros Hreach Hi. apply wf_reachable in Hreach as Hwf.
  destruct (wf_posting _ _ _ _ Hwf Hi) as (Hkey & Hrc & Hw & -> & Hh).
  split.
  - intros st body _ H2xx H429. eexists. split.
    { unfold step. rewrite Hi. reflexivity. }
    erewrite generateTextFromGemini_resume_rethrow;
      [|by apply attempt_http_error
       |unfold response_status_is; simpl; by apply Z.eqb_neq].
    match goal with
    | |- context [processQueue_resume job (Completed (Throw ?e), ?t)] =>
        destruct (processQueue_resume_rejected job e t Hkey Hh) as (-> & _)
    end.
    unfold error_reply. simpl.
    by rewrite (proj2 (Z.eqb_neq st 429)) by done.
  - intros msg. eexists. split.
    { unfold step. rewrite Hi. reflexivity. }
    erewrite generateTextFromGemini_resume_rethrow; [|reflexivity..].
    match goal with
    | |- context [processQueue_resume job (Completed (Throw ?e), ?t)] =>
        destruct (processQueue_resume_rejected job e t Hkey Hh) as (-> & _)
    end.
    done.
Qed.

Lemma upstream_failure_passthrough_witness :
  reachable (after [Request hello]) ∧
  workers (after [Request hello]) !! 0 =
    Some (AtAxiosPost {| prompt := JStr "hello"; owner := 0 |} 0) ∧
  ∃ s', step (after [Request hello]) (AxiosSettles 0 unavailable) = Some s' ∧
        responses s' =
          [(0, {| status := 503;
                  data := JObj [("error", JStr "Gemini API Error");
                                ("details", JStr "overloaded")] |})].
Proof.
  assert (reachable (after [Request hello])) as Hreach
    by (exists true, t0, [Request hello]; vm_compute; reflexivity).
  split; [exact Hreach|]. split; [reflexivity|].
  destruct (upstream_failure_passthrough (after [Request hello]) 0
              {| prompt := JStr "hello"; owner := 0 |} 0 Hreach eq_refl)
    as [Hstatus _].
  apply (Hstatus 503%Z (JStr "overloaded")); lia.
Defined.

(** C8.  At every point of an execution at most one upstream request is in
    flight and at most one activation of [processQueue] is under way;
    [isProcessing] is set exactly then, and a call of [processQueue] while
    it is set does nothing.  Jobs leave the queue in the order they entered
    it: what was shifted so far, followed by what is still queued, is what
    was pushed, and request numbers were pushed in increasing order.  The
    queue is drained: whenever [isProcessing] is clear the queue is empty.
    What was shifted is what was served: with the API key set, the jobs
    shifted so far are, in this order, those whose first upstream call has
    started, followed by the one that waits for the rate limit. *)
Theorem one_worker_fifo s :
  reachable s →
  in_flight s ≤ 1 ∧
  length (workers s) ≤ 1 ∧
  (isProcessing s = true ↔ length (workers s) = 1) ∧
  (isProcessing s = true → processQueue s = s) ∧
  pushed s = shifted s ++ map owner (requestQueue s) ∧
  (isProcessing s = false → requestQueue s = []) ∧
  increasing (pushed s) ∧
  (GEMINI_API_KEY s = true →
   shifted s = first_attempts (upstream s) ++ waiting (workers s)).
Proof.
  intros Hreach.
  pose proof (served_inv_reachable s Hreach) as Hserved.
  pose proof (arrival_inv_reachable s Hreach) as [Hinc _].
  apply wf_reachable in Hreach as [Hflag _ Hfifo _ _ _ _ _].
  assert (length (workers s) ≤ 1 ∧
          (isProcessing s = true ↔ length (workers s) = 1) ∧
          (isProcessing s = false → requestQueue s = [])) as (Hlen & Hiff & Hidle).
  { unfold flag_inv in Hflag. destruct (isProcessing s).
    - destruct Hflag as [w ->]. simpl. split; [lia|]. split; [done|discriminate].
    - destruct Hflag as [-> Hq]. simpl. split; [lia|]. split; [|done].
      split; discriminate. }
  split; [|split; [exact Hlen|split; [exact Hiff|split; [|split;
    [exact Hfifo|split; [exact Hidle|split; [exact Hinc|exact Hserved]]]]]]].
  - unfold in_flight.
    pose proof (length_filter (λ w, is_posting w = true) (workers s)). lia.
  - intros Hp. unfold processQueue. by rewrite Hp.
Qed.

Lemma one_worker_fifo_witness :
  reachable (after served_then_next) ∧
  in_flight (after served_then_next) ≤ 1 ∧
  pushed (after served_then_next) =
    shifted (after served_then_next) ++
    map owner (requestQueue (after served_then_next)) ∧
  shifted (after served_then_next) =
    first_attempts (upstream (after served_then_next)) ++
    waiting (workers (after served_then_next)) ∧
  pushed (after served_then_next) = [0; 1] ∧
  first_attempts (upstream (after served_then_next)) = [0; 1] ∧
  requestQueue (after served_then_next) = [].
Proof.
  assert (reachable (after served_then_next)) as Hreach
    by (exists true, t0, served_then_next; vm_compute; reflexivity).
  destruct (one_worker_fifo _ Hreach)
    as (Hflight & _ & _ & _ & Hfifo & _ & _ & Hserved).
  split; [exact Hreach|]. split; [exact Hflight|]. split; [exact Hfifo|].
  split; [apply Hserved; vm_compute; reflexivity|].
  split; [vm_compute; reflexivity|]. split; vm_compute; reflexivity.
Defined.

(** C9.  What the server does with a 200 reply of the upstream API whose
    first candidate has content but whose first part has no [text]: the
    reply passes the validation of line 136, the request succeeds, and
    [gpt3Response] is [undefined] in the object given to [res.json] (and
    the content of the stored model message is [undefined] too). *)
Theorem textless_reply_answered_200 :
  run (start true t0) textless = Some (after textless) ∧
  responses (after textless) =
    [(0, {| status := 200;
            data := JObj [("userInput", JStr "hello");
                          ("time", JDate t0);
                          ("gpt3Response", JUndefined)] |})] ∧
  collection (after textless) =
    [(0, {| role := "user"; content := JStr "hello"; intime := t0 |});
     (0, {| role := "Alan-Ai"; content := JUndefined; intime := t0 |})].
Proof. split; [|split]; vm_compute; reflexivity. Qed.

(** C10.  Documents are saved for a request only after one of its upstream
    calls has succeeded.  When [generateTextFromGemini] gives up on a
    request, after any retries, the request is answered with the error in
    that same turn and no document is ever saved for it: whatever happens
    next, its user message is not in the collection, nor is a message of
    the model, and no further upstream call is made for it. *)
Theorem failed_request_stores_nothing s :
  reachable s →
  (∀ id, docs_of id (collection s) ≠ [] → succeeded id (upstream s)) ∧
  (∀ i job retryCount u error s' events s'',
     workers s !! i = Some (AtAxiosPost job retryCount) →
     generateTextFromGemini_resume job retryCount u s =
       Completed (Throw error) →
     step s (AxiosSettles i u) = Some s' →
     run s' events = Some s'' →
     docs_of (owner job) (collection s'') = [] ∧
     replies_of (owner job) (responses s'') = [error_reply error] ∧
     calls_of (owner job) (upstream s'') = calls_of (owner job) (upstream s')).
Proof.
  intros Hreach. apply wf_reachable in Hreach as Hwf. split.
  - intros id. apply docs_inv_succeeded, Hwf.
  - intros i job retryCount u error s' events s'' Hi Hres Hstep Hrun.
    destruct (wf_posting _ _ _ _ Hwf Hi) as (Hkey & Hrc & Hw & -> & Hh).
    pose proof (wf_step _ _ _ Hwf Hstep) as Hwf'.
    pose proof (step_nextRequest _ _ _ Hstep) as Hnext.
    rewrite (step_axios _ _ _ _ _ Hi) in Hstep.
    erewrite generateTextFromGemini_resume_completed in Hstep by exact Hres.
    match type of Hstep with
    | Some ?x = Some _ => assert (x = s') as Hs' by congruence
    end.
    match type of Hs' with
    | processQueue_resume job (Completed (Throw ?e), ?t) = _ =>
        destruct (processQueue_resume_rejected job e t Hkey Hh)
          as (Hr & Hc & Hd & _)
    end.
    rewrite Hs' in Hr, Hc, Hd. simpl in Hr, Hc, Hd.
    pose proof (wf_docs _ Hwf (owner job)) as Hok.
    unfold handler_ok in Hok. rewrite Hh in Hok. destruct Hok as [Hdocs Hreplies].
    assert (owner job < nextRequest s) as Hlt
      by (apply (ids_fresh _ _ _ (wf_ids _ Hwf)); rewrite Hh; eauto).
    destruct (run_untouched (owner job) s' events s'' Hwf' Hrun)
      as (_ & -> & -> & ->).
    + rewrite Hd. apply lookup_delete_eq.
    + lia.
    + rewrite Hc, Hr, replies_of_snoc, decide_True by done.
      by rewrite Hdocs, Hreplies.
Qed.

Lemma failed_request_stores_nothing_witness :
  reachable (after [Request hello]) ∧
  ∃ s' s'',
    step (after [Request hello]) (AxiosSettles 0 unavailable) = Some s' ∧
    run s' [Tick 100; Request hello] = Some s'' ∧
    docs_of 0 (collection s'') = [] ∧
    replies_of 0 (responses s'') =
      [{| status := 503;
          data := JObj [("error", JStr "Gemini API Error");
                        ("details", JStr "overloaded")] |}].
Proof.
  assert (reachable (after [Request hello])) as Hreach
    by (exists true, t0, [Request hello]; vm_compute; reflexivity).
  split; [exact Hreach|].
  destruct (failed_request_stores_nothing (after [Request hello]) Hreach)
    as [_ Hfail].
  exists (after [Request hello; AxiosSettles 0 unavailable]),
         (after [Request hello; AxiosSettles 0 unavailable;
                 Tick 100; Request hello]).
  split; [vm_compute; reflexivity|]. split; [vm_compute; reflexivity|].
  destruct (Hfail 0 {| prompt := JStr "hello"; owner := 0 |} 0%Z unavailable
              {| name := "AxiosError";
                 message := "Request failed with status code 503";
                 response := Some {| status := 503; data := JStr "overloaded" |} |}
              (after [Request hello; AxiosSettles 0 unavailable])
              [Tick 100; Request hello]
              (after [Request hello; AxiosSettles 0 unavailable;
                      Tick 100; Request hello]))
    as (Hdocs & Hreplies & _); [vm_compute; reflexivity..|].
  split; [exact Hdocs|exact Hreplies].
Defined.

(** * Further properties of the server *)

(** ** What [generateTextFromGemini] returns is what the handler reads *)

Lemma bind_normal {A B} (c : Completion A) (k : A → Completion B) b :
  c ≫= k = Normal b → ∃ a, c = Normal a ∧ k a = Normal b.
Proof.
  destruct c as [a|e]; unfold mbind, completion_bind; intros H;
    [by exists a|discriminate].
Qed.

Lemma bind_ret {A B} (a : A) (k : A → Completion B) : Normal a ≫= k = k a.
Proof. reflexivity. Qed.

Lemma generateTextFromGemini_try_normal r v :
  generateTextFromGemini_try r = Normal v →
  ∃ text,
    reply_text r = Normal text ∧
    v = JObj [("choices",
           JArr [JObj [("message", JObj [("content", text)])]])].
Proof.
  unfold generateTextFromGemini_try, reply_text. intros H.
  apply bind_normal in H as (candidates & Hc & H). rewrite Hc, bind_ret.
  destruct (truthy candidates); [|discriminate]. simpl in H.
  apply bind_normal in H as (candidate & Hc0 & H). rewrite Hc0, bind_ret.
  destruct (truthy candidate); [|discriminate]. simpl in H.
  apply bind_normal in H as (content & Hct & H). rewrite Hct, bind_ret.
  destruct (truthy content); [|discriminate]. simpl in H.
  apply bind_normal in H as (parts & Hp & H). rewrite Hp, bind_ret.
  apply bind_normal in H as (part & Hp0 & H). rewrite Hp0, bind_ret.
  apply bind_normal in H as (text & Htext & H).
  exists text. split; [exact Htext|]. by injection H as <-.
Qed.

(** X1 (lines 136-146, 199, 207).  Whatever [generateTextFromGemini]
    returns for a reply, the handler's [response.choices[0].message.content]
    reads without throwing, and it is the value of
    [candidates[0].content.parts[0].text] in that reply. *)
Theorem returned_text_is_read r v :
  generateTextFromGemini_try r = Normal v →
  ∃ text, reply_text r = Normal text ∧ choice_content v = Normal text.
Proof.
  intros H. apply generateTextFromGemini_try_normal in H as (text & Ht & ->).
  by exists text.
Qed.

Lemma returned_text_is_read_witness :
  ∃ text,
    reply_text
      {| status := 200;
         data := JObj [("candidates",
                   JArr [JObj [("content",
                     JObj [("parts", JArr [JObj [("text", JStr "Hi!")]])])]])] |}
      = Normal text ∧
    choice_content
      (JObj [("choices",
         JArr [JObj [("message", JObj [("content", JStr "Hi!")])]])])
      = Normal text.
Proof.
  apply (returned_text_is_read
           {| status := 200;
              data := JObj [("candidates",
                        JArr [JObj [("content",
                          JObj [("parts", JArr [JObj [("text", JStr "Hi!")]])])]])] |}).
  reflexivity.
Defined.

(** ** The responses the server sends *)

Lemma replies_inv_respond id r s :
  replies_inv s → reply_kind r → replies_inv (respond id r s).
Proof.
  intros Hinv Hr. unfold replies_inv in *. simpl.
  apply Forall_app. split; [exact Hinv|]. by repeat constructor.
Qed.

Lemma replies_inv_ext s s' :
  replies_inv s → responses s' = responses s → replies_inv s'.
Proof. unfold replies_inv. by intros H ->. Qed.

Lemma handler_error_plain e : response e = None → handler_error e.
Proof. unfold handler_error. by intros ->. Qed.

Lemma replies_inv_rejected id e s :
  replies_inv s → handler_error e → replies_inv (handler_rejected id e s).
Proof.
  intros Hinv He.
  destruct (handler_rejected_cases id e s) as [-> | ->]; [done|].
  apply replies_inv_respond; [done|by constructor].
Qed.

Lemma replies_inv_settle job c s :
  replies_inv s →
  match c with Normal _ => True | Throw e => handler_error e end →
  replies_inv (settle job c s).
Proof.
  intros Hinv Hc. destruct c as [response|error]; simpl.
  - by destruct (handler_resolved_cases (owner job) response
                   (set_lastRequestTime (now s) s)) as [-> | (p & _ & ->)].
  - by apply replies_inv_rejected.
Qed.

Lemma processQueue_from_replies queue s :
  replies_inv s → replies_inv (processQueue_from queue s).
Proof.
  revert s. induction queue as [|job rest IH]; intros s Hinv; [exact Hinv|].
  rewrite processQueue_from_cons. simpl. repeat case_match; try exact Hinv.
  apply IH.
  apply (replies_inv_rejected (owner job) key_error
           (shift job rest (set_isProcessing true s))); [exact Hinv|done].
Qed.

Lemma processQueue_replies s : replies_inv s → replies_inv (processQueue s).
Proof.
  intros H. unfold processQueue. case_match; [exact H|].
  by apply processQueue_from_replies.
Qed.

Lemma processQueue_resume_replies job p s :
  replies_inv s →
  match p with
  | Completed (Throw e) => handler_error e
  | _ => True
  end →
  replies_inv (processQueue_resume job (p, s)).
Proof.
  intros Hinv Hp. destruct p as [w|c]; [exact Hinv|].
  rewrite processQueue_resume_completed.
  apply processQueue_from_replies.
  apply (replies_inv_ext (settle job c s)); [|done].
  apply replies_inv_settle; [done|by destruct c].
Qed.

(** What [generateTextFromGemini] throws is not a 429 any more. *)
Lemma generateTextFromGemini_resume_error job retryCount u s e :
  generateTextFromGemini_resume job retryCount u s = Completed (Throw e) →
  handler_error e.
Proof.
  intros H.
  destruct (generateTextFromGemini_resume_cases job retryCount u s)
    as [(v & _ & Hr) | [(e' & _ & _ & _ & Hr) | [(e' & _ & _ & _ & Hr)
       | (e' & Ha & H429 & Hr)]]]; rewrite Hr in H; inversion H; subst.
  - done.
  - apply attempt_throw in Ha. unfold handler_error, response_status_is in *.
    destruct (response e) as [r|]; [|done]. split; [done|].
    by apply Z.eqb_neq.
Qed.

Lemma replies_inv_step s e s' : replies_inv s → step s e = Some s' → replies_inv s'.
Proof.
  intros Hinv Hstep. revert Hinv. pattern s, s'.
  eapply step_cases; [..|exact Hstep]; clear; intros.
  - exact Hinv.
  - apply replies_inv_respond; [exact Hinv|constructor].
  - apply replies_inv_respond; [exact Hinv|constructor].
  - apply processQueue_replies. exact Hinv.
  - split_gemini; by apply processQueue_resume_replies.
  - split_gemini; by apply processQueue_resume_replies.
  - apply processQueue_resume_replies; [exact Hinv|].
    destruct (generateTextFromGemini_resume job retryCount u s1)
      as [w|[v|e]] eqn:Hres; try done.
    by eapply generateTextFromGemini_resume_error.
  - unfold handler_saved in H.
    repeat case_match; try discriminate; injection H as <-;
      (apply (replies_inv_respond _ _ (insert_doc _ _ _))
       || apply replies_inv_respond || idtac);
      try exact Hinv;
      first [ by constructor
            | constructor; eapply handler_error_plain, choice_content_throw;
              eassumption
            | by constructor; apply handler_error_plain ].
Qed.

Lemma replies_inv_reachable s : reachable s → replies_inv s.
Proof.
  intros (key & t0 & events & Hrun).
  assert (replies_inv (start key t0)) as Hstart by constructor.
  revert Hrun Hstart. generalize (start key t0).
  induction events as [|e rest IH]; intros s0 Hrun Hinv; simpl in Hrun.
  - by injection Hrun as <-.
  - destruct (step s0 e) as [s1|] eqn:Hstep; [|discriminate].
    eapply IH; [exact Hrun|]. by eapply replies_inv_step.
Qed.

Lemma reply_kind_shape r : reply_kind r → reply_shape r.
Proof.
  intros [|e He|p u text|msg]; unfold reply_shape.
  - by left.
  - right. right. unfold error_reply, handler_error in *.
    destruct (response e) as [r0|].
    + destruct He as [H2xx H429]. right. left.
      rewrite (proj2 (Z.eqb_neq _ _) H429). by exists (status r0), (data r0).
    + left. destruct (String.eqb (name e) "MongoError").
      * exists "Database Error", (message e). auto.
      * exists "Error generating response", (message e). auto.
  - right. left. by exists p, u, text.
  - do 4 right. by exists msg.
Qed.

Lemma reply_shape_status r :
  reply_shape r →
  status r ≠ 429%Z ∧ ((200 ≤ status r < 300)%Z → status r = 200%Z).
Proof.
  intros [-> | [(p & u & text & ->) | [(label & msg & _ & ->)
         | [(st & body & H2xx & H429 & ->) | (msg & ->)]]]]; simpl; split; lia.
Qed.

Lemma replies_inv_elem s id r :
  replies_inv s → (id, r) ∈ responses s → reply_kind r.
Proof.
  unfold replies_inv. rewrite Forall_forall. intros H Hin. apply (H _ Hin).
Qed.

(** X2 (lines 51, 155-167, 171-249).  Every response to a request of
    POST /generate-text1 has one of five shapes: the 400 for a missing
    prompt, the 200 with the exchange, a 500 labelled ["Database Error"] or
    ["Error generating response"], the status and body of an upstream reply
    that was neither 2xx nor 429, or, for a body that [bodyParser.json()]
    rejected, the 500 ["Internal Server Error"] of the error middleware.
    The server never answers 429: the branch of the handler that carries
    [retryAfter] is never taken. *)
Theorem responses_catalogue s id r :
  reachable s → (id, r) ∈ responses s →
  reply_shape r ∧ status r ≠ 429%Z ∧
  ((200 ≤ status r < 300)%Z → status r = 200%Z).
Proof.
  intros Hreach Hin.
  assert (reply_shape r) as Hshape
    by (eapply reply_kind_shape, replies_inv_elem;
        [by apply replies_inv_reachable|exact Hin]).
  split; [exact Hshape|]. by apply reply_shape_status.
Qed.

Lemma responses_catalogue_witness :
  reachable (after (exhausted ++ [BodyRejected "request entity too large"])) ∧
  responses (after (exhausted ++ [BodyRejected "request entity too large"])) =
    [(0, {| status := 500;
            data := JObj [("error", JStr "Error generating response");
                          ("details",
                           JStr "Rate limit exceeded. Please try again later.")] |});
     (1, {| status := 500;
            data := JObj [("error", JStr "Internal Server Error");
                          ("details", JStr "request entity too large")] |})] ∧
  reply_shape
    {| status := 500;
       data := JObj [("error", JStr "Internal Server Error");
                     ("details", JStr "request entity too large")] |}.
Proof.
  assert (reachable (after (exhausted ++ [BodyRejected "request entity too large"])))
    as Hreach
    by (exists true, t0, (exhausted ++ [BodyRejected "request entity too large"]);
        vm_compute; reflexivity).
  split; [exact Hreach|]. split; [vm_compute; reflexivity|].
  apply (responses_catalogue _ 1 _ Hreach).
  vm_compute. right. left.
Defined.

(** ** A request is answered once *)

Lemma replies_of_nil id (rs : list (nat * HttpResponse)) :
  replies_of id rs = [] → id ∉ rs.*1.
Proof.
  intros Hnil Hin. apply list_elem_of_fmap in Hin as ([id' r] & -> & Hin).
  apply replies_of_elem in Hin. simpl in Hnil. rewrite Hnil in Hin.
  by apply elem_of_nil in Hin.
Qed.

Lemma replies_of_length id (rs : list (nat * HttpResponse)) :
  NoDup rs.*1 → length (replies_of id rs) ≤ 1.
Proof.
  induction rs as [|[id' r] rs IH]; intros Hnd; [simpl; lia|].
  simpl in Hnd. apply NoDup_cons in Hnd as [Hnot Hnd].
  unfold replies_of in *. rewrite filter_cons. simpl.
  destruct (decide (id' = id)) as [->|Hne]; [|by apply IH].
  simpl. destruct (filter (λ p, p.1 = id) rs) as [|[id2 r2] l] eqn:Hf;
    [simpl; lia|].
  assert ((id2, r2) ∈ filter (λ p, p.1 = id) rs) as Hin
    by (rewrite Hf; by left).
  apply list_elem_of_filter in Hin as [Heq Hin]. simpl in Heq. subst id2.
  destruct Hnot. by apply (list_elem_of_fmap_2 fst _ (id, r2)).
Qed.

Lemma once_inv_respond id r s :
  once_inv s → replies_of id (responses s) = [] → once_inv (respond id r s).
Proof.
  intros Hinv Hnil. unfold once_inv in *. simpl. rewrite fmap_app. simpl.
  apply NoDup_app. split; [exact Hinv|]. split; [|apply NoDup_singleton].
  intros id' Hin Hid. apply list_elem_of_singleton in Hid as ->.
  by apply replies_of_nil in Hnil.
Qed.

Lemma docs_inv_pending s id :
  docs_inv s → is_Some (handlers s !! id) → replies_of id (responses s) = [].
Proof.
  intros Hinv [h Hh]. specialize (Hinv id). unfold handler_ok in Hinv.
  rewrite Hh in Hinv. destruct h; [apply Hinv|by destruct Hinv as (_ & ? & _)..].
Qed.

Lemma once_inv_ext s s' : once_inv s → responses s' = responses s → once_inv s'.
Proof. unfold once_inv. by intros H ->. Qed.

Lemma settle_once job c s :
  ids_ok (job :: jobs s) (handlers s) (nextRequest s) → docs_inv s →
  once_inv s → once_inv (settle job c s).
Proof.
  intros Hok Hdocs Hinv.
  assert (handlers s !! owner job = Some (AtQueuePromise (prompt job))) as Hh
    by (apply (ids_waiting _ _ _ Hok); by left).
  destruct c as [response|error]; simpl.
  - by rewrite (handler_resolved_waiting _ (prompt job)) by exact Hh.
  - rewrite (handler_rejected_waiting _ (prompt job)) by exact Hh.
    apply once_inv_respond; [exact Hinv|].
    apply docs_inv_pending; [exact Hdocs|]. rewrite Hh. eauto.
Qed.

Lemma processQueue_from_once queue s :
  requestQueue s = queue → ids_inv s → docs_inv s →
  once_inv s → once_inv (processQueue_from queue s).
Proof.
  revert s. induction queue as [|job rest IH]; intros s Hq Hids Hdocs Hinv;
    [exact Hinv|].
  pose proof (ids_ok_perm _ _ _ _ (jobs_split _ _ _ Hq) Hids) as Hok.
  rewrite processQueue_from_cons. simpl.
  set (s1 := shift job rest (set_isProcessing true s)).
  assert (docs_inv s1) as Hdocs1 by (by apply (docs_inv_frame s)).
  repeat case_match; try exact Hinv.
  apply IH.
  - by destruct (handler_rejected_cases (owner job) key_error s1)
      as [-> | ->].
  - apply (settle_ids job (Throw key_error) s1). exact Hok.
  - apply (settle_docs job (Throw key_error) s1); done.
  - apply (once_inv_ext (settle job (Throw key_error) s1)); [|done].
    by apply settle_once.
Qed.

Lemma processQueue_resume_once job p s :
  ids_ok (job :: jobs s) (handlers s) (nextRequest s) → docs_inv s →
  match p with
  | Completed (Normal _) => succeeded (owner job) (upstream s)
  | Completed (Throw e) => status (error_reply e) ≠ 200%Z
  | Suspended _ => True
  end →
  once_inv s → once_inv (processQueue_resume job (p, s)).
Proof.
  intros Hok Hdocs Hp Hinv. destruct p as [w|c]; [exact Hinv|].
  rewrite processQueue_resume_completed.
  apply processQueue_from_once; [done| | |].
  - by apply (settle_ids job c s).
  - by apply (settle_docs job c s).
  - apply (once_inv_ext (settle job c s)); [|done]. by apply settle_once.
Qed.

(** The state right after lines 182-183, before [processQueue] is called. *)
Lemma wf_arrived s p :
  wf s →
  let s1 := push {| prompt := p; owner := nextRequest s |}
              (set_handlers (<[nextRequest s := AtQueuePromise p]> (handlers s))
                 (set_nextRequest (S (nextRequest s)) s)) in
  ids_inv s1 ∧ docs_inv s1.
Proof.
  intros Hwf s1. destruct (wf_fresh s Hwf) as (Hnone & Hd & Hr & _). split.
  - unfold ids_inv, jobs. simpl. rewrite app_assoc.
    apply ids_ok_add, Hwf.
  - apply (docs_inv_change s _ (nextRequest s));
      [apply Hwf|other_ids|done|auto|simpl; lia|].
    unfold handler_ok, s1. simpl. by rewrite lookup_insert_eq.
Qed.

(** The state of a resumed worker, before it goes on. *)
Lemma wf_resumed s i w :
  wf s → workers s !! i = Some w →
  ids_ok (worker_job w :: jobs (unpark i s)) (handlers s) (nextRequest s) ∧
  docs_inv (unpark i s).
Proof.
  intros Hwf Hi. pose proof (wf_docs _ Hwf) as Hdocs.
  split; [by apply ids_inv_resumed; [apply Hwf|]|].
  by apply (docs_inv_frame s).
Qed.

(** What a resumed [generateTextFromGemini] hands to line 37 or line 40. *)
Lemma generateTextFromGemini_resume_outcome s i job retryCount u :
  let s1 := log_upstream (CallEnd job retryCount (now s) u) (unpark i s) in
  match generateTextFromGemini_resume job retryCount u s1 with
  | Completed (Normal _) => succeeded (owner job) (upstream s1)
  | Completed (Throw e) => status (error_reply e) ≠ 200%Z
  | Suspended _ => True
  end.
Proof.
  intros s1.
  destruct (generateTextFromGemini_resume job retryCount u s1)
    as [w|[v|e]] eqn:Hres; [done| |].
  - exists job, retryCount, (now s), u. split; [|split; [done|]].
    { subst s1. simpl. apply elem_of_app. right. by left. }
    unfold call_ok.
    destruct (generateTextFromGemini_resume_cases job retryCount u s1)
      as [(v' & -> & _) | [(e & _ & _ & _ & Hr) | [(e & _ & _ & _ & Hr)
         | (e & _ & _ & Hr)]]]; [done|rewrite Hr in Hres; discriminate..].
  - by eapply generateTextFromGemini_resume_throw.
Qed.

Lemma once_inv_step s e s' :
  wf s → once_inv s → step s e = Some s' → once_inv s'.
Proof.
  intros Hwf Hinv Hstep. revert Hwf Hinv. pattern s, s'.
  eapply step_cases; [..|exact Hstep]; clear; intros.
  - exact Hinv.
  - destruct (wf_fresh s Hwf) as (_ & _ & Hr & _).
    by apply (once_inv_respond _ _ (set_nextRequest _ s)).
  - destruct (wf_fresh s Hwf) as (_ & _ & Hr & _).
    by apply (once_inv_respond _ _ (set_nextRequest _ s)).
  - match goal with
    | |- context [AtQueuePromise ?p] =>
        destruct (wf_arrived s p Hwf) as [Hids Hdocs]
    end.
    unfold processQueue. case_match; [exact Hinv|].
    by apply processQueue_from_once.
  - destruct (wf_resumed s i _ Hwf H) as [Hok Hdocs].
    split_gemini; apply processQueue_resume_once; try done.
    by apply docs_inv_log.
  - destruct (wf_resumed s i _ Hwf H) as [Hok Hdocs].
    split_gemini; apply processQueue_resume_once; try done.
    by apply docs_inv_log.
  - destruct (wf_resumed s i _ Hwf H) as [Hok Hdocs].
    apply processQueue_resume_once; try done.
    + by apply docs_inv_log.
    + apply generateTextFromGemini_resume_outcome.
  - unfold handler_saved in H.
    destruct (handlers s !! id) as [h|] eqn:Hh; [|discriminate].
    assert (replies_of id (responses s) = []) as Hr
      by (apply docs_inv_pending; [apply Hwf|rewrite Hh; eauto]).
    repeat case_match; try discriminate; injection H as <-;
      first [ exact Hinv
            | by apply (once_inv_respond _ _ (insert_doc _ _ _))
            | by apply once_inv_respond ].
Qed.

Lemma once_inv_reachable s : reachable s → once_inv s.
Proof.
  apply reachable_ind.
  - intros key t0. constructor.
  - intros s0 e s1 Hreach Hinv Hstep.
    eapply once_inv_step; [by apply wf_reachable|done..].
Qed.

(** X3 (lines 171-240).  A request of POST /generate-text1 is answered at
    most once, whatever the upstream API and the database do. *)
Theorem answered_at_most_once s id :
  reachable s → length (replies_of id (responses s)) ≤ 1.
Proof. intros Hreach. by apply replies_of_length, once_inv_reachable. Qed.

Lemma answered_at_most_once_witness :
  reachable (after exchanged) ∧
  length (replies_of 0 (responses (after exchanged))) ≤ 1.
Proof.
  assert (reachable (after exchanged)) as Hreach
    by (exists true, t0, exchanged; vm_compute; reflexivity).
  split; [exact Hreach|]. by apply answered_at_most_once.
Defined.

(** ** A server started without GEMINI_API_KEY *)

Lemma run_preserves (P : Server → Prop) :
  (∀ s e s', P s → step s e = Some s' → P s') →
  ∀ events s s', P s → run s events = Some s' → P s'.
Proof.
  intros Hstep events. induction events as [|e rest IH]; intros s s' Hs Hrun.
  - simpl in Hrun. by injection Hrun as <-.
  - simpl in Hrun. destruct (step s e) as [s1|] eqn:He; [|discriminate].
    eapply IH; [|exact Hrun]. by eapply Hstep.
Qed.

Lemma keyless_inv_rejected id s :
  keyless_inv s → keyless_inv (handler_rejected id key_error s).
Proof.
  intros Hinv.
  destruct (handler_rejected_cases id key_error s) as [-> | ->]; [exact Hinv|].
  destruct Hinv as (Hkey & Hup & Hcol & Hws & Hhs & Hrs).
  split; [exact Hkey|]. split; [exact Hup|]. split; [exact Hcol|].
  split; [exact Hws|]. split; [by apply map_Forall_delete|].
  simpl. apply Forall_app. split; [exact Hrs|].
  apply Forall_singleton. right. by left.
Qed.

Lemma keyless_inv_park job deadline s :
  keyless_inv s → keyless_inv (park (AtRateLimitDelay job deadline) s).
Proof.
  intros (Hkey & Hup & Hcol & Hws & Hhs & Hrs).
  split; [exact Hkey|]. split; [exact Hup|]. split; [exact Hcol|].
  split; [|by split].
  simpl. apply Forall_app. split; [exact Hws|]. by apply Forall_singleton.
Qed.

Lemma keyless_inv_unpark i s : keyless_inv s → keyless_inv (unpark i s).
Proof.
  intros (Hkey & Hup & Hcol & Hws & Hhs & Hrs).
  split; [exact Hkey|]. split; [exact Hup|]. split; [exact Hcol|].
  split; [|by split]. simpl. by apply Forall_delete.
Qed.

Lemma processQueue_from_keyless queue s :
  keyless_inv s → keyless_inv (processQueue_from queue s).
Proof.
  revert s. induction queue as [|job rest IH]; intros s Hinv; [exact Hinv|].
  rewrite processQueue_from_cons. simpl.
  pose proof Hinv as (Hkey & _). rewrite Hkey.
  case_match.
  - by apply (keyless_inv_park job _ (shift job rest (set_isProcessing true s))).
  - apply IH.
    by apply (keyless_inv_rejected (owner job)
                (shift job rest (set_isProcessing true s))).
Qed.

Lemma processQueue_keyless s : keyless_inv s → keyless_inv (processQueue s).
Proof.
  intros Hinv. unfold processQueue. case_match; [exact Hinv|].
  by apply processQueue_from_keyless.
Qed.

Lemma keyless_inv_worker s i w :
  keyless_inv s → workers s !! i = Some w → rate_limited w.
Proof.
  intros (_ & _ & _ & Hws & _) Hi.
  by apply (proj1 (Forall_lookup _ _) Hws i).
Qed.

Lemma keyless_inv_step s e s' :
  keyless_inv s → step s e = Some s' → keyless_inv s'.
Proof.
  intros Hinv Hstep. revert Hinv. pattern s, s'.
  eapply step_cases; [..|exact Hstep]; clear; intros.
  - exact Hinv.
  - destruct Hinv as (Hkey & Hup & Hcol & Hws & Hhs & Hrs).
    split; [exact Hkey|]. split; [exact Hup|]. split; [exact Hcol|].
    split; [exact Hws|]. split; [by apply map_Forall_delete|].
    simpl. apply Forall_app. split; [exact Hrs|].
    apply Forall_singleton. by left.
  - destruct Hinv as (Hkey & Hup & Hcol & Hws & Hhs & Hrs).
    split; [exact Hkey|]. split; [exact Hup|]. split; [exact Hcol|].
    split; [exact Hws|]. split; [by apply map_Forall_delete|].
    simpl. apply Forall_app. split; [exact Hrs|].
    apply Forall_singleton. right. right. by eexists.
  - apply processQueue_keyless.
    destruct Hinv as (Hkey & Hup & Hcol & Hws & Hhs & Hrs).
    split; [exact Hkey|]. split; [exact Hup|]. split; [exact Hcol|].
    split; [exact Hws|]. split; [|exact Hrs].
    simpl. by apply map_Forall_insert_2.
  - apply (keyless_inv_unpark i) in Hinv.
    pose proof Hinv as (Hkey & _).
    split_gemini; [|congruence].
    rewrite processQueue_resume_completed. simpl.
    by apply processQueue_from_keyless, (keyless_inv_rejected (owner job)).
  - by destruct (keyless_inv_worker _ _ _ Hinv H).
  - by destruct (keyless_inv_worker _ _ _ Hinv H).
  - destruct Hinv as (_ & _ & _ & _ & Hhs & _).
    unfold handler_saved in H.
    destruct (handlers s !! id) as [h|] eqn:Hh; [|discriminate].
    apply Hhs in Hh. by destruct h.
Qed.

Lemma keyless_inv_start t0 : keyless_inv (start false t0).
Proof.
  split; [done|]. split; [done|]. split; [done|].
  split; [constructor|]. split; [apply map_Forall_empty|constructor].
Qed.

(** X4 (lines 51, 90-93, 23-47, 171-249).  When GEMINI_API_KEY is not set
    the server never calls the upstream API and stores nothing, and every
    response it sends is the 400 for a missing prompt, a 500
    "Error generating response" whose details name the missing variable, or,
    for a body that [bodyParser.json()] rejected, the 500 of the error
    middleware. *)
Theorem missing_key_fails_every_prompt t0 events s :
  run (start false t0) events = Some s →
  upstream s = [] ∧ collection s = [] ∧
  ∀ id r, (id, r) ∈ responses s → keyless_reply r.
Proof.
  intros Hrun.
  assert (keyless_inv s) as (_ & Hup & Hcol & _ & _ & Hrs).
  { eapply (run_preserves keyless_inv); [|apply keyless_inv_start|exact Hrun].
    intros. by eapply keyless_inv_step. }
  split; [exact Hup|]. split; [exact Hcol|].
  intros id r Hin. by apply (proj1 (Forall_forall _ _) Hrs (id, r)).
Qed.

Lemma missing_key_fails_every_prompt_witness :
  run (start false t0) keyless_events = Some keyless_run ∧
  responses keyless_run =
    [(0, {| status := 500;
            data := JObj [("error", JStr "Error generating response");
                          ("details",
                           JStr "GEMINI_API_KEY is not set in environment variables")] |});
     (1, {| status := 400;
            data := JObj [("error", JStr "Prompt is required")] |});
     (2, {| status := 500;
            data := JObj [("error", JStr "Internal Server Error");
                          ("details", JStr "Unexpected end of JSON input")] |})] ∧
  upstream keyless_run = [] ∧ collection keyless_run = [] ∧
  ∀ id r, (id, r) ∈ responses keyless_run → keyless_reply r.
Proof.
  assert (run (start false t0) keyless_events = Some keyless_run) as Hrun
    by (vm_compute; reflexivity).
  split; [exact Hrun|]. split; [vm_compute; reflexivity|].
  exact (missing_key_fails_every_prompt _ _ _ Hrun).
Defined.

Lemma idle_inv_step s e s' : idle_inv s → step s e = Some s' → idle_inv s'.
Proof.
  intros Hinv Hstep. revert Hinv. pattern s, s'.
  eapply step_cases; [..|exact Hstep]; clear; intros.
  - destruct Hinv as (Hkey & Hlast & Hnow & Hrest).
    split; [exact Hkey|]. split; [exact Hlast|]. split; [simpl; lia|exact Hrest].
  - destruct Hinv as (Hkey & Hlast & Hnow & Hp & Hq & Hws & Hhs & Hlen).
    split; [exact Hkey|]. split; [exact Hlast|]. split; [exact Hnow|].
    split; [exact Hp|]. split; [exact Hq|]. split; [exact Hws|].
    simpl. rewrite Hhs, delete_empty, length_app, Hlen. simpl. split; [done|lia].
  - destruct Hinv as (Hkey & Hlast & Hnow & Hp & Hq & Hws & Hhs & Hlen).
    split; [exact Hkey|]. split; [exact Hlast|]. split; [exact Hnow|].
    split; [exact Hp|]. split; [exact Hq|]. split; [exact Hws|].
    simpl. rewrite Hhs, delete_empty, length_app, Hlen. simpl. split; [done|lia].
  - destruct Hinv as (Hkey & Hlast & Hnow & Hp & Hq & Hws & Hhs & Hlen).
    match goal with
    | |- idle_inv (processQueue (push ?j ?t)) => pose (job := j); set (s1 := push j t)
    end.
    assert (processQueue s1 = processQueue_from [job] s1) as ->.
    { unfold processQueue.
      replace (isProcessing s1) with false by (symmetry; exact Hp).
      replace (requestQueue s1) with [job] by (subst s1; simpl; by rewrite Hq).
      reflexivity. }
    rewrite processQueue_from_cons. subst s1 job. simpl. rewrite Hkey, Hlast.
    replace (now s - 0 <? RATE_LIMIT_DELAY)%Z with false
      by (symmetry; apply Z.ltb_ge; lia).
    unfold handler_rejected. simpl. rewrite lookup_insert_eq. simpl.
    split; [exact Hkey|]. split; [exact Hlast|]. split; [exact Hnow|].
    split; [done|]. split; [done|]. split; [exact Hws|].
    rewrite Hhs. simpl.
    rewrite delete_insert_eq, delete_empty, length_app, Hlen. simpl.
    split; [done|lia].
  - destruct Hinv as (_ & _ & _ & _ & _ & Hws & _).
    rewrite Hws in H. discriminate.
  - destruct Hinv as (_ & _ & _ & _ & _ & Hws & _).
    rewrite Hws in H. discriminate.
  - destruct Hinv as (_ & _ & _ & _ & _ & Hws & _).
    rewrite Hws in H. discriminate.
  - destruct Hinv as (_ & _ & _ & _ & _ & _ & Hhs & _).
    unfold handler_saved in H. rewrite Hhs, lookup_empty in H. discriminate.
Qed.

Lemma idle_inv_start t0 : (RATE_LIMIT_DELAY ≤ t0)%Z → idle_inv (start false t0).
Proof.
  intros Ht0. split; [done|]. split; [done|]. split; [exact Ht0|]. done.
Qed.

(** X5 (lines 24-47, 90-93, 182-185, 233-238).  When GEMINI_API_KEY is not
    set, [lastRequestTime] stays 0, so on a clock that is at least
    RATE_LIMIT_DELAY past the epoch no request waits: each one is answered
    within the turn in which it arrives, and no timer, upstream call or save
    is ever pending. *)
Theorem missing_key_answers_at_once t0 events s :
  (RATE_LIMIT_DELAY ≤ t0)%Z →
  run (start false t0) events = Some s →
  lastRequestTime s = 0%Z ∧
  handlers s = ∅ ∧ workers s = [] ∧ requestQueue s = [] ∧
  isProcessing s = false ∧ length (responses s) = nextRequest s.
Proof.
  intros Ht0 Hrun.
  assert (idle_inv s) as (_ & Hlast & _ & Hp & Hq & Hws & Hhs & Hlen).
  { eapply (run_preserves idle_inv); [|exact (idle_inv_start _ Ht0)|exact Hrun].
    intros. by eapply idle_inv_step. }
  done.
Qed.

Lemma missing_key_answers_at_once_witness :
  (RATE_LIMIT_DELAY ≤ t0)%Z ∧
  run (start false t0) keyless_events = Some keyless_run ∧
  lastRequestTime keyless_run = 0%Z ∧
  handlers keyless_run = ∅ ∧ workers keyless_run = [] ∧
  requestQueue keyless_run = [] ∧ isProcessing keyless_run = false ∧
  length (responses keyless_run) = nextRequest keyless_run.
Proof.
  assert (RATE_LIMIT_DELAY ≤ t0)%Z as Ht0 by (vm_compute; discriminate).
  assert (run (start false t0) keyless_events = Some keyless_run) as Hrun
    by (vm_compute; reflexivity).
  split; [exact Ht0|]. split; [exact Hrun|].
  exact (missing_key_answers_at_once _ _ _ Ht0 Hrun).
Defined.

(** ** No request is forgotten *)

Lemma pending_ok_perm js js' hs : js ≡ₚ js' → pending_ok js hs → pending_ok js' hs.
Proof. intros Hperm Hok id p Hh. rewrite <- Hperm. by apply Hok. Qed.

Lemma pending_ok_remove job js hs :
  pending_ok (job :: js) hs → pending_ok js (delete (owner job) hs).
Proof.
  intros Hok id p Hh. apply lookup_delete_Some in Hh as [Hne Hh].
  apply Hok, elem_of_cons in Hh as [Heq|Hin]; [|exact Hin].
  destruct Hne. by rewrite <- Heq.
Qed.

Lemma pending_ok_insert job js hs h :
  ¬ queued h → pending_ok (job :: js) hs →
  pending_ok js (<[owner job := h]> hs).
Proof.
  intros Hh Hok id p Hid.
  destruct (decide (owner job = id)) as [<-|Hne].
  - rewrite lookup_insert_eq in Hid. injection Hid as ->. by destruct Hh.
  - rewrite lookup_insert_ne in Hid by done.
    apply Hok, elem_of_cons in Hid as [Heq|Hin]; [|exact Hin].
    destruct Hne. by rewrite <- Heq.
Qed.

Lemma pending_ok_add js hs n p :
  pending_ok js hs →
  pending_ok (js ++ [{| prompt := p; owner := n |}]) (<[n := AtQueuePromise p]> hs).
Proof.
  intros Hok id p' Hid. apply elem_of_app.
  destruct (decide (n = id)) as [<-|Hne].
  - rewrite lookup_insert_eq in Hid. injection Hid as <-. right. by left.
  - rewrite lookup_insert_ne in Hid by done. left. by apply Hok.
Qed.

Lemma pending_ok_skip_delete js hs id :
  pending_ok js hs → pending_ok js (delete id hs).
Proof.
  intros Hok id' p Hh. apply lookup_delete_Some in Hh as [_ Hh]. by apply Hok.
Qed.

Lemma pending_ok_skip_insert js hs id h :
  ¬ queued h → pending_ok js hs → pending_ok js (<[id := h]> hs).
Proof.
  intros Hh Hok id' p Hid.
  destruct (decide (id = id')) as [<-|Hne].
  - rewrite lookup_insert_eq in Hid. injection Hid as ->. by destruct Hh.
  - rewrite lookup_insert_ne in Hid by done. by apply Hok.
Qed.

Lemma settle_pending job c s :
  handlers s !! owner job = Some (AtQueuePromise (prompt job)) →
  pending_ok (job :: jobs s) (handlers s) → pending_inv (settle job c s).
Proof.
  intros Hh Hok. destruct c as [response|error]; simpl.
  - rewrite (handler_resolved_waiting _ (prompt job)) by exact Hh.
    apply (pending_ok_insert job (jobs s)); [by intros []|exact Hok].
  - rewrite (handler_rejected_waiting _ (prompt job)) by exact Hh.
    by apply pending_ok_remove.
Qed.

Lemma processQueue_from_pending queue s :
  requestQueue s = queue → ids_inv s → pending_inv s →
  pending_inv (processQueue_from queue s).
Proof.
  revert s. induction queue as [|job rest IH]; intros s Hq Hids Hinv;
    [exact Hinv|].
  pose proof (ids_ok_perm _ _ _ _ (jobs_split _ _ _ Hq) Hids) as Hok.
  pose proof (pending_ok_perm _ _ _ (jobs_split _ _ _ Hq) Hinv) as Hpend.
  rewrite processQueue_from_cons. simpl.
  set (s1 := shift job rest (set_isProcessing true s)).
  assert (handlers s1 !! owner job = Some (AtQueuePromise (prompt job))) as Hh
    by (apply (ids_waiting _ _ _ Hok); by left).
  assert (∀ w s2, worker_job w = job → jobs s2 = jobs s1 →
            handlers s2 = handlers s1 → pending_inv (park w s2)) as Hpark.
  { intros w s2 Hw Hj Hhs. unfold pending_inv.
    eapply pending_ok_perm; [symmetry; apply jobs_park|].
    rewrite Hw, Hj. simpl. rewrite Hhs. exact Hpend. }
  repeat case_match; try by apply Hpark.
  apply IH.
  - by destruct (handler_rejected_cases (owner job) key_error s1)
      as [-> | ->].
  - apply (settle_ids job (Throw key_error) s1). exact Hok.
  - by apply (settle_pending job (Throw key_error) s1).
Qed.

Lemma processQueue_pending s :
  ids_inv s → pending_inv s → pending_inv (processQueue s).
Proof.
  intros Hids H. unfold processQueue. case_match; [exact H|].
  by apply processQueue_from_pending.
Qed.

Lemma processQueue_resume_pending job p s :
  ids_ok (job :: jobs s) (handlers s) (nextRequest s) →
  pending_ok (job :: jobs s) (handlers s) →
  match p with Suspended w => worker_job w = job | Completed _ => True end →
  pending_inv (processQueue_resume job (p, s)).
Proof.
  intros Hok Hpend Hp. destruct p as [w|c].
  - unfold pending_inv. simpl.
    eapply pending_ok_perm; [symmetry; apply jobs_park|]. by rewrite Hp.
  - rewrite processQueue_resume_completed.
    apply processQueue_from_pending; [reflexivity| |].
    + by apply (settle_ids job c s).
    + apply (settle_pending job c s); [|exact Hpend].
      apply (ids_waiting _ _ _ Hok). by left.
Qed.

Lemma pending_inv_resumed i w s :
  pending_inv s → workers s !! i = Some w →
  pending_ok (worker_job w :: jobs (unpark i s)) (handlers s).
Proof.
  intros Hinv Hi. eapply pending_ok_perm; [by apply jobs_unpark|exact Hinv].
Qed.

Lemma pending_inv_step s e s' :
  ids_inv s → pending_inv s → step s e = Some s' → pending_inv s'.
Proof.
  intros Hids Hinv Hstep. revert Hids Hinv. pattern s, s'.
  eapply step_cases; [..|exact Hstep]; clear; intros.
  - exact Hinv.
  - by apply pending_ok_skip_delete.
  - by apply pending_ok_skip_delete.
  - apply processQueue_pending.
    + unfold ids_inv, jobs. simpl. rewrite app_assoc. by apply ids_ok_add.
    + unfold pending_inv, jobs. simpl. rewrite app_assoc.
      by apply pending_ok_add.
  - pose proof (ids_inv_resumed _ _ _ Hids H) as Hok.
    pose proof (pending_inv_resumed _ _ _ Hinv H) as Hpend.
    split_gemini; by apply processQueue_resume_pending.
  - pose proof (ids_inv_resumed _ _ _ Hids H) as Hok.
    pose proof (pending_inv_resumed _ _ _ Hinv H) as Hpend.
    split_gemini; by apply processQueue_resume_pending.
  - pose proof (ids_inv_resumed _ _ _ Hids H) as Hok.
    pose proof (pending_inv_resumed _ _ _ Hinv H) as Hpend.
    apply processQueue_resume_pending; [exact Hok|exact Hpend|].
    destruct (generateTextFromGemini_resume_cases job retryCount u s1)
      as [(v & _ & ->) | [(e & _ & _ & Hlt & ->) | [(e & _ & _ & _ & ->)
         | (e & _ & _ & ->)]]]; done.
  - unfold handler_saved in H. unfold pending_inv.
    repeat case_match; try discriminate; injection H as <-; simpl;
      first [ by apply pending_ok_skip_delete
            | apply pending_ok_skip_insert; [by intros []|exact Hinv] ].
Qed.

Lemma pending_inv_reachable s : reachable s → pending_inv s.
Proof.
  apply reachable_ind.
  - intros key t0 id p Hh. simpl in Hh. by rewrite lookup_empty in Hh.
  - intros s0 e s1 Hreach Hinv Hstep.
    eapply pending_inv_step; [|done..]. by apply wf_reachable.
Qed.

(** X6 (lines 23-47, 182-185).  No request is forgotten: while a handler
    waits for the promise of line 182, [isProcessing] is set, exactly one
    activation of [processQueue] is parked, and the job of the request is
    either the one that activation is working on or still in
    [requestQueue]. *)
Theorem waiting_request_is_queued s id p :
  reachable s → handlers s !! id = Some (AtQueuePromise p) →
  isProcessing s = true ∧
  ∃ w, workers s = [w] ∧
       (worker_job w = {| prompt := p; owner := id |} ∨
        {| prompt := p; owner := id |} ∈ requestQueue s).
Proof.
  intros Hreach Hh.
  pose proof (pending_inv_reachable s Hreach id p Hh) as Hin.
  pose proof (wf_flag _ (wf_reachable s Hreach)) as Hflag.
  unfold flag_inv in Hflag. unfold jobs in Hin.
  destruct (isProcessing s).
  - split; [done|]. destruct Hflag as [w Hw]. exists w. split; [exact Hw|].
    rewrite Hw in Hin. simpl in Hin.
    apply elem_of_cons in Hin as [Heq|Hin]; auto.
  - destruct Hflag as [Hw Hq]. rewrite Hw, Hq in Hin.
    by apply elem_of_nil in Hin.
Qed.

Lemma waiting_request_is_queued_witness :
  reachable (after failed_then_next) ∧
  handlers (after failed_then_next) !! 1 = Some (AtQueuePromise (JStr "hello")) ∧
  isProcessing (after failed_then_next) = true ∧
  ∃ w, workers (after failed_then_next) = [w] ∧
       (worker_job w = {| prompt := JStr "hello"; owner := 1 |} ∨
        {| prompt := JStr "hello"; owner := 1 |}
          ∈ requestQueue (after failed_then_next)).
Proof.
  assert (reachable (after failed_then_next)) as Hreach
    by (exists true, t0, failed_then_next; vm_compute; reflexivity).
  assert (handlers (after failed_then_next) !! 1
          = Some (AtQueuePromise (JStr "hello"))) as Hh
    by (vm_compute; reflexivity).
  split; [exact Hreach|]. split; [exact Hh|].
  exact (waiting_request_is_queued _ _ _ Hreach Hh).
Defined.

(** ** A save that fails *)

Lemma error_reply_save n m :
  error_reply (mkJsError n m None) = save_error_reply n m.
Proof.
  unfold error_reply, save_error_reply. simpl. by destruct (String.eqb n _).
Qed.

Lemma handler_saved_failed id n m s s' :
  handler_saved id (SaveFailed n m) s = Some s' →
  s' = respond id (save_error_reply n m) s ∧
  ∃ h, handlers s !! id = Some h ∧ ¬ queued h.
Proof.
  unfold handler_saved. intros H.
  destruct (handlers s !! id) as [[p|p r u|p r u a]|]; try discriminate;
    injection H as <-; rewrite error_reply_save; (split; [done|]);
    eexists; (split; [done|]); by intros [].
Qed.

(** X7 (lines 81-85, 189-202, 209-238).  When the database rejects a save
    the request is answered 500, labelled "Database Error" if the error is
    named MongoError and "Error generating response" otherwise, and that is
    its only response.  Nothing is undone and nothing more is stored for it:
    after a failed first save the collection holds no document of the
    request, after a failed second save it holds the user's message alone,
    with the [String] cast of the prompt as its content, whatever the server
    does afterwards. *)
Theorem failed_save_leaves_partial_exchange s id n m s' events s'' :
  reachable s →
  step s (SaveSettles id (SaveFailed n m)) = Some s' →
  run s' events = Some s'' →
  replies_of id (responses s'') = [save_error_reply n m] ∧
  match handlers s !! id with
  | Some (AtUserSave p _ _) => docs_of id (collection s'') = []
  | Some (AtResponseSave p _ u _) =>
      docs_of id (collection s'') = [u] ∧ role u = "user" ∧
      castString p = Some (content u)
  | _ => False
  end.
Proof.
  intros Hreach Hstep Hrun. apply wf_reachable in Hreach as Hwf.
  pose proof (wf_step _ _ _ Hwf Hstep) as Hwf'.
  pose proof (step_nextRequest _ _ _ Hstep) as Hnext.
  apply handler_saved_failed in Hstep as (-> & h & Hh & Hq).
  assert (id < nextRequest s) as Hlt
    by (apply (ids_fresh _ _ _ (wf_ids _ Hwf)); rewrite Hh; eauto).
  destruct (run_untouched id _ events s'' Hwf' Hrun) as (_ & -> & -> & _).
  { apply lookup_delete_eq. }
  { simpl. lia. }
  pose proof (wf_docs _ Hwf id) as Hok. unfold handler_ok in Hok.
  rewrite Hh in Hok |- *. simpl. rewrite replies_of_snoc, decide_True by done.
  destruct h as [p|p r u|p r u a].
  - by destruct Hq.
  - destruct Hok as (Hdocs & -> & _). done.
  - destruct Hok as (Hdocs & -> & Hc & (Hrole & _) & _). done.
Qed.

Lemma failed_save_leaves_partial_exchange_witness :
  reachable (after half_saved) ∧
  ∃ s' s'',
    step (after half_saved) (SaveSettles 0 (SaveFailed "MongoError" "pool closed"))
      = Some s' ∧
    run s' [Tick 100; Request hello] = Some s'' ∧
    replies_of 0 (responses s'') = [save_error_reply "MongoError" "pool closed"] ∧
    docs_of 0 (collection s'') =
      [{| role := "user"; content := JStr "hello"; intime := t0 |}].
Proof.
  assert (reachable (after half_saved)) as Hreach
    by (exists true, t0, half_saved; vm_compute; reflexivity).
  split; [exact Hreach|].
  exists (after (half_saved ++ [SaveSettles 0 (SaveFailed "MongoError" "pool closed")])),
         (after (half_saved ++ [SaveSettles 0 (SaveFailed "MongoError" "pool closed");
                                Tick 100; Request hello])).
  assert (step (after half_saved)
            (SaveSettles 0 (SaveFailed "MongoError" "pool closed")) =
          Some (after (half_saved ++
                  [SaveSettles 0 (SaveFailed "MongoError" "pool closed")])))
    as Hstep by (vm_compute; reflexivity).
  assert (run (after (half_saved ++
                  [SaveSettles 0 (SaveFailed "MongoError" "pool closed")]))
            [Tick 100; Request hello] =
          Some (after (half_saved ++
                  [SaveSettles 0 (SaveFailed "MongoError" "pool closed");
                   Tick 100; Request hello])))
    as Hrun by (vm_compute; reflexivity).
  split; [exact Hstep|]. split; [exact Hrun|].
  pose proof (failed_save_leaves_partial_exchange _ _ _ _ _ _ _ Hreach Hstep Hrun)
    as [Hreplies Hdocs].
  split; [exact Hreplies|].
  assert (handlers (after half_saved) !! 0 =
          Some (AtResponseSave (JStr "hello")
                  (JObj [("choices",
                     JArr [JObj [("message", JObj [("content", JStr "Hi!")])]])])
                  {| role := "user"; content := JStr "hello"; intime := t0 |}
                  {| role := "Alan-Ai"; content := JStr "Hi!"; intime := t0 |}))
    as Hh by (vm_compute; reflexivity).
  rewrite Hh in Hdocs. apply Hdocs.
Defined.

(** ** Responses are not mixed up *)

Lemma returned_for_mono id p v log log' :
  (∀ x, x ∈ log → x ∈ log') → returned_for id p v log → returned_for id p v log'.
Proof. intros Hsub (rc & t & u & Hin & Hu). exists rc, t, u. auto. Qed.

Lemma origin_ok_mono log log' hs rs :
  (∀ x, x ∈ log → x ∈ log') → origin_ok log hs rs → origin_ok log' hs rs.
Proof.
  intros Hsub [Hhs Hrs]. split.
  - intros id h Hh. specialize (Hhs id h Hh).
    destruct h; simpl in *; eauto using returned_for_mono.
  - eapply Forall_impl; [exact Hrs|]. intros [id r] Hr Hst.
    destruct (Hr Hst) as (p & v & u & text & ? & ? & ?).
    exists p, v, u, text. eauto using returned_for_mono.
Qed.

Lemma origin_ok_snoc log e hs rs :
  origin_ok log hs rs → origin_ok (log ++ [e]) hs rs.
Proof. apply origin_ok_mono. intros x Hx. apply elem_of_app. by left. Qed.

Lemma origin_ok_respond log hs rs id r :
  reply_origin log (id, r) → origin_ok log hs rs →
  origin_ok log (delete id hs) (rs ++ [(id, r)]).
Proof.
  intros Hr [Hhs Hrs]. split; [by apply map_Forall_delete|].
  apply Forall_app. split; [exact Hrs|]. by apply Forall_singleton.
Qed.

Lemma origin_ok_insert log hs rs id h :
  handler_origin log id h → origin_ok log hs rs →
  origin_ok log (<[id := h]> hs) rs.
Proof. intros Hh [Hhs Hrs]. split; [by apply map_Forall_insert_2|exact Hrs]. Qed.

Lemma reply_origin_error log id r : status r ≠ 200%Z → reply_origin log (id, r).
Proof. intros Hne Hst. by destruct Hne. Qed.

Lemma settle_origin job c s :
  handlers s !! owner job = Some (AtQueuePromise (prompt job)) →
  match c with
  | Normal v => returned_for (owner job) (prompt job) v (upstream s)
  | Throw e => status (error_reply e) ≠ 200%Z
  end →
  origin_inv s → origin_inv (settle job c s).
Proof.
  intros Hh Hc Hinv. destruct c as [v|e]; simpl.
  - rewrite (handler_resolved_waiting _ (prompt job)) by exact Hh.
    by apply origin_ok_insert.
  - rewrite (handler_rejected_waiting _ (prompt job)) by exact Hh.
    by apply origin_ok_respond; [apply reply_origin_error|].
Qed.

Lemma processQueue_from_origin queue s :
  requestQueue s = queue → ids_inv s → origin_inv s →
  origin_inv (processQueue_from queue s).
Proof.
  revert s. induction queue as [|job rest IH]; intros s Hq Hids Hinv;
    [exact Hinv|].
  pose proof (ids_ok_perm _ _ _ _ (jobs_split _ _ _ Hq) Hids) as Hok.
  rewrite processQueue_from_cons. simpl.
  set (s1 := shift job rest (set_isProcessing true s)).
  assert (handlers s1 !! owner job = Some (AtQueuePromise (prompt job))) as Hh
    by (apply (ids_waiting _ _ _ Hok); by left).
  repeat case_match.
  - exact Hinv.
  - by apply (origin_ok_snoc (upstream s)).
  - apply IH.
    + by destruct (handler_rejected_cases (owner job) key_error s1)
        as [-> | ->].
    + apply (settle_ids job (Throw key_error) s1). exact Hok.
    + by apply (settle_origin job (Throw key_error) s1).
Qed.

Lemma processQueue_origin s :
  ids_inv s → origin_inv s → origin_inv (processQueue s).
Proof.
  intros Hids H. unfold processQueue. case_match; [exact H|].
  by apply processQueue_from_origin.
Qed.

Lemma processQueue_resume_origin job p s :
  ids_ok (job :: jobs s) (handlers s) (nextRequest s) →
  match p with
  | Suspended _ => True
  | Completed (Normal v) => returned_for (owner job) (prompt job) v (upstream s)
  | Completed (Throw e) => status (error_reply e) ≠ 200%Z
  end →
  origin_inv s → origin_inv (processQueue_resume job (p, s)).
Proof.
  intros Hok Hp Hinv. destruct p as [w|c]; [exact Hinv|].
  rewrite processQueue_resume_completed.
  apply processQueue_from_origin; [reflexivity| |].
  - by apply (settle_ids job c s).
  - apply (settle_origin job c s); [|exact Hp|exact Hinv].
    apply (ids_waiting _ _ _ Hok). by left.
Qed.

Lemma handler_saved_origin id r s s' :
  origin_inv s → handler_saved id r s = Some s' → origin_inv s'.
Proof.
  intros [Hhs Hrs] H. unfold handler_saved in H.
  destruct (handlers s !! id) as [[p|p v u|p v u a]|] eqn:Hh;
    try discriminate; pose proof (Hhs id _ Hh) as Hret; simpl in Hret.
  - destruct r as [|n m].
    + destruct (castString p).
      * destruct (choice_content v) as [text|error] eqn:Hcc; injection H as <-.
        -- by apply origin_ok_insert.
        -- apply origin_ok_respond; [|done]. apply reply_origin_error.
           rewrite error_reply_plain; [done|by eapply choice_content_throw].
      * injection H as <-. apply origin_ok_respond; [|done].
        apply reply_origin_error. by rewrite error_reply_plain.
    + injection H as <-. apply origin_ok_respond; [|done].
      apply reply_origin_error. by rewrite error_reply_plain.
  - destruct r as [|n m].
    + destruct (choice_content v) as [text|error] eqn:Hcc.
      * destruct (castString text); injection H as <-.
        -- apply origin_ok_respond; [|done]. intros _. by exists p, v, u, text.
        -- apply origin_ok_respond; [|done]. apply reply_origin_error.
           by rewrite error_reply_plain.
      * injection H as <-. apply origin_ok_respond; [|done].
        apply reply_origin_error.
        rewrite error_reply_plain; [done|by eapply choice_content_throw].
    + injection H as <-. apply origin_ok_respond; [|done].
      apply reply_origin_error. by rewrite error_reply_plain.
Qed.

Lemma origin_inv_step s e s' :
  ids_inv s → origin_inv s → step s e = Some s' → origin_inv s'.
Proof.
  intros Hids Hinv Hstep. revert Hids Hinv. pattern s, s'.
  eapply step_cases; [..|exact Hstep]; clear; intros.
  - exact Hinv.
  - by apply origin_ok_respond; [apply reply_origin_error|].
  - by apply origin_ok_respond; [apply reply_origin_error|].
  - apply processQueue_origin.
    + unfold ids_inv, jobs. simpl. rewrite app_assoc. by apply ids_ok_add.
    + by apply origin_ok_insert.
  - pose proof (ids_inv_resumed _ _ _ Hids H) as Hok.
    split_gemini; apply processQueue_resume_origin; try done.
    by apply (origin_ok_snoc (upstream s)).
  - pose proof (ids_inv_resumed _ _ _ Hids H) as Hok.
    split_gemini; apply processQueue_resume_origin; try done.
    by apply (origin_ok_snoc (upstream s)).
  - pose proof (ids_inv_resumed _ _ _ Hids H) as Hok.
    apply processQueue_resume_origin; [exact Hok| |].
    + destruct (generateTextFromGemini_resume job retryCount u s1)
        as [w|[v|e]] eqn:Hres; [done| |].
      * exists retryCount, (now s), u. split.
        { subst s1. simpl. apply elem_of_app. right. destruct job. by left. }
        destruct (generateTextFromGemini_resume_cases job retryCount u s1)
          as [(v' & Ha & Hr) | [(e & _ & _ & _ & Hr) | [(e & _ & _ & _ & Hr)
             | (e & _ & _ & Hr)]]]; rewrite Hr in Hres; [|discriminate..].
        injection Hres as <-. exact Ha.
      * by eapply generateTextFromGemini_resume_throw.
    + by apply (origin_ok_snoc (upstream s)).
  - by eapply handler_saved_origin.
Qed.

Lemma origin_inv_reachable s : reachable s → origin_inv s.
Proof.
  apply reachable_ind.
  - intros key t0. split; [apply map_Forall_empty|constructor].
  - intros s0 e s1 Hreach Hinv Hstep.
    eapply origin_inv_step; [|done..]. by apply wf_reachable.
Qed.

Lemma attempt_normal u v :
  attempt u = Normal v →
  ∃ reply, u = HttpReply reply ∧ (200 ≤ status reply < 300)%Z ∧
           generateTextFromGemini_try reply = Normal v.
Proof.
  unfold attempt. intros H. apply bind_normal in H as (reply & Hpost & Htry).
  exists reply. destruct u as [r|msg]; simpl in Hpost; [|discriminate].
  case_bool_decide; [|discriminate]. injection Hpost as ->. done.
Qed.

(** X8 (lines 27, 36-38, 132-146, 182-208).  Responses are not mixed up
    between requests: a 200 response to a request carries, as [userInput],
    the prompt that was sent upstream in a call made for that same request,
    and as [gpt3Response] the [candidates[0].content.parts[0].text] of the
    2xx reply the upstream API gave to that call. *)
Theorem response_comes_from_own_call s id r :
  reachable s → (id, r) ∈ responses s → status r = 200%Z →
  ∃ p userMessage text retryCount t reply,
    r = success_reply p userMessage text ∧
    CallEnd {| prompt := p; owner := id |} retryCount t (HttpReply reply)
      ∈ upstream s ∧
    (200 ≤ status reply < 300)%Z ∧
    reply_text reply = Normal text.
Proof.
  intros Hreach Hin Hst.
  destruct (origin_inv_reachable s Hreach) as [_ Hrs].
  pose proof (proj1 (Forall_forall _ _) Hrs (id, r) Hin Hst)
    as (p & v & u & text & Hr & (rc & t & up & Hlog & Hup) & Hcc).
  simpl in Hr, Hlog.
  apply attempt_normal in Hup as (reply & -> & H2xx & Htry).
  apply generateTextFromGemini_try_normal in Htry as (text' & Htext & ->).
  assert (text' = text) as -> by (by injection Hcc).
  exists p, u, text, rc, t, reply. done.
Qed.

Lemma response_comes_from_own_call_witness :
  reachable (after exchanged) ∧
  ∃ r, (0, r) ∈ responses (after exchanged) ∧ status r = 200%Z ∧
  ∃ p userMessage text retryCount t reply,
    r = success_reply p userMessage text ∧
    CallEnd {| prompt := p; owner := 0 |} retryCount t (HttpReply reply)
      ∈ upstream (after exchanged) ∧
    (200 ≤ status reply < 300)%Z ∧
    reply_text reply = Normal text.
Proof.
  assert (reachable (after exchanged)) as Hreach
    by (exists true, t0, exchanged; vm_compute; reflexivity).
  split; [exact Hreach|].
  exists (success_reply (JStr "hello")
            {| role := "user"; content := JStr "hello"; intime := t0 |}
            (JStr "Hi!")).
  assert ((0, success_reply (JStr "hello")
                {| role := "user"; content := JStr "hello"; intime := t0 |}
                (JStr "Hi!")) ∈ responses (after exchanged)) as Hin
    by (vm_compute; left).
  split; [exact Hin|]. split; [reflexivity|].
  exact (response_comes_from_own_call _ _ _ Hreach Hin eq_refl).
Defined.

(** ** The number of upstream calls per request *)

Lemma attempts_snoc id e log :
  attempts id (log ++ [e]) =
  (attempts id log + if is_start_of id e then 1 else 0)%Z.
Proof.
  unfold attempts. rewrite filter_app, filter_cons, filter_nil.
  destruct (decide (is_start_of id e = true)) as [->|Hne].
  - rewrite length_app. simpl. lia.
  - apply not_true_is_false in Hne. rewrite Hne, app_nil_r. lia.
Qed.

Lemma attempts_end id job retryCount t u log :
  attempts id (log ++ [CallEnd job retryCount t u]) = attempts id log.
Proof. rewrite attempts_snoc. simpl. lia. Qed.

Lemma attempts_start id job retryCount t log :
  attempts id (log ++ [CallStart job retryCount t]) =
  if decide (owner job = id) then (attempts id log + 1)%Z else attempts id log.
Proof.
  rewrite attempts_snoc. simpl.
  case_bool_decide; [rewrite decide_True by done|rewrite decide_False by done];
    lia.
Qed.

Lemma budget_ok_weaken log ws queue n ws' queue' :
  (∀ w, w ∈ ws' → w ∈ ws) → (∀ job, job ∈ queue' → job ∈ queue) →
  budget_ok log ws queue n → budget_ok log ws' queue' n.
Proof.
  intros Hws Hq Hok id. destruct (Hok id) as (Hle & Hw & Hj & Hn).
  split; [exact Hle|]. split; [|split; [|exact Hn]].
  - intros w Hin. apply (Hw w), Hws, Hin.
  - intros job Hin. apply (Hj job), Hq, Hin.
Qed.

Lemma budget_ok_end log ws queue n job retryCount t u :
  budget_ok log ws queue n →
  budget_ok (log ++ [CallEnd job retryCount t u]) ws queue n.
Proof. intros Hok id. rewrite attempts_end. apply Hok. Qed.

Lemma budget_ok_park log log' queue n w :
  budget_ok log [] queue n →
  attempts (owner (worker_job w)) log' = started w →
  (started w ≤ MAX_RETRIES + 1)%Z →
  (∀ id, id ≠ owner (worker_job w) → attempts id log' = attempts id log) →
  (∀ job, job ∈ queue → owner job ≠ owner (worker_job w)) →
  owner (worker_job w) < n →
  budget_ok log' [w] queue n.
Proof.
  intros Hok Hw Hle Hother Hq Hlt id.
  destruct (Hok id) as (Hle' & _ & Hj & Hn).
  destruct (decide (id = owner (worker_job w))) as [->|Hne].
  - split; [by rewrite Hw|]. split; [|split].
    + intros w' Hin _. by apply list_elem_of_singleton in Hin as ->.
    + intros job Hin Heq. by destruct (Hq job Hin).
    + lia.
  - rewrite (Hother id Hne). split; [exact Hle'|]. split; [|by split].
    intros w' Hin Heq. apply list_elem_of_singleton in Hin as ->. by destruct Hne.
Qed.

Lemma budget_ok_push log ws queue n p :
  budget_ok log ws queue n →
  budget_ok log ws (queue ++ [{| prompt := p; owner := n |}]) (S n).
Proof.
  intros Hok id. destruct (Hok id) as (Hle & Hw & Hj & Hn).
  split; [exact Hle|]. split; [exact Hw|]. split.
  - intros job Hin Heq. apply elem_of_app in Hin as [Hin|Hin]; [by apply (Hj job)|].
    apply list_elem_of_singleton in Hin as ->. simpl in Heq. apply Hn. lia.
  - intros Hid. apply Hn. lia.
Qed.

Lemma budget_ok_succ log ws queue n :
  budget_ok log ws queue n → budget_ok log ws queue (S n).
Proof.
  intros Hok id. destruct (Hok id) as (Hle & Hw & Hj & Hn).
  split; [exact Hle|]. split; [exact Hw|]. split; [exact Hj|].
  intros Hid. apply Hn. lia.
Qed.

Lemma settle_budget job c s : budget_inv s → budget_inv (settle job c s).
Proof.
  unfold budget_inv.
  destruct (settle_workers job c s) as [-> ->].
  by rewrite settle_upstream, settle_nextRequest.
Qed.

(** A worker that has just taken [job] parks as [w]. *)
Lemma budget_inv_parked job rest w s s' :
  worker_job w = job →
  ids_ok (job :: rest) (handlers s) (nextRequest s) →
  budget_ok (upstream s) [] rest (nextRequest s) →
  workers s' = [w] → requestQueue s' = rest → nextRequest s' = nextRequest s →
  attempts (owner job) (upstream s') = started w →
  (started w ≤ MAX_RETRIES + 1)%Z →
  (∀ id, id ≠ owner job → attempts id (upstream s') = attempts id (upstream s)) →
  budget_inv s'.
Proof.
  intros Hw Hids Hok Hws Hq Hn Hatt Hle Hother. unfold budget_inv.
  rewrite Hws, Hq, Hn. subst job.
  apply (budget_ok_park (upstream s)); auto.
  - intros j Hj. by eapply ids_ok_owner_ne.
  - eapply ids_ok_owner_lt; [exact Hids|]. by left.
Qed.

Lemma processQueue_from_budget queue s :
  workers s = [] → requestQueue s = queue → ids_inv s → budget_inv s →
  budget_inv (processQueue_from queue s).
Proof.
  revert s. induction queue as [|job rest IH]; intros s Hws Hq Hids Hinv;
    [exact Hinv|].
  assert (ids_ok (job :: rest) (handlers s) (nextRequest s)) as Hok.
  { unfold ids_inv, jobs in Hids. by rewrite Hws, Hq in Hids. }
  assert (budget_ok (upstream s) [] (job :: rest) (nextRequest s)) as Hb.
  { unfold budget_inv in Hinv. by rewrite Hws, Hq in Hinv. }
  assert (attempts (owner job) (upstream s) = 0%Z) as H0.
  { destruct (Hb (owner job)) as (_ & _ & Hj & _). apply (Hj job); [by left|done]. }
  assert (budget_ok (upstream s) [] rest (nextRequest s)) as Hb'.
  { eapply budget_ok_weaken; [done| |exact Hb]. intros j Hj. by right. }
  rewrite processQueue_from_cons. simpl.
  set (s1 := shift job rest (set_isProcessing true s)).
  repeat case_match.
  - lazymatch goal with
    | |- budget_inv (park ?w _) => eapply (budget_inv_parked job rest w s)
    end;
      [done|exact Hok|exact Hb'|simpl; by rewrite Hws|done|done|exact H0| |done].
    simpl. unfold MAX_RETRIES. lia.
  - lazymatch goal with
    | |- budget_inv (park ?w _) => eapply (budget_inv_parked job rest w s)
    end;
      [done|exact Hok|exact Hb'|simpl; by rewrite Hws|done|done| | |].
    + simpl. rewrite attempts_start, decide_True by done. lia.
    + simpl. unfold MAX_RETRIES. lia.
    + intros id Hne. simpl. rewrite attempts_start, decide_False; done.
  - apply IH.
    + by destruct (handler_rejected_cases (owner job) key_error s1)
        as [-> | ->].
    + by destruct (handler_rejected_cases (owner job) key_error s1)
        as [-> | ->].
    + apply (settle_ids job (Throw key_error) s1).
      unfold jobs. simpl. by rewrite Hws.
    + apply (settle_budget job (Throw key_error) s1).
      unfold budget_inv. simpl. by rewrite Hws.
Qed.

Lemma processQueue_budget s :
  (isProcessing s = false → workers s = []) → ids_inv s → budget_inv s →
  budget_inv (processQueue s).
Proof.
  intros Hflag Hids H. unfold processQueue.
  destruct (isProcessing s) eqn:Hp; [exact H|]. simpl.
  case_match; [exact H|].
  apply processQueue_from_budget; [by apply Hflag|done..].
Qed.

Lemma processQueue_resume_budget job c s :
  workers s = [] →
  ids_ok (job :: jobs s) (handlers s) (nextRequest s) → budget_inv s →
  budget_inv (processQueue_resume job (Completed c, s)).
Proof.
  intros Hws Hok Hinv. rewrite processQueue_resume_completed.
  apply processQueue_from_budget.
  - simpl. by rewrite (proj1 (settle_workers job c s)).
  - reflexivity.
  - by apply (settle_ids job c s).
  - by apply (settle_budget job c s).
Qed.

(** The state of the only worker when it is resumed. *)
Lemma budget_inv_resumed s i w :
  wf s → budget_inv s → workers s !! i = Some w →
  workers (unpark i s) = [] ∧
  ids_ok (worker_job w :: requestQueue s) (handlers s) (nextRequest s) ∧
  budget_ok (upstream s) [] (requestQueue s) (nextRequest s) ∧
  attempts (owner (worker_job w)) (upstream s) = started w.
Proof.
  intros Hwf Hinv Hi.
  destruct (flag_inv_worker _ _ _ (wf_flag _ Hwf) Hi) as (_ & Hws & ->).
  pose proof (wf_ids _ Hwf) as Hids. unfold ids_inv, jobs in Hids.
  rewrite Hws in Hids. simpl in Hids. unfold budget_inv in Hinv. simpl.
  rewrite Hws in Hinv |- *. simpl.
  split; [done|]. split; [exact Hids|]. split.
  - eapply budget_ok_weaken; [|done|exact Hinv].
    intros w' Hin. by apply elem_of_nil in Hin.
  - destruct (Hinv (owner (worker_job w))) as (_ & Hw & _).
    apply Hw; [by left|done].
Qed.

Lemma budget_inv_step s e s' :
  wf s → budget_inv s → step s e = Some s' → budget_inv s'.
Proof.
  intros Hwf Hinv Hstep. revert Hwf Hinv. pattern s, s'.
  eapply step_cases; [..|exact Hstep]; clear; intros.
  - exact Hinv.
  - by apply budget_ok_succ.
  - by apply budget_ok_succ.
  - apply processQueue_budget.
    + simpl. intros Hp. pose proof (wf_flag _ Hwf) as Hflag.
      unfold flag_inv in Hflag. rewrite Hp in Hflag. apply Hflag.
    + unfold ids_inv, jobs. simpl. rewrite app_assoc. apply ids_ok_add, Hwf.
    + by apply budget_ok_push.
  - destruct (budget_inv_resumed _ _ _ Hwf Hinv H) as (Hws & Hok & Hb & Hatt).
    simpl in Hok, Hatt.
    split_gemini.
    + apply processQueue_resume_budget; [exact Hws| |].
      * unfold jobs. rewrite Hws. exact Hok.
      * unfold budget_inv. by rewrite Hws.
    + lazymatch goal with
    | |- budget_inv (processQueue_resume _ (Suspended ?w, _)) =>
        eapply (budget_inv_parked job (requestQueue s) w s)
    end;
        [done|exact Hok|exact Hb|simpl; simpl in Hws; by rewrite Hws
        |done|done| | |].
      * simpl. rewrite attempts_start, decide_True by done. lia.
      * simpl. unfold MAX_RETRIES. lia.
      * intros id Hne. simpl. rewrite attempts_start, decide_False; done.
  - destruct (budget_inv_resumed _ _ _ Hwf Hinv H) as (Hws & Hok & Hb & Hatt).
    destruct (wf_retrying _ _ _ _ _ Hwf H) as (_ & Hrc & _).
    simpl in Hok, Hatt.
    split_gemini.
    + apply processQueue_resume_budget; [exact Hws| |].
      * unfold jobs. rewrite Hws. exact Hok.
      * unfold budget_inv. by rewrite Hws.
    + lazymatch goal with
    | |- budget_inv (processQueue_resume _ (Suspended ?w, _)) =>
        eapply (budget_inv_parked job (requestQueue s) w s)
    end;
        [done|exact Hok|exact Hb|simpl; simpl in Hws; by rewrite Hws
        |done|done| | |].
      * simpl. rewrite attempts_start, decide_True by done. lia.
      * simpl. unfold MAX_RETRIES in *. lia.
      * intros id Hne. simpl. rewrite attempts_start, decide_False; done.
  - destruct (budget_inv_resumed _ _ _ Hwf Hinv H) as (Hws & Hok & Hb & Hatt).
    destruct (wf_posting _ _ _ _ Hwf H) as (_ & Hrc & _).
    simpl in Hok, Hatt.
    destruct (generateTextFromGemini_resume_cases job retryCount u s1)
      as [(v & _ & ->) | [(e & _ & _ & Hlt & ->) | [(e & _ & _ & _ & ->)
         | (e & _ & _ & ->)]]].
    2: { lazymatch goal with
    | |- budget_inv (processQueue_resume _ (Suspended ?w, _)) =>
        eapply (budget_inv_parked job (requestQueue s) w s)
    end;
           [done|exact Hok|exact Hb|simpl; simpl in Hws; by rewrite Hws
           |done|done| | |].
         - subst s1. simpl. by rewrite attempts_end.
         - simpl. unfold MAX_RETRIES in *. lia.
         - intros id Hne. subst s1. simpl. by rewrite attempts_end. }
    all: apply processQueue_resume_budget; [exact Hws| |];
      [ unfold jobs; subst s1; simpl; simpl in Hws; rewrite Hws; exact Hok
      | unfold budget_inv; subst s1; simpl; simpl in Hws; rewrite Hws;
        by apply budget_ok_end ].
  - destruct (handler_saved_frame _ _ _ _ H) as (_&_&_&_&Hq&Hw&Hn&Hu&_&_).
    unfold budget_inv. by rewrite Hq, Hw, Hn, Hu.
Qed.

Lemma budget_inv_reachable s : reachable s → budget_inv s.
Proof.
  apply reachable_ind.
  - intros key t0 id. unfold attempts. simpl.
    unfold MAX_RETRIES. split; [lia|]. split; [|by split].
    intros w Hin. by apply elem_of_nil in Hin.
  - intros s0 e s1 Hreach Hinv Hstep.
    eapply budget_inv_step; [|done..]. by apply wf_reachable.
Qed.

(** X9 (lines 14, 36, 132, 155-160).  [axios.post] is called at most
    MAX_RETRIES + 1 = 4 times for one request. *)
Theorem at_most_four_calls s id :
  reachable s → (attempts id (upstream s) ≤ MAX_RETRIES + 1)%Z.
Proof. intros Hreach. apply (budget_inv_reachable s Hreach id). Qed.

Lemma at_most_four_calls_witness :
  reachable (after exhausted) ∧
  attempts 0 (upstream (after exhausted)) = 4%Z ∧
  (attempts 0 (upstream (after exhausted)) ≤ MAX_RETRIES + 1)%Z.
Proof.
  assert (reachable (after exhausted)) as Hreach
    by (exists true, t0, exhausted; vm_compute; reflexivity).
  split; [exact Hreach|]. split; [vm_compute; reflexivity|].
  exact (at_most_four_calls _ 0 Hreach).
Defined.

(** ** Every pending request gets its response *)

Lemma owed_delete hs i h :
  hs !! i = Some h → owed hs = handler_weight h + owed (delete i hs).
Proof.
  intros Hi. unfold owed.
  apply (map_fold_delete_L (λ _ h acc, handler_weight h + acc));
    [intros; lia|exact Hi].
Qed.

Lemma owed_insert hs i h :
  owed (<[i := h]> hs) = handler_weight h + owed (delete i hs).
Proof.
  rewrite <- insert_delete_eq. unfold owed.
  apply (map_fold_insert_L (λ _ h acc, handler_weight h + acc));
    [intros; lia|apply lookup_delete_eq].
Qed.

Lemma owed_delete_le hs i : owed (delete i hs) ≤ owed hs.
Proof.
  destruct (hs !! i) as [h|] eqn:Hi.
  - rewrite (owed_delete hs i h Hi). lia.
  - by rewrite delete_id.
Qed.

Lemma handler_rejected_owed id e s :
  owed (handlers (handler_rejected id e s)) ≤ owed (handlers s).
Proof.
  destruct (handler_rejected_cases id e s) as [-> | ->]; [done|].
  apply owed_delete_le.
Qed.

Lemma settle_owed job c s :
  handlers s !! owner job = Some (AtQueuePromise (prompt job)) →
  owed (handlers (settle job c s)) + 10 ≤ owed (handlers s).
Proof.
  intros Hh. rewrite (owed_delete _ _ _ Hh). destruct c as [v|e]; simpl.
  - rewrite (handler_resolved_waiting _ (prompt job)) by exact Hh.
    simpl. rewrite owed_insert. simpl. lia.
  - rewrite (handler_rejected_waiting _ (prompt job)) by exact Hh.
    simpl. lia.
Qed.

Lemma processQueue_from_work queue s :
  workers s = [] →
  work (processQueue_from queue s) ≤ owed (handlers s) + 9.
Proof.
  revert s. induction queue as [|job rest IH]; intros s Hws.
  - unfold work. simpl. rewrite Hws. lia.
  - rewrite processQueue_from_cons. simpl.
    set (s1 := shift job rest (set_isProcessing true s)).
    repeat case_match.
    + unfold work. simpl. rewrite Hws. simpl. lia.
    + unfold work. simpl. rewrite Hws. simpl. lia.
    + etransitivity; [apply IH|].
      * by destruct (handler_rejected_cases (owner job) key_error s1)
          as [-> | ->].
      * pose proof (handler_rejected_owed (owner job) key_error s1). simpl in *.
        lia.
Qed.

Lemma processQueue_resume_work job c s :
  workers s = [] →
  handlers s !! owner job = Some (AtQueuePromise (prompt job)) →
  work (processQueue_resume job (Completed c, s)) < owed (handlers s).
Proof.
  intros Hws Hh. rewrite processQueue_resume_completed.
  pose proof (settle_owed job c s Hh) as Hsettle.
  pose proof (processQueue_from_work (requestQueue (settle job c s))
                (set_isProcessing false (settle job c s))) as Hfrom.
  simpl in Hfrom. rewrite (proj1 (settle_workers job c s)) in Hfrom.
  specialize (Hfrom Hws). lia.
Qed.

Lemma handler_saved_work id r s s' :
  handler_saved id r s = Some s' → work s' < work s.
Proof.
  unfold handler_saved, work. intros H.
  destruct (handlers s !! id) as [h|] eqn:Hh; [|discriminate].
  rewrite (owed_delete _ _ _ Hh).
  destruct h as [p|p v u|p v u a]; [discriminate| |];
    (destruct r as [|n m];
     [destruct (choice_content v) as [text|error];
      try destruct (castString p); try destruct (castString text)|]);
    injection H as <-; simpl; rewrite ?owed_insert; simpl; lia.
Qed.

Lemma obeys_app answer saved s events1 s1 events2 :
  obeys answer saved s events1 → run s events1 = Some s1 →
  obeys answer saved s1 events2 → obeys answer saved s (events1 ++ events2).
Proof.
  revert s. induction events1 as [|e rest IH]; intros s H1 Hrun H2; simpl in *.
  - by injection Hrun as ->.
  - destruct H1 as [He H1]. split; [exact He|].
    destruct (step s e) as [s'|]; [|done]. by apply IH.
Qed.

(** The parked worker of a reachable state. *)
Lemma reachable_worker s i w :
  reachable s → workers s !! i = Some w →
  i = 0 ∧ workers s = [w] ∧ workers (unpark i s) = [] ∧
  handlers s !! owner (worker_job w) = Some (AtQueuePromise (prompt (worker_job w))) ∧
  retry_bounded (GEMINI_API_KEY s) w.
Proof.
  intros Hreach Hi. apply wf_reachable in Hreach as Hwf.
  destruct (flag_inv_worker _ _ _ (wf_flag _ Hwf) Hi) as (_ & Hws & ->).
  split; [done|]. split; [exact Hws|]. split; [simpl; by rewrite Hws|]. split.
  - apply (ids_waiting _ _ _ (wf_ids _ Hwf)). unfold jobs. rewrite Hws. by left.
  - by apply (retry_inv_lookup _ _ _ (wf_retry _ Hwf) Hi).
Qed.

Lemma timer_work s job retryCount w :
  reachable s → workers s = [w] → worker_job w = job →
  (worker_rank (AtAxiosPost job retryCount) < worker_rank w) →
  work (processQueue_resume job (generateTextFromGemini job retryCount (unpark 0 s)))
    < work s.
Proof.
  intros Hreach Hws Hjob Hrank.
  assert (workers s !! 0 = Some w) as Hi by (by rewrite Hws).
  destruct (reachable_worker s 0 w Hreach Hi) as (_ & _ & Hun & Hh & _).
  rewrite Hjob in Hh.
  assert (work s = owed (handlers s) + worker_rank w) as ->
    by (unfold work; by rewrite Hws).
  split_gemini.
  - pose proof (processQueue_resume_work job (Throw key_error) (unpark 0 s) Hun Hh).
    simpl in *. lia.
  - unfold work. simpl. rewrite Hws. simpl. simpl in Hrank. lia.
Qed.

Lemma axios_work s job retryCount u :
  reachable s → workers s = [AtAxiosPost job retryCount] →
  let s1 := log_upstream (CallEnd job retryCount (now s) u) (unpark 0 s) in
  work (processQueue_resume job
          (generateTextFromGemini_resume job retryCount u s1, s1)) < work s.
Proof.
  intros Hreach Hws s1.
  assert (workers s !! 0 = Some (AtAxiosPost job retryCount)) as Hi
    by (by rewrite Hws).
  destruct (reachable_worker s 0 _ Hreach Hi) as (_ & _ & Hun & Hh & _ & Hrc).
  simpl in Hh.
  assert (work s = owed (handlers s) + Z.to_nat (8 - 2 * retryCount)) as ->
    by (unfold work; by rewrite Hws).
  assert (∀ c, work (processQueue_resume job (Completed c, s1))
               < owed (handlers s)) as Hdone.
  { intros c. apply (processQueue_resume_work job c s1); [exact Hun|exact Hh]. }
  destruct (generateTextFromGemini_resume_cases job retryCount u s1)
    as [(v & _ & ->) | [(e & _ & _ & Hlt & ->) | [(e & _ & _ & _ & ->)
       | (e & _ & _ & ->)]]].
  - specialize (Hdone (Normal v)). lia.
  - unfold work. subst s1. simpl. rewrite Hws. simpl.
    unfold MAX_RETRIES in *. lia.
  - specialize (Hdone (Throw rate_limit_error)). lia.
  - specialize (Hdone (Throw e)). lia.
Qed.

Lemma waiting_has_worker s id p :
  reachable s → handlers s !! id = Some (AtQueuePromise p) →
  ∃ w, workers s = [w].
Proof.
  intros Hreach Hh.
  pose proof (pending_inv_reachable s Hreach id p Hh) as Hin.
  pose proof (wf_flag _ (wf_reachable s Hreach)) as Hflag.
  unfold flag_inv in Hflag. unfold jobs in Hin.
  destruct (isProcessing s); [exact Hflag|].
  destruct Hflag as [Hw Hq]. rewrite Hw, Hq in Hin. by apply elem_of_nil in Hin.
Qed.

Lemma step_tick s d : (0 ≤ d)%Z → step s (Tick d) = Some (set_now (now s + d) s).
Proof. intros Hd. unfold step. by rewrite bool_decide_true. Qed.

Lemma step_timer_rate s job deadline :
  workers s = [AtRateLimitDelay job deadline] → (deadline ≤ now s)%Z →
  step s (TimerFires 0) =
    Some (processQueue_resume job (generateTextFromGemini job 0 (unpark 0 s))).
Proof. intros Hws Hd. unfold step. rewrite Hws. simpl. by rewrite bool_decide_true. Qed.

Lemma step_timer_retry s job retryCount deadline :
  workers s = [AtRetryDelay job retryCount deadline] → (deadline ≤ now s)%Z →
  step s (TimerFires 0) =
    Some (processQueue_resume job
            (generateTextFromGemini job (retryCount + 1) (unpark 0 s))).
Proof. intros Hws Hd. unfold step. rewrite Hws. simpl. by rewrite bool_decide_true. Qed.

Lemma handler_saved_some id r s h :
  handlers s !! id = Some h → ¬ queued h →
  ∃ s', handler_saved id r s = Some s'.
Proof.
  intros Hh Hq. unfold handler_saved. rewrite Hh.
  destruct h as [p|p v u|p v u a]; [by destruct Hq| |];
    (destruct r as [|n m];
     [destruct (choice_content v) as [text|error];
      try destruct (castString p); try destruct (castString text)|]); eauto.
Qed.

(** A timer that is due fires. *)
Lemma timer_progress answer saved s w deadline job retryCount :
  reachable s → workers s = [w] → worker_job w = job →
  worker_rank (AtAxiosPost job retryCount) < worker_rank w →
  (∀ s1, workers s1 = [w] → (deadline ≤ now s1)%Z →
     step s1 (TimerFires 0) =
       Some (processQueue_resume job
               (generateTextFromGemini job retryCount (unpark 0 s1)))) →
  ∃ events s', obeys answer saved s events ∧ run s events = Some s' ∧
               work s' < work s.
Proof.
  intros Hreach Hws Hjob Hrank Hfire.
  set (d := Z.max 0 (deadline - now s)).
  set (s1 := set_now (now s + d) s).
  assert (step s (Tick d) = Some s1) as Htick by (apply step_tick; lia).
  assert (step s1 (TimerFires 0) =
            Some (processQueue_resume job
                    (generateTextFromGemini job retryCount (unpark 0 s1))))
    as Htimer by (apply Hfire; [exact Hws|simpl; lia]).
  exists [Tick d; TimerFires 0]. eexists. split; [|split].
  - cbn [obeys obeys_at]. rewrite Htick, Htimer. done.
  - cbn [run]. rewrite Htick, Htimer. reflexivity.
  - apply (timer_work s1 job retryCount w);
      [by eapply reachable_step|exact Hws|exact Hjob|exact Hrank].
Qed.

Lemma progress answer saved s :
  reachable s → handlers s ≠ ∅ →
  ∃ events s', obeys answer saved s events ∧ run s events = Some s' ∧
               work s' < work s.
Proof.
  intros Hreach Hne. apply map_choose in Hne as (id & h & Hh).
  assert (queued h ∨ ¬ queued h) as [Hq|Hq]
    by (destruct h; simpl; [by left|right; by intros []..]).
  - destruct h as [p| |]; [|done..].
    destruct (waiting_has_worker s id p Hreach Hh) as [w Hws].
    assert (workers s !! 0 = Some w) as Hi by (by rewrite Hws).
    destruct (reachable_worker s 0 w Hreach Hi) as (_ & _ & _ & _ & Hrc).
    destruct w as [job deadline|job retryCount|job retryCount deadline].
    + apply (timer_progress answer saved s _ deadline job 0 Hreach Hws);
        [done|simpl; lia|].
      intros s1 Hws1 Hd. by apply (step_timer_rate s1 job deadline).
    + exists [AxiosSettles 0 (answer job retryCount)]. eexists.
      split; [|split].
      * cbn [obeys obeys_at]. rewrite (step_axios s 0 job retryCount), Hws;
          [done|by rewrite Hws].
      * cbn [run]. rewrite (step_axios s 0 job retryCount); [done|by rewrite Hws].
      * by apply axios_work.
    + apply (timer_progress answer saved s _ deadline job (retryCount + 1)
               Hreach Hws); [done| |].
      * simpl in Hrc |- *. unfold MAX_RETRIES in Hrc. lia.
      * intros s1 Hws1 Hd. by apply (step_timer_retry s1 job retryCount deadline).
  - set (r := match h with
              | AtUserSave _ _ doc | AtResponseSave _ _ _ doc => saved id doc
              | AtQueuePromise _ => SaveOk
              end).
    destruct (handler_saved_some id r s h Hh Hq) as [s' Hs'].
    exists [SaveSettles id r], s'. split; [|split].
    + cbn [obeys obeys_at step]. rewrite Hh, Hs'. by destruct h.
    + cbn [run step]. by rewrite Hs'.
    + by eapply handler_saved_work.
Qed.

Lemma reachable_idle s :
  reachable s → handlers s = ∅ →
  workers s = [] ∧ requestQueue s = [] ∧ isProcessing s = false.
Proof.
  intros Hreach Hempty. apply wf_reachable in Hreach as Hwf.
  assert (jobs s = []) as Hjobs.
  { destruct (jobs s) as [|job rest] eqn:Hj; [done|].
    pose proof (ids_waiting _ _ _ (wf_ids _ Hwf) job) as Hh.
    rewrite Hj, Hempty, lookup_empty in Hh. by specialize (Hh ltac:(by left)). }
  unfold jobs in Hjobs. apply app_eq_nil in Hjobs as [Hws Hq].
  apply fmap_nil_inv in Hws.
  pose proof (wf_flag _ Hwf) as Hflag. unfold flag_inv in Hflag.
  destruct (isProcessing s); [|done].
  destruct Hflag as [w Hw]. rewrite Hw in Hws. discriminate.
Qed.

Lemma drained answer saved n s :
  reachable s → work s < n →
  ∃ events s', obeys answer saved s events ∧ run s events = Some s' ∧
               handlers s' = ∅.
Proof.
  revert s. induction n as [|n IH]; intros s Hreach Hn; [lia|].
  destruct (decide (handlers s = ∅)) as [Hempty|Hne].
  - exists [], s. done.
  - destruct (progress answer saved s Hreach Hne) as (es1 & s1 & Ho1 & Hr1 & Hlt).
    destruct (IH s1) as (es2 & s2 & Ho2 & Hr2 & Hempty);
      [by eapply reachable_run|lia|].
    exists (es1 ++ es2), s2. split; [by eapply obeys_app|]. split; [|exact Hempty].
    by rewrite run_app, Hr1.
Qed.

(** X10 (lines 23-47, 90-168, 171-240).  No request is left waiting.
    Whatever the upstream API answers to each call and whatever the database
    answers to each save, from any state the server can be in the pending
    timers, calls and saves can settle, without any new request arriving, so
    that every handler has sent its response, [requestQueue] is empty and
    [isProcessing] is clear again. *)
Theorem pending_requests_get_answered answer saved s :
  reachable s →
  ∃ events s',
    obeys answer saved s events ∧ run s events = Some s' ∧
    handlers s' = ∅ ∧ workers s' = [] ∧ requestQueue s' = [] ∧
    isProcessing s' = false.
Proof.
  intros Hreach.
  destruct (drained answer saved (S (work s)) s Hreach)
    as (events & s' & Hobeys & Hrun & Hempty); [lia|].
  exists events, s'. split; [exact Hobeys|]. split; [exact Hrun|].
  split; [exact Hempty|]. apply reachable_idle; [|exact Hempty].
  by eapply reachable_run.
Qed.

Lemma pending_requests_get_answered_witness :
  reachable (after two_queued) ∧
  ∃ events s',
    obeys (λ _ _, too_many_requests) (λ _ _, SaveOk) (after two_queued) events ∧
    run (after two_queued) events = Some s' ∧
    handlers s' = ∅ ∧ workers s' = [] ∧ requestQueue s' = [] ∧
    isProcessing s' = false.
Proof.
  assert (reachable (after two_queued)) as Hreach
    by (exists true, t0, two_queued; vm_compute; reflexivity).
  split; [exact Hreach|].
  exact (pending_requests_get_answered _ _ _ Hreach).
Defined.

(** ** No request is dropped *)

Lemma answered_ok_respond hs rs n id r :
  answered_ok hs rs n → answered_ok (delete id hs) (rs ++ [(id, r)]) n.
Proof.
  intros Hok id' Hlt. rewrite fmap_app, elem_of_app. simpl.
  destruct (decide (id' = id)) as [->|Hne].
  - right. right. by left.
  - rewrite lookup_delete_ne by done. destruct (Hok id' Hlt); auto.
Qed.

Lemma answered_ok_insert hs rs n id h :
  answered_ok hs rs n → answered_ok (<[id := h]> hs) rs n.
Proof.
  intros Hok id' Hlt. destruct (decide (id = id')) as [->|Hne].
  - left. rewrite lookup_insert_eq. eauto.
  - rewrite lookup_insert_ne by done. by apply Hok.
Qed.

Lemma answered_ok_arrived hs rs n h :
  answered_ok hs rs n → answered_ok (<[n := h]> hs) rs (S n).
Proof.
  intros Hok id Hlt. destruct (decide (n = id)) as [->|Hne].
  - left. rewrite lookup_insert_eq. eauto.
  - rewrite lookup_insert_ne by done. apply Hok. lia.
Qed.

Lemma answered_ok_refused hs rs n r :
  answered_ok hs rs n → answered_ok (delete n hs) (rs ++ [(n, r)]) (S n).
Proof.
  intros Hok id Hlt. rewrite fmap_app, elem_of_app. simpl.
  destruct (decide (id = n)) as [->|Hne].
  - right. right. by left.
  - rewrite lookup_delete_ne by done. destruct (Hok id); auto. lia.
Qed.

Lemma settle_answered job c s : answered_inv s → answered_inv (settle job c s).
Proof.
  intros Hinv. destruct c as [v|e]; simpl.
  - destruct (handler_resolved_cases (owner job) v
                (set_lastRequestTime (now s) s)) as [-> | (p & _ & ->)];
      [exact Hinv|]. by apply answered_ok_insert.
  - destruct (handler_rejected_cases (owner job) e s) as [-> | ->];
      [exact Hinv|]. by apply answered_ok_respond.
Qed.

Lemma processQueue_from_answered queue s :
  answered_inv s → answered_inv (processQueue_from queue s).
Proof.
  revert s. induction queue as [|job rest IH]; intros s Hinv; [exact Hinv|].
  rewrite processQueue_from_cons. simpl.
  repeat case_match; try exact Hinv.
  apply IH.
  by apply (settle_answered job (Throw key_error)
              (shift job rest (set_isProcessing true s))).
Qed.

Lemma processQueue_resume_answered job p s :
  answered_inv s → answered_inv (processQueue_resume job (p, s)).
Proof.
  intros Hinv. destruct p as [w|c]; [exact Hinv|].
  rewrite processQueue_resume_completed.
  by apply processQueue_from_answered, (settle_answered job c s).
Qed.

Lemma answered_inv_step s e s' :
  answered_inv s → step s e = Some s' → answered_inv s'.
Proof.
  intros Hinv Hstep. revert Hinv. pattern s, s'.
  eapply step_cases; [..|exact Hstep]; clear; intros.
  - exact Hinv.
  - by apply answered_ok_refused.
  - by apply answered_ok_refused.
  - unfold processQueue. case_match; [by apply answered_ok_arrived|].
    by apply processQueue_from_answered, answered_ok_arrived.
  - split_gemini; by apply processQueue_resume_answered.
  - split_gemini; by apply processQueue_resume_answered.
  - by apply processQueue_resume_answered.
  - unfold handler_saved in H. unfold answered_inv.
    repeat case_match; try discriminate; injection H as <-; simpl;
      first [by apply answered_ok_respond | by apply answered_ok_insert].
Qed.

Lemma answered_inv_reachable s : reachable s → answered_inv s.
Proof.
  apply reachable_ind.
  - intros key t0 id Hlt. simpl in Hlt. lia.
  - intros s0 e s1 _ Hinv Hstep. by eapply answered_inv_step.
Qed.

Lemma replies_of_inhabited id (rs : list (nat * HttpResponse)) :
  id ∈ rs.*1 → replies_of id rs ≠ [].
Proof.
  intros Hin Hnil. by apply replies_of_nil in Hnil.
Qed.

(** X11 (lines 171-240).  No request is dropped: a request that has arrived
    and whose handler is no longer running has received exactly one
    response. *)
Theorem finished_request_has_one_response s id :
  reachable s → id < nextRequest s → handlers s !! id = None →
  ∃ r, replies_of id (responses s) = [r].
Proof.
  intros Hreach Hlt Hnone.
  pose proof (replies_of_length id _ (once_inv_reachable s Hreach)) as Hlen.
  destruct (answered_inv_reachable s Hreach id Hlt) as [[h Hh]|Hin];
    [congruence|].
  apply replies_of_inhabited in Hin.
  destruct (replies_of id (responses s)) as [|r [|r' rest]]; [done| |simpl in Hlen; lia].
  by exists r.
Qed.

Lemma finished_request_has_one_response_witness :
  reachable (after exhausted) ∧ 0 < nextRequest (after exhausted) ∧
  handlers (after exhausted) !! 0 = None ∧
  ∃ r, replies_of 0 (responses (after exhausted)) = [r].
Proof.
  assert (reachable (after exhausted)) as Hreach
    by (exists true, t0, exhausted; vm_compute; reflexivity).
  assert (0 < nextRequest (after exhausted)) as Hlt by (vm_compute; lia).
  assert (handlers (after exhausted) !! 0 = None) as Hnone
    by (vm_compute; reflexivity).
  split; [exact Hreach|]. split; [exact Hlt|]. split; [exact Hnone|].
  exact (finished_request_has_one_response _ _ Hreach Hlt Hnone).
Defined.

(** ** When the rate-limit timer is due *)

Lemma processQueue_from_due queue s :
  workers s = [] → due_inv (processQueue_from queue s).
Proof.
  revert s. induction queue as [|job rest IH]; intros s Hws.
  - intros job deadline Hin. simpl in Hin. rewrite Hws in Hin.
    by apply elem_of_nil in Hin.
  - rewrite processQueue_from_cons. simpl.
    set (s1 := shift job rest (set_isProcessing true s)).
    repeat case_match.
    + intros job' deadline Hin. simpl in Hin. rewrite Hws in Hin.
      apply list_elem_of_singleton in Hin. injection Hin as -> ->. simpl. lia.
    + intros job' deadline Hin. simpl in Hin. rewrite Hws in Hin.
      apply list_elem_of_singleton in Hin. discriminate.
    + apply IH.
      by destruct (handler_rejected_cases (owner job) key_error s1)
        as [-> | ->].
Qed.

Lemma processQueue_resume_due job p s :
  workers s = [] →
  match p with
  | Suspended (AtRateLimitDelay _ _) => False
  | _ => True
  end →
  due_inv (processQueue_resume job (p, s)).
Proof.
  intros Hws Hp. destruct p as [w|c].
  - intros job' deadline Hin. simpl in Hin. rewrite Hws in Hin.
    apply list_elem_of_singleton in Hin. by subst w.
  - rewrite processQueue_resume_completed. apply processQueue_from_due.
    simpl. by rewrite (proj1 (settle_workers job c s)).
Qed.

Lemma due_inv_step s e s' :
  flag_inv s → due_inv s → step s e = Some s' → due_inv s'.
Proof.
  intros Hflag Hinv Hstep. revert Hflag Hinv. pattern s, s'.
  eapply step_cases; [..|exact Hstep]; clear; intros.
  - exact Hinv.
  - exact Hinv.
  - exact Hinv.
  - unfold processQueue. simpl. unfold flag_inv in Hflag.
    destruct (isProcessing s); [exact Hinv|]. simpl.
    case_match; [exact Hinv|]. apply processQueue_from_due, Hflag.
  - destruct (flag_inv_worker _ _ _ Hflag H) as (_ & Hws & ->).
    split_gemini; apply processQueue_resume_due; simpl; by rewrite ?Hws.
  - destruct (flag_inv_worker _ _ _ Hflag H) as (_ & Hws & ->).
    split_gemini; apply processQueue_resume_due; simpl; by rewrite ?Hws.
  - destruct (flag_inv_worker _ _ _ Hflag H) as (_ & Hws & ->).
    apply processQueue_resume_due; [subst s1; simpl; by rewrite Hws|].
    destruct (generateTextFromGemini_resume_cases job retryCount u s1)
      as [(v & _ & ->) | [(e & _ & _ & Hlt & ->) | [(e & _ & _ & _ & ->)
         | (e & _ & _ & ->)]]]; done.
  - destruct (handler_saved_frame _ _ _ _ H) as (_&_&Hl&_&_&Hw&_).
    unfold due_inv. rewrite Hl, Hw. exact Hinv.
Qed.

Lemma due_inv_reachable s : reachable s → due_inv s.
Proof.
  apply reachable_ind.
  - intros key t0 job deadline Hin. by apply elem_of_nil in Hin.
  - intros s0 e s1 Hreach Hinv Hstep.
    eapply due_inv_step; [|done..]. by apply wf_reachable.
Qed.

Lemma settle_lastRequestTime job c s :
  lastRequestTime (settle job c s) =
  match c with
  | Normal _ => now s
  | Throw _ => lastRequestTime s
  end.
Proof.
  destruct c as [v|e]; simpl.
  - by destruct (handler_resolved_cases (owner job) v
                   (set_lastRequestTime (now s) s)) as [-> | (p & _ & ->)].
  - by destruct (handler_rejected_cases (owner job) e s) as [-> | ->].
Qed.

Lemma processQueue_from_lastRequestTime queue s :
  lastRequestTime (processQueue_from queue s) = lastRequestTime s.
Proof.
  revert s. induction queue as [|job rest IH]; intros s; [done|].
  rewrite processQueue_from_cons. simpl. repeat case_match; try done.
  rewrite IH. simpl.
  apply (settle_lastRequestTime job (Throw key_error)
           (shift job rest (set_isProcessing true s))).
Qed.

Lemma processQueue_resume_lastRequestTime job p s :
  lastRequestTime (processQueue_resume job (p, s)) =
  match p with
  | Completed (Normal _) => now s
  | _ => lastRequestTime s
  end.
Proof.
  destruct p as [w|c]; [done|].
  rewrite processQueue_resume_completed, processQueue_from_lastRequestTime.
  simpl. rewrite settle_lastRequestTime. by destruct c.
Qed.

(** [lastRequestTime] moves in one place only, line 37. *)
Lemma step_lastRequestTime s e s' :
  step s e = Some s' →
  lastRequestTime s' =
  match e with
  | AxiosSettles _ u => if call_ok u then now s else lastRequestTime s
  | _ => lastRequestTime s
  end.
Proof.
  destruct e as [d|body|message|i|i u|id r]; unfold step; intros Hstep.
  - case_bool_decide; [|discriminate]. by injection Hstep as <-.
  - unfold post_generate_text1 in Hstep.
    destruct (js_prop body "prompt") as [prompt|]; [|discriminate].
    destruct (truthy prompt); simpl in Hstep; injection Hstep as <-; [|done].
    unfold processQueue. case_match; [done|].
    by rewrite processQueue_from_lastRequestTime.
  - by injection Hstep as <-.
  - destruct (workers s !! i) as [[job deadline|job rc|job rc deadline]|];
      try discriminate; (case_bool_decide; [|discriminate]);
      injection Hstep as <-; split_gemini;
      by rewrite processQueue_resume_lastRequestTime.
  - destruct (workers s !! i) as [[job deadline|job rc|job rc deadline]|];
      try discriminate.
    cbv zeta in Hstep. apply (inj Some) in Hstep as <-.
    rewrite processQueue_resume_lastRequestTime.
    unfold generateTextFromGemini_resume, call_ok.
    destruct (attempt u) as [v|e]; [done|].
    by destruct (generateTextFromGemini_catch e rc).
  - by destruct (handler_saved_frame _ _ _ _ Hstep) as (_ & _ & Hl & _).
Qed.

(** X12 (lines 18, 30-37).  The wait of line 33 ends exactly
    RATE_LIMIT_DELAY after [lastRequestTime], and [lastRequestTime] is the
    completion time of the last call that succeeded (0 when none has): a
    turn moves it only when an upstream call settles with a reply that makes
    [generateTextFromGemini] return, and then to the time of that turn; a
    call that fails, like every other turn, leaves it as it was. *)
Theorem rate_limit_timer_due s :
  reachable s →
  (∀ job deadline,
     AtRateLimitDelay job deadline ∈ workers s →
     deadline = (lastRequestTime s + RATE_LIMIT_DELAY)%Z) ∧
  (∀ e s',
     step s e = Some s' →
     lastRequestTime s' =
       match e with
       | AxiosSettles _ u => if call_ok u then now s else lastRequestTime s
       | _ => lastRequestTime s
       end).
Proof.
  intros Hreach. split.
  - apply (due_inv_reachable s Hreach).
  - apply step_lastRequestTime.
Qed.

Lemma rate_limit_timer_due_witness :
  reachable (after failed_then_next) ∧
  (∀ job deadline,
     AtRateLimitDelay job deadline ∈ workers (after failed_then_next) →
     deadline = (lastRequestTime (after failed_then_next) + RATE_LIMIT_DELAY)%Z) ∧
  lastRequestTime (after failed_then_next) = 0%Z ∧
  lastRequestTime
    (after (failed_then_next ++ [Tick 7; AxiosSettles 0 unavailable])) = 0%Z ∧
  lastRequestTime
    (after (failed_then_next ++
            [Tick 7; AxiosSettles 0 (gemini_says (JObj [("text", JStr "Hi!")]))]))
    = (t0 + 7)%Z.
Proof.
  assert (reachable (after failed_then_next)) as Hreach
    by (exists true, t0, failed_then_next; vm_compute; reflexivity).
  destruct (rate_limit_timer_due _ Hreach) as [Hdue _].
  split; [exact Hreach|]. split; [exact Hdue|]. split; [vm_compute; reflexivity|].
  assert (reachable (after (failed_then_next ++ [Tick 7]))) as Hreach7
    by (exists true, t0, (failed_then_next ++ [Tick 7]); vm_compute; reflexivity).
  destruct (rate_limit_timer_due _ Hreach7) as [_ Hstep].
  split.
  - rewrite (Hstep (AxiosSettles 0 unavailable)
               (after (failed_then_next ++ [Tick 7; AxiosSettles 0 unavailable])));
      vm_compute; reflexivity.
  - rewrite (Hstep (AxiosSettles 0 (gemini_says (JObj [("text", JStr "Hi!")])))
               (after (failed_then_next ++
                  [Tick 7;
                   AxiosSettles 0 (gemini_says (JObj [("text", JStr "Hi!")]))])));
      vm_compute; reflexivity.
Defined.

(** ** The collection only grows *)

Lemma settle_collection job c s : collection (settle job c s) = collection s.
Proof.
  destruct c as [v|e]; simpl.
  - by destruct (handler_resolved_cases (owner job) v
                   (set_lastRequestTime (now s) s)) as [-> | (p & _ & ->)].
  - by destruct (handler_rejected_cases (owner job) e s) as [-> | ->].
Qed.

Lemma processQueue_from_collection queue s :
  collection (processQueue_from queue s) = collection s.
Proof.
  revert s. induction queue as [|job rest IH]; intros s; [done|].
  rewrite processQueue_from_cons. simpl. repeat case_match; try done.
  rewrite IH. simpl.
  apply (settle_collection job (Throw key_error)
           (shift job rest (set_isProcessing true s))).
Qed.

Lemma processQueue_resume_collection job p s :
  collection (processQueue_resume job (p, s)) = collection s.
Proof.
  destruct p as [w|c]; [done|].
  rewrite processQueue_resume_completed, processQueue_from_collection. simpl.
  apply settle_collection.
Qed.

Lemma step_collection s e s' :
  step s e = Some s' → collection s `prefix_of` collection s'.
Proof.
  intros Hstep. pattern s, s'.
  eapply step_cases; [..|exact Hstep]; clear; intros; try done.
  - unfold processQueue. case_match; [done|].
    by rewrite processQueue_from_collection.
  - split_gemini; by rewrite processQueue_resume_collection.
  - split_gemini; by rewrite processQueue_resume_collection.
  - by rewrite processQueue_resume_collection.
  - unfold handler_saved in H.
    repeat case_match; try discriminate; injection H as <-; simpl;
      first [done | by apply prefix_app_r].
Qed.

(** X13 (lines 189-202).  Documents are only ever appended: whatever happens,
    the documents saved so far stay in the collection, unchanged and in the
    same order, in front of those saved later. *)
Theorem collection_append_only s events s' :
  run s events = Some s' → collection s `prefix_of` collection s'.
Proof.
  revert s. induction events as [|e rest IH]; intros s Hrun; simpl in Hrun.
  - by injection Hrun as <-.
  - destruct (step s e) as [s1|] eqn:Hstep; [|discriminate].
    etransitivity; [by eapply step_collection|by apply IH].
Qed.

Lemma collection_append_only_witness :
  run (after half_saved) [SaveSettles 0 SaveOk; Request hello] =
    Some (after (half_saved ++ [SaveSettles 0 SaveOk; Request hello])) ∧
  collection (after half_saved)
    `prefix_of` collection (after (half_saved ++ [SaveSettles 0 SaveOk; Request hello])).
Proof.
  assert (run (after half_saved) [SaveSettles 0 SaveOk; Request hello] =
          Some (after (half_saved ++ [SaveSettles 0 SaveOk; Request hello])))
    as Hrun by (vm_compute; reflexivity).
  split; [exact Hrun|]. exact (collection_append_only _ _ _ Hrun).
Defined.

(** * The chat client and the server *)

Lemma post_generate_text1_queued body p s :
  js_prop body "prompt" = Normal p → truthy p = true →
  post_generate_text1 body s =
    Some (processQueue
            (push {| prompt := p; owner := nextRequest s |}
               (set_handlers (<[nextRequest s := AtQueuePromise p]> (handlers s))
                  (set_nextRequest (S (nextRequest s)) s)))).
Proof. intros Hp Ht. unfold post_generate_text1. by rewrite Hp, Ht. Qed.

Lemma truthy_string p : p ≠ "" → truthy (JStr p) = true.
Proof. intros Hp. by destruct p. Qed.

(** X14 (client [handleSubmit], lines 96-110; server lines 51, 174-185,
    243-249).  A prompt the client submits is never refused for want of a
    prompt.  The client sends nothing for a prompt that is empty once
    trimmed.  For the body it sends otherwise there are two ways on: either
    [bodyParser.json()] fails on the request (a body over its size limit)
    and the error middleware answers 500, or the body reaches the route
    handler, passes its check and is queued. *)
Theorem submitted_prompt_is_queued (trim : string → string) prompt body s e :
  trim "" = "" →
  Client.handleSubmit_body trim prompt = Some body →
  (e = Request body ∨ ∃ message, e = BodyRejected message) →
  ∃ s', step s e = Some s' ∧
        match e with
        | BodyRejected message =>
            responses s' =
              responses s ++ [(nextRequest s, error_middleware message)] ∧
            pushed s' = pushed s
        | _ => pushed s' = pushed s ++ [nextRequest s]
        end.
Proof.
  intros Htrim Hbody He. unfold Client.handleSubmit_body in Hbody.
  destruct (String.eqb_spec (trim prompt) "") as [|Hne]; [discriminate|].
  injection Hbody as <-.
  assert (prompt ≠ "") as Hprompt by (intros ->; by destruct Hne).
  destruct He as [-> | [message ->]].
  - eexists. split.
    + unfold step.
      apply (post_generate_text1_queued _ (JStr prompt)); [done|].
      by apply truthy_string.
    + unfold processQueue. case_match; [done|].
      by rewrite processQueue_from_pushed.
  - eexists. split; [reflexivity|]. done.
Qed.

Lemma submitted_prompt_is_queued_witness :
  (λ p : string, p) "" = "" ∧
  Client.handleSubmit_body (λ p, p) "hello" = Some hello ∧
  ∃ s', step (start true t0) (Request hello) = Some s' ∧
        pushed s' = pushed (start true t0) ++ [nextRequest (start true t0)].
Proof.
  split; [reflexivity|]. split; [reflexivity|].
  apply (submitted_prompt_is_queued (λ p, p) "hello" hello (start true t0)
           (Request hello)); [reflexivity|reflexivity|by left].
Defined.





